(** * Conway's Game of Life: grid engine and animation generator

    A shallow embedding of [internal/gol.go] (the grid engine) and of
    [GenerateGIF] in [main.go] (the animation generator), with the
    properties of the design document stated and proved over it.

    Conventions of the embedding.
    - Go's [int] is [Z].  The integers the modelled functions compute are
      coordinates of cells and of pixels; the embedding describes the
      program wherever these fit the 64 bits of an [int].  A property
      that needs them to fit says so: [is_int] for a number, [raster_fits]
      for the raster of a grid at a scale.
    - A Go slice is a [list]; an index outside the slice is a run-time
      panic, which the embedding makes explicit in the type [result].
    - A method with a pointer receiver that mutates its receiver takes the
      grid and returns the new grid.
    - [uint64] values of the checksum are [Z] in [0, 2^64). *)

From Stdlib Require Import ZArith List Lia Bool Ascii String.
From stdpp Require Import base list.
Import ListNotations.

Local Open Scope Z_scope.

(** ** Machine integers *)

(** [math.MinInt] and [math.MaxInt] of a 64-bit [int]. *)
Definition MinInt : Z := -9223372036854775808.
Definition MaxInt : Z := 9223372036854775807.

Definition is_int (z : Z) : Prop := MinInt ≤ z ≤ MaxInt.

(** ** Run-time panics *)

Inductive result (A : Type) : Type :=
| Ok (a : A)
| Panic.
Arguments Ok {A} a.
Arguments Panic {A}.

Global Instance result_ret : MRet result := @Ok.
Global Instance result_bind : MBind result :=
  λ A B f m, match m with Ok a => f a | Panic => Panic end.

(** ** Slices *)

(** [s[i]] as an expression. *)
Definition index {A} (s : list A) (i : Z) : result A :=
  if i <? 0 then Panic
  else match s !! Z.to_nat i with
       | Some a => Ok a
       | None => Panic
       end.

(** [s[i] = v] as a statement. *)
Definition assign {A} (s : list A) (i : Z) (v : A) : result (list A) :=
  if (0 <=? i) && (i <? Z.of_nat (length s))
  then Ok (<[Z.to_nat i := v]> s)
  else Panic.

(** [m[i][j]] and [m[i][j] = v] on a slice of slices. *)
Definition load2 {A} (m : list (list A)) (i j : Z) : result A :=
  row ← index m i; index row j.

Definition store2 {A} (m : list (list A)) (i j : Z) (v : A)
  : result (list (list A)) :=
  row ← index m i; row' ← assign row j v; assign m i row'.

(** ** Counted loops

    [for i := lo; i < hi; i++ { body }] over a state [St]; the bound does
    not change during the loop in any loop of the program. *)

Fixpoint for_iter {St} (n : nat) (i : Z) (body : Z → St → result St) (s : St)
  : result St :=
  match n with
  | O => Ok s
  | S n' => s' ← body i s; for_iter n' (i + 1) body s'
  end.

Definition for_range {St} (lo hi : Z) (body : Z → St → result St) (s : St)
  : result St :=
  for_iter (Z.to_nat (hi - lo)) lo body s.

(** ** The grid engine (internal/gol.go) *)

Definition error := option string.

Record GameOfLife := mkGame {
  width : Z;
  height : Z;
  data : list (list bool);          (* current state *)
  back_buffer : list (list bool);   (* future state *)
}.

Definition with_data (g : GameOfLife) (d : list (list bool)) : GameOfLife :=
  mkGame (width g) (height g) d (back_buffer g).

Definition with_back_buffer (g : GameOfLife) (b : list (list bool)) : GameOfLife :=
  mkGame (width g) (height g) (data g) b.

(** [make([]T, n)]: [n] zero values. *)
Definition make {A} (zero : A) (n : Z) : list A := replicate (Z.to_nat n) zero.

Definition NewGameOfLife (width height : Z) : result (option GameOfLife * error) :=
  let game := mkGame width height [] [] in
  if (width <=? 0) || (height <=? 0) then Ok (None, Some "invalid size"%string)
  else
    let game := mkGame width height (make [] height) (make [] height) in
    game ← for_range 0 height (λ i (game : GameOfLife),
      d ← assign (data game) i (make false width);
      b ← assign (back_buffer game) i (make false width);
      Ok (mkGame width height d b)) game;
    Ok (Some game, None).

Definition Set_ (g : GameOfLife) (x y : Z) (val : bool)
  : result (GameOfLife * error) :=
  if (x <? 0) || (x >=? width g) then Ok (g, Some "out of bounds"%string)
  else if (y <? 0) || (y >=? height g) then Ok (g, Some "out of bounds"%string)
  else
    d ← store2 (data g) y x val;
    b ← store2 (back_buffer g) y x val;
    Ok (mkGame (width g) (height g) d b, None).

Definition At (g : GameOfLife) (x y : Z) : result bool :=
  if (x <? 0) || (x >=? width g) then Ok false
  else if (y <? 0) || (y >=? height g) then Ok false
  else load2 (data g) y x.

Definition Flush (g : GameOfLife) : result GameOfLife :=
  for_range 0 (height g) (λ i (g : GameOfLife),
    for_range 0 (width g) (λ j (g : GameOfLife),
      v ← load2 (back_buffer g) i j;
      d ← store2 (data g) i j v;
      Ok (with_data g d)) g) g.

Definition CellValue (g : GameOfLife) (x y : Z) : result Z :=
  for_range 0 3 (λ i (sum : Z),
    for_range 0 3 (λ j (sum : Z),
      if (j =? 1) && (i =? 1) then Ok sum
      else
        a ← At g (j + x - 1) (i + y - 1);
        Ok (if a : bool then sum + 1 else sum)) sum) 0.

Definition GetWidth (g : GameOfLife) : Z := width g.
Definition GetHeight (g : GameOfLife) : Z := height g.

(** update state of data *)
Definition Update (g : GameOfLife) : result GameOfLife :=
  g ← for_range 0 (height g) (λ i (g : GameOfLife),
    for_range 0 (width g) (λ j (g : GameOfLife),
      cnt ← CellValue g j i;
      a ← At g j i;
      if a : bool then
        if (cnt <? 2) || (cnt >? 3) then
          b ← store2 (back_buffer g) i j false; Ok (with_back_buffer g b)
        else Ok g
      else
        if cnt =? 3 then
          b ← store2 (back_buffer g) i j true; Ok (with_back_buffer g b)
        else Ok g) g) g;
  Flush g.

(** ** The raster of package [image], through its interface

    [image.Paletted] is used by the program through [NewPaletted], [Set]
    and its bounds only.  A raster is its rectangle together with the
    palette index stored at each point; [Set] outside the rectangle does
    nothing and [ColorIndexAt] outside reads 0, as in the library.

    [NewPaletted] is the call that returns: the library panics with
    "huge or negative dimensions" when the number of pixels of the
    rectangle is not an [int], which the properties exclude with
    [raster_fits]. *)

Module image.

Record Rectangle := mkRect { MinX : Z; MinY : Z; MaxX : Z; MaxY : Z }.

(** [image.Rect]: the rectangle is put in canonical form. *)
Definition Rect (x0 y0 x1 y1 : Z) : Rectangle :=
  let '(x0, x1) := if x0 >? x1 then (x1, x0) else (x0, x1) in
  let '(y0, y1) := if y0 >? y1 then (y1, y0) else (y0, y1) in
  mkRect x0 y0 x1 y1.

Definition Dx (r : Rectangle) : Z := MaxX r - MinX r.
Definition Dy (r : Rectangle) : Z := MaxY r - MinY r.

(** [Point{x, y}.In(r)] *)
Definition In (x y : Z) (r : Rectangle) : bool :=
  (MinX r <=? x) && (x <? MaxX r) && (MinY r <=? y) && (y <? MaxY r).

Record Paletted := mkPaletted {
  Bounds : Rectangle;
  Pix : Z → Z → Z;
}.

Definition NewPaletted (r : Rectangle) : Paletted :=
  mkPaletted r (λ _ _, 0).

(** [p.Set(x, y, c)], with [c] already the index of the colour in the
    palette. *)
Definition Set_ (p : Paletted) (x y : Z) (c : Z) : Paletted :=
  if In x y (Bounds p)
  then mkPaletted (Bounds p)
         (λ x' y', if (x' =? x) && (y' =? y) then c else Pix p x' y')
  else p.

Definition ColorIndexAt (p : Paletted) (x y : Z) : Z :=
  if In x y (Bounds p) then Pix p x y else 0.

End image.

(** The two colours the program draws with, and their index in the palette
    [{RGBA{255,255,255,255}, RGBA{0,0,0,255}}] of [Image]. *)
Inductive Color := White | Black.

Definition palette_index (c : Color) : Z :=
  match c with White => 0 | Black => 1 end.

(** [color.RGBA] and the palette of [Image]. *)
Record RGBA := mkRGBA { rgbaR : Z; rgbaG : Z; rgbaB : Z; rgbaA : Z }.

Definition palette : list RGBA :=
  [mkRGBA 255 255 255 255; mkRGBA 0 0 0 255].

(** [img.At(x, y)] on a raster with this palette: the entry of the palette
    at the index stored, the first entry outside the rectangle. *)
Definition Paletted_At (img : image.Paletted) (x y : Z) : result RGBA :=
  index palette (image.ColorIndexAt img x y).

(** The loops of [DrawRect] count with [int]s: they are the loops below
    when [x1] and [y1] are less than [MaxInt].  At [MaxInt] the test
    [j <= x1] of the code does not fail and the counter wraps. *)
Definition DrawRect (x0 y0 x1 y1 : Z) (col : Color) (img : image.Paletted)
  : result image.Paletted :=
  for_range y0 (y1 + 1) (λ i (img : image.Paletted),
    for_range x0 (x1 + 1) (λ j (img : image.Paletted),
      Ok (image.Set_ img j i (palette_index col))) img) img.

Definition Image (g : GameOfLife) (scale : Z) : result image.Paletted :=
  let img := image.NewPaletted
               (image.Rect 0 0 (width g * scale) (height g * scale)) in
  for_range 0 (height g) (λ i (img : image.Paletted),
    for_range 0 (width g) (λ j (img : image.Paletted),
      let px := j * scale in
      let py := i * scale in
      a ← At g j i;
      let col := if a : bool then Black else White in
      DrawRect px py (px + scale) (py + scale) col img) img) img.

(** ** The checksum of package [hash/crc64]

    [MakeTable] and the byte-at-a-time update of the library (its
    eight-bytes-at-a-time path computes the same value). *)

Module crc64.

Definition ISO : Z := 0xD800000000000000.

Definition mask64 : Z := 0xFFFFFFFFFFFFFFFF.

Definition table_entry (poly : Z) (i : Z) : Z :=
  fold_left (λ crc (_ : nat),
    if Z.land crc 1 =? 1 then Z.lxor (Z.shiftr crc 1) poly
    else Z.shiftr crc 1) (seq 0 8) i.

Definition MakeTable (poly : Z) : list Z :=
  map (λ i, table_entry poly (Z.of_nat i)) (seq 0 256).

Definition update (crc : Z) (tab : list Z) (p : list Z) : Z :=
  let crc := Z.lxor crc mask64 in
  let crc := fold_left (λ crc v,
    Z.lxor (nth (Z.to_nat (Z.lxor (Z.land crc 255) v)) tab 0)
           (Z.shiftr crc 8)) p crc in
  Z.lxor crc mask64.

Definition Checksum (data : list Z) (tab : list Z) : Z := update 0 tab data.

End crc64.

(** ** The animation generator (main.go) *)

Definition MaxIterations : Z := 2048.

Definition crcTable : list Z := Eval vm_compute in crc64.MakeTable crc64.ISO.

(** The variables of [GenerateGIF] that live across iterations. *)
Record gen_state := mkGen {
  game : GameOfLife;
  images : list image.Paletted;
  delays : list Z;
  dataBuffer : list Z;
  hash_sums : list Z;
}.

(** The nested loop that writes the cells into [dataBuffer], row by row. *)
Definition fill_buffer (g : GameOfLife) (dataBuffer : list Z) : result (list Z) :=
  st ← for_range 0 (GetHeight g) (λ i (st : list Z * Z),
    for_range 0 (GetWidth g) (λ j (st : list Z * Z),
      let '(buf, iter) := st in
      a ← At g j i;
      buf ← assign buf iter (if a : bool then 64 else 0);
      Ok (buf, iter + 1)) st) (dataBuffer, 0);
  Ok (fst st).

(** The search [for i := 0; i < len(hash_sums); i++] with its [break]. *)
Definition seen (hash_sums : list Z) (hs : Z) : bool :=
  existsb (λ h, h =? hs) hash_sums.

Inductive control (A : Type) : Type :=
| Continue (a : A)
| Break (a : A) (stable : bool).
Arguments Continue {A} a.
Arguments Break {A} a stable.

(** One iteration of the outer [for { ... }]. *)
Definition loop_body (scale maxIterations : Z) (st : gen_state)
  : result (control gen_state) :=
  img ← Image (game st) scale;
  let images := images st ++ [img] in
  let delays := delays st ++ [1] in
  game ← Update (game st);
  buf ← fill_buffer game (dataBuffer st);
  let hs := crc64.Checksum buf crcTable in
  let stable := seen (hash_sums st) hs in
  if stable || (Z.of_nat (length images) =? maxIterations)
  then Ok (Break (mkGen game images delays buf (hash_sums st)) stable)
  else Ok (Continue (mkGen game images delays buf (hash_sums st ++ [hs]))).

(** The outer loop has no bound of its own: [fuel] bounds the number of
    iterations the model runs, and [None] means the fuel ran out. *)
Fixpoint generate_loop (fuel : nat) (scale maxIterations : Z) (st : gen_state)
  : option (result (gen_state * bool)) :=
  match fuel with
  | O => None
  | S fuel =>
      match loop_body scale maxIterations st with
      | Panic => Some Panic
      | Ok (Break st stable) => Some (Ok (st, stable))
      | Ok (Continue st) => generate_loop fuel scale maxIterations st
      end
  end.

Definition initial_state (g : GameOfLife) : gen_state :=
  mkGen g [] [] (make 0 (GetWidth g * GetHeight g)) [].

(** [GenerateGIF] with the magnification and the iteration ceiling as
    parameters; the program fixes them to [4] and [MaxIterations]. *)
Definition Generate (fuel : nat) (g : GameOfLife) (scale maxIterations : Z)
  : option (result (gen_state * bool)) :=
  generate_loop fuel scale maxIterations (initial_state g).

Definition GenerateGIF (fuel : nat) (g : GameOfLife)
  : option (result (gen_state * bool)) :=
  Generate fuel g 4 MaxIterations.

(** The program reports no reason; the two disjuncts of its exit test
    [stable || len(images) == MaxIterations] are the two reasons of the
    design, [stable] being tested first. *)
Inductive TerminationReason := StableCycleDetected | IterationLimitReached.

Definition reason_of (stable : bool) : TerminationReason :=
  if stable then StableCycleDetected else IterationLimitReached.

(** ** The loaders and the text rendering (internal/gol.go)

    A Go string is its sequence of bytes, a [list ascii].  What a loader
    takes from outside the package is a parameter of its model: the file
    reader and the JSON decoder of [LoadFromJSON], the decoded picture of
    [LoadFromImage], [strings.ToLower] of [LoadFromText].  A [*GameOfLife]
    that may be [nil] is an [option]; a method call on [nil] panics.  The
    empty lines [LoadFromImage] prints are not part of its model. *)

Definition len {A} (s : list A) : Z := Z.of_nat (length s).

(** [game.Set(x, y, val)] with the error it returns dropped. *)
Definition Set_ignored (game : option GameOfLife) (x y : Z) (val : bool)
  : result (option GameOfLife) :=
  match game with
  | None => Panic
  | Some g => r ← Set_ g x y val; Ok (Some (fst r))
  end.

Record GameOfLifeSave := mkSave {
  Width : Z;
  Height : Z;
  Cells : list (list ascii);
}.

Definition LoadFromJSON
    (ReadFile : list ascii → list ascii * error)
    (Unmarshal : list ascii → GameOfLifeSave * error)
    (file : list ascii) : result (option GameOfLife * error) :=
  let '(data, err) := ReadFile file in
  if err is Some _ then Ok (None, err) else
  let '(sav, err) := Unmarshal data in
  if err is Some _ then Ok (None, err) else
  r ← NewGameOfLife (Width sav) (Height sav);
  let '(game, err) := r in
  if err is Some _ then Ok (None, err) else
  game ← for_range 0 (len (Cells sav)) (λ i (game : option GameOfLife),
    line ← index (Cells sav) i;
    for_range 0 (len line) (λ j (game : option GameOfLife),
      c ← index line j;
      if Ascii.eqb c " " then Set_ignored game j i false
      else Set_ignored game j i true) game) game;
  Ok (game, None).





(** [strings.Split(s, sep)] for a separator of one byte. *)
Fixpoint Split (s : list ascii) (sep : ascii) : list (list ascii) :=
  match s with
  | [] => [[]]
  | c :: s' =>
      if Ascii.eqb c sep then [] :: Split s' sep
      else match Split s' sep with
           | l :: ls => (c :: l) :: ls
           | [] => [[c]]
           end
  end.

Definition newline : ascii := "010"%char.

(** data is lines with data;
    key is the alive cell value (make sure key is lowercase) *)
Definition LoadFromText (ToLower : list ascii → list ascii)
    (data : list ascii) (key : ascii) : result (option GameOfLife * error) :=
  let lines := Split data newline in
  let height := len lines in
  width ← for_range 0 height (λ i (width : Z),
    l ← index lines i;
    let lineWidth := len l in
    Ok (if lineWidth >? width then lineWidth else width)) 0;
  r ← NewGameOfLife width height;
  let '(game, err) := r in
  if err is Some _ then Ok (None, err) else
  game ← for_range 0 height (λ i (game : option GameOfLife),
    l ← index lines i;
    let line := ToLower l in
    for_range 0 (len line) (λ j (game : option GameOfLife),
      c ← index line j;
      if Ascii.eqb c key then Set_ignored game j i true
      else Set_ignored game j i false) game) game;
  Ok (game, None).

(** [Text]: the [bytes.Buffer] is the bytes written so far. *)
Definition Text (g : GameOfLife) : result (list ascii) :=
  for_range 0 (height g) (λ i (buffer : list ascii),
    buffer ← for_range 0 (width g) (λ j (buffer : list ascii),
      a ← At g j i;
      if a : bool then Ok (buffer ++ ["o"%char])
      else Ok (buffer ++ [" "%char])) buffer;
    Ok (buffer ++ [newline])) [].

(** ** The terminal loop (main.go)

    [TerminalUpdate] does not return: [fuel] is the number of iterations
    the model runs, [out] the texts printed so far.  The pause between two
    iterations is not modelled. *)
Fixpoint TerminalUpdate (fuel : nat) (game : GameOfLife) (out : list (list ascii))
  : result (list (list ascii) * GameOfLife) :=
  match fuel with
  | O => Ok (out, game)
  | S fuel =>
      t ← Text game;
      game ← Update game;
      TerminalUpdate fuel game (out ++ [t])
  end.

(** * The vocabulary of the properties *)

(** ** Slices of slices of a fixed shape *)

(** The value at column [x] of row [y], dead when there is none. *)
Definition cell (m : list (list bool)) (x y : Z) : bool :=
  if (x <? 0) || (y <? 0) then false
  else match m !! Z.to_nat y with
       | Some row => match row !! Z.to_nat x with
                     | Some b => b
                     | None => false
                     end
       | None => false
       end.

(** [h] rows of [w] values each. *)
Definition shape {A} (w h : Z) (m : list (list A)) : Prop :=
  length m = Z.to_nat h ∧ Forall (λ row, length row = Z.to_nat w) m.

(** ** Grids: bounds, well-formedness, the current generation *)

Definition in_bounds (g : GameOfLife) (x y : Z) : Prop :=
  0 ≤ x < width g ∧ 0 ≤ y < height g.

Definition in_boundsb (g : GameOfLife) (x y : Z) : bool :=
  (0 <=? x) && (x <? width g) && (0 <=? y) && (y <? height g).

(** The cell of the current generation at [(x, y)], dead off the grid. *)
Definition alive (g : GameOfLife) (x y : Z) : bool :=
  in_boundsb g x y && cell (data g) x y.

(** Both buffers have [height] rows of [width] cells. *)
Record shaped (g : GameOfLife) : Prop := mkShaped {
  shaped_width : 0 < width g;
  shaped_height : 0 < height g;
  shaped_data : shape (width g) (height g) (data g);
  shaped_back : shape (width g) (height g) (back_buffer g);
}.

(** A well-formed grid: both buffers have the grid's dimensions and hold
    the same contents. *)
Record wf (g : GameOfLife) : Prop := mkWf {
  wf_shaped : shaped g;
  wf_sync : back_buffer g = data g;
}.

(** ** Neighbour counting *)

Definition b2z (b : bool) : Z := if b then 1 else 0.

(** The eight Moore neighbours of [(x, y)], read with [alive]. *)
Definition neighbors (g : GameOfLife) (x y : Z) : Z :=
  b2z (alive g (x - 1) (y - 1)) + b2z (alive g x (y - 1))
  + b2z (alive g (x + 1) (y - 1))
  + b2z (alive g (x - 1) y) + b2z (alive g (x + 1) y)
  + b2z (alive g (x - 1) (y + 1)) + b2z (alive g x (y + 1))
  + b2z (alive g (x + 1) (y + 1)).

(** ** The rule and the order of the update pass *)

(** The rule as [Update] applies it to a cell [a] with [cnt] neighbours. *)
Definition rule (a : bool) (cnt : Z) : bool :=
  if a then negb ((cnt <? 2) || (cnt >? 3)) else cnt =? 3.

Definition next_cell (g : GameOfLife) (x y : Z) : bool :=
  rule (alive g x y) (neighbors g x y).

(** [(x, y)] comes before [(j, i)] in row-major order. *)
Definition visited (i j x y : Z) : bool := (y <? i) || ((y =? i) && (x <? j)).

Ltac zbool :=
  repeat match goal with
    | |- context [?a <? ?b] => destruct (Z.ltb_spec a b)
    | |- context [?a =? ?b] => destruct (Z.eqb_spec a b)
    | |- context [?a <=? ?b] => destruct (Z.leb_spec a b)
    | |- context [?a >? ?b] => destruct (Z.gtb_spec a b)
    | |- context [?a >=? ?b] => destruct (Z.geb_spec a b)
    end;
  cbn [orb andb negb]; try reflexivity; try lia.

(** ** Rendering *)

(** The points [DrawRect] has set when it is about to set [(j, i)]. *)
Definition drawn (x0 y0 x1 i j X Y : Z) : bool :=
  (x0 <=? X) && (y0 <=? Y)
  && (((Y <? i) && (X <=? x1)) || ((Y =? i) && (X <? j))).

(** The closed rectangle from [(x0, y0)] to [(x1, y1)]. *)
Definition in_rect (x0 y0 x1 y1 X Y : Z) : bool :=
  (x0 <=? X) && (X <=? x1) && (y0 <=? Y) && (Y <=? y1).

(** The index [Image] draws the cell [(x, y)] with. *)
Definition colour (g : GameOfLife) (x y : Z) : Z :=
  palette_index (if alive g x y then Black else White).

Definition frame_bounds (g : GameOfLife) (scale : Z) : image.Rectangle :=
  image.Rect 0 0 (width g * scale) (height g * scale).

(** The raster of [Image g scale] is within the [int]s: the dimensions,
    the scale and the sides of the raster are [int]s, the coordinates
    [DrawRect] counts to are less than [MaxInt], and the number of pixels
    is one [image.NewPaletted] accepts. *)
Definition raster_fits (g : GameOfLife) (scale : Z) : Prop :=
  is_int (width g) ∧ is_int (height g) ∧ is_int scale ∧
  Z.abs (width g * scale) < MaxInt ∧ Z.abs (height g * scale) < MaxInt ∧
  Z.abs (width g * scale) * Z.abs (height g * scale) ≤ MaxInt.

(** ** The fingerprint of a generation *)

Definition cell_byte (b : bool) : Z := if b then 64 else 0.

(** The byte [fill_buffer] stores at position [n]. *)
Definition byte_at (g : GameOfLife) (n : Z) : Z :=
  cell_byte (alive g (n mod width g) (n / width g)).

(** The cells in row-major order, one byte each. *)
Definition bytes_of (g : GameOfLife) : list Z :=
  (λ n, byte_at g (Z.of_nat n)) <$> seq 0 (Z.to_nat (width g * height g)).

Definition fingerprint (g : GameOfLife) : Z :=
  crc64.Checksum (bytes_of g) crcTable.

(** ** Generations *)

(** The grid after one [Update]. *)
Definition next (g : GameOfLife) : GameOfLife :=
  match Update g with Ok g' => g' | Panic => g end.

Fixpoint generation (k : nat) (g : GameOfLife) : GameOfLife :=
  match k with
  | O => g
  | S k => next (generation k g)
  end.

(** The raster [Image] returns. *)
Definition frame (scale : Z) (g : GameOfLife) : image.Paletted :=
  match Image g scale with
  | Ok img => img
  | Panic => image.NewPaletted (frame_bounds g scale)
  end.

(** ** The loop of the animation generator *)

(** The frames of generations [0 .. k-1]. *)
Definition frames (scale : Z) (g : GameOfLife) (k : nat) : list image.Paletted :=
  (λ i, frame scale (generation i g)) <$> seq 0 k.

(** The fingerprints of generations [1 .. k], in this order. *)
Definition fingerprints (g : GameOfLife) (k : nat) : list Z :=
  (λ i, fingerprint (generation i g)) <$> seq 1 k.

Definition buffer_after (g : GameOfLife) (k : nat) : list Z :=
  match k with
  | O => make 0 (GetWidth g * GetHeight g)
  | S _ => bytes_of (generation k g)
  end.

(** The variables of [GenerateGIF] after [k] iterations that did not leave
    the loop. *)
Definition state_after (scale : Z) (g : GameOfLife) (k : nat) : gen_state :=
  mkGen (generation k g) (frames scale g k) (replicate k 1)
        (buffer_after g k) (fingerprints g k).

(** The variables when iteration [k + 1] leaves the loop. *)
Definition state_exit (scale : Z) (g : GameOfLife) (k : nat) : gen_state :=
  mkGen (generation (S k) g) (frames scale g (S k)) (replicate (S k) 1)
        (bytes_of (generation (S k) g)) (fingerprints g k).

(** Iteration [k + 1] finds the fingerprint of generation [k + 1] among
    those recorded. *)
Definition stable_at (g : GameOfLife) (k : nat) : bool :=
  seen (fingerprints g k) (fingerprint (generation (S k) g)).

(** Iteration [k + 1] leaves the loop. *)
Definition exits (maxIterations : Z) (g : GameOfLife) (k : nat) : bool :=
  stable_at g k || (Z.of_nat (S k) =? maxIterations).

(** ** Patterns *)

(** A grid shows the pattern [p] when its live cells are those of [p]. *)
Definition shows (g : GameOfLife) (p : Z → Z → bool) : Prop :=
  wf g ∧ ∀ x y, alive g x y = p x y.

Definition count (p : Z → Z → bool) (x y : Z) : Z :=
  b2z (p (x - 1) (y - 1)) + b2z (p x (y - 1)) + b2z (p (x + 1) (y - 1))
  + b2z (p (x - 1) y) + b2z (p (x + 1) y)
  + b2z (p (x - 1) (y + 1)) + b2z (p x (y + 1)) + b2z (p (x + 1) (y + 1)).

(** One generation of a pattern on the unbounded plane. *)
Definition life (p : Z → Z → bool) (x y : Z) : bool :=
  rule (p x y) (count p x y).

(** Decide the comparisons of the goal that the context settles. *)
Ltac zsettle :=
  repeat match goal with
    | |- context [?a <=? ?b] =>
        first [ replace (a <=? b) with true by (symmetry; apply Z.leb_le; lia)
              | replace (a <=? b) with false by (symmetry; apply Z.leb_gt; lia) ]
    | |- context [?a <? ?b] =>
        first [ replace (a <? b) with true by (symmetry; apply Z.ltb_lt; lia)
              | replace (a <? b) with false by (symmetry; apply Z.ltb_ge; lia) ]
    | |- context [?a >? ?b] =>
        first [ replace (a >? b) with true by (symmetry; apply Z.gtb_lt; lia)
              | replace (a >? b) with false
                  by (symmetry; rewrite Z.gtb_ltb; apply Z.ltb_ge; lia) ]
    | |- context [?a =? ?b] =>
        first [ replace (a =? b) with true by (symmetry; apply Z.eqb_eq; lia)
              | replace (a =? b) with false by (symmetry; apply Z.eqb_neq; lia) ]
    end.

(** The 2×2 block with top-left cell [(bx, by)]. *)
Definition block_at (bx by_ x y : Z) : bool :=
  (bx <=? x) && (x <=? bx + 1) && (by_ <=? y) && (y <=? by_ + 1).

(** The blinker with centre [(cx, cy)], horizontal and vertical. *)
Definition blinker_h (cx cy x y : Z) : bool :=
  (cx - 1 <=? x) && (x <=? cx + 1) && (y =? cy).

Definition blinker_v (cx cy x y : Z) : bool :=
  (x =? cx) && (cy - 1 <=? y) && (y <=? cy + 1).

Ltac by_position x c :=
  let H := fresh in
  assert (H : x ≤ c - 3 ∨ x = c - 2 ∨ x = c - 1 ∨ x = c ∨ x = c + 1
              ∨ x = c + 2 ∨ c + 3 ≤ x) by lia;
  destruct H as [H|[H|[H|[H|[H|[H|H]]]]]]; try subst x.

(** ** Concrete grids *)

(** A grid whose two buffers hold [rows]. *)
Definition grid_of (rows : list (list bool)) : GameOfLife :=
  mkGame (Z.of_nat (length (hd [] rows))) (Z.of_nat (length rows)) rows rows.

Definition wfb (g : GameOfLife) : bool :=
  (0 <? width g) && (0 <? height g)
  && Nat.eqb (length (data g)) (Z.to_nat (height g))
  && forallb (λ row : list bool, Nat.eqb (length row) (Z.to_nat (width g))) (data g)
  && bool_decide (back_buffer g = data g).

Definition blinker3 : GameOfLife :=
  grid_of [[false; false; false]; [true; true; true]; [false; false; false]].

Definition block4 : GameOfLife :=
  grid_of [[false; false; false; false]; [false; true; true; false];
           [false; true; true; false]; [false; false; false; false]].

Definition dot1 : GameOfLife := grid_of [[true]].

(** A column of 70 cells: alive at 0..5, 60..63 and 66..69. *)
Definition column70 : GameOfLife :=
  grid_of ((λ i : nat, [(i <? 6)%nat || ((60 <=? i)%nat && (i <? 64)%nat)
                        || (66 <=? i)%nat]) <$> seq 0 70).

(** Buffers that differ: the only cell is dead in [data] and alive in
    [back_buffer]. *)
Definition unsynced1 : GameOfLife := mkGame 1 1 [[false]] [[true]].

(** ** The neighbour count of the design *)

(** The eight offsets of the Moore neighbourhood. *)
Definition moore_offsets : list (Z * Z) :=
  [(-1, -1); (0, -1); (1, -1); (-1, 0); (1, 0); (-1, 1); (0, 1); (1, 1)].

(** The number of alive Moore neighbours of [(x, y)], an off-grid neighbour
    counting as dead: the neighbour count in the words of the design. *)
Definition moore_count (g : GameOfLife) (x y : Z) : Z :=
  Z.of_nat (length (List.filter (λ d : Z * Z, alive g (x + fst d) (y + snd d))
                                moore_offsets)).

(** ** Iterations of the loop *)

(** The state of the loop after [k] iterations, if none of them left it. *)
Fixpoint iterations (k : nat) (scale maxIterations : Z) (st : gen_state)
  : result (control gen_state) :=
  match k with
  | O => Ok (Continue st)
  | S k =>
      c ← iterations k scale maxIterations st;
      match c with
      | Continue st' => loop_body scale maxIterations st'
      | Break st' stable => Ok (Break st' stable)
      end
  end.

(** ** Loaders and text *)

(** The byte at column [x] of line [y], if there is one. *)
Definition char_at (lines : list (list ascii)) (x y : Z) : option ascii :=
  if (x <? 0) || (y <? 0) then None
  else lines !! Z.to_nat y ≫= (λ l, l !! Z.to_nat x).

(** Every byte of every line is set, in reading order, to what [val] makes
    of it. *)
Definition set_lines (val : ascii → bool) (lines : list (list ascii))
    (game : option GameOfLife) : result (option GameOfLife) :=
  for_range 0 (len lines) (λ i (game : option GameOfLife),
    line ← index lines i;
    for_range 0 (len line) (λ j (game : option GameOfLife),
      c ← index line j; Set_ignored game j i (val c)) game) game.

(** The cells a loader makes alive: inside the grid, where the line has a
    byte that [val] accepts. *)
Definition loaded (val : ascii → bool) (lines : list (list ascii))
    (w h x y : Z) : bool :=
  (0 <=? x) && (x <? w) && (0 <=? y) && (y <? h)
  && match char_at lines x y with Some c => val c | None => false end.

Definition max_len (lines : list (list ascii)) : Z :=
  foldr (λ l m, Z.max (len l) m) 0 lines.

Definition cell_char (b : bool) : ascii := if b then "o"%char else " "%char.

(** Row [i] of the grid as [Text] writes it, without the line feed. *)
Definition row_text (g : GameOfLife) (i : Z) : list ascii :=
  (λ j, cell_char (alive g (Z.of_nat j) i)) <$> seq 0 (Z.to_nat (width g)).

Definition text_of (g : GameOfLife) : list ascii :=
  concat ((λ i, row_text g (Z.of_nat i) ++ [newline])
            <$> seq 0 (Z.to_nat (height g))).

(** An ASCII capital letter. *)
Definition is_upper (c : ascii) : bool :=
  (65 <=? Z.of_N (N_of_ascii c)) && (Z.of_N (N_of_ascii c) <=? 90).

(** [ToLower] on bytes below 128, as [strings.ToLower] does on a string of
    such bytes. *)
Definition lower_ascii (c : ascii) : ascii :=
  if is_upper c then ascii_of_N (N_of_ascii c + 32) else c.

(** ** More patterns *)

Definition single_at (cx cy x y : Z) : bool := (x =? cx) && (y =? cy).

Definition nothing (x y : Z) : bool := false.


(** ** The checksum as a linear map

    The loop of [crc64.update] is linear over the bits of its state:
    these definitions serve to show that the two phases of a blinker
    never have the same checksum. *)

(** The step of [crc64.update] on the byte 0.  The step on a byte [v] is
    [shift8] of the state with [v] added to its low byte. *)
Definition shift8 (s : Z) : Z :=
  Z.lxor (nth (Z.to_nat (Z.land s 255)) crcTable 0) (Z.shiftr s 8).

(** [k] steps on bytes that are 0. *)
Definition spin (k : Z) (v : Z) : Z := N.iter (Z.to_N k) shift8 v.

(** The loop on the difference [e] of two inputs, from the difference [d]
    of the states. *)
Definition runlin (d : Z) (e : list Z) : Z :=
  fold_left (λ d x, shift8 (Z.lxor d x)) e d.

(** The states of the checksum. *)
Definition word (v : Z) : Prop := 0 ≤ v < 2 ^ 64.

(** A linear map on the states as the list of the images of the 64 unit
    states [2^i]. *)
Fixpoint mapply_from (i : Z) (M : list Z) (v : Z) : Z :=
  match M with
  | [] => 0
  | col :: M' =>
      Z.lxor (if Z.testbit v i then col else 0) (mapply_from (i + 1) M' v)
  end.

Definition mapply (M : list Z) (v : Z) : Z := mapply_from 0 M v.

Definition mat_mul (A B : list Z) : list Z := map (mapply A) B.

Definition mat_add (A B : list Z) : list Z := zip_with Z.lxor A B.

Fixpoint mat_pow (A : list Z) (p : positive) : list Z :=
  match p with
  | xH => A
  | xO p => let B := mat_pow A p in mat_mul B B
  | xI p => let B := mat_pow A p in mat_mul A (mat_mul B B)
  end.

Definition basis : list Z := map (λ i, 2 ^ Z.of_nat i) (seq 0 64).

Definition shift8_mat : list Z := Eval vm_compute in map shift8 basis.

Definition mat_eqb (A B : list Z) : bool :=
  (length A =? length B)%nat && forallb (λ ab, fst ab =? snd ab) (combine A B).

(** The number of non-zero states, and its prime factors. *)
Definition crc_order : Z := 18446744073709551615.

Definition crc_factors : list Z := [3; 5; 17; 257; 641; 65537; 6700417].

(** [p] has no divisor from 2 to its square root. *)
Definition trial_prime (p : Z) : bool :=
  (1 <? p)
  && forallb (λ d, negb (p mod Z.of_nat d =? 0))
             (seq 2 (Z.to_nat (Z.sqrt p))).

(** The map [spin (crc_order / q) + identity] has an inverse, its power
    [crc_order - 1]. *)
Definition no_fixed (q : Z) : bool :=
  match crc_order / q with
  | Z.pos k =>
      let M := mat_add (mat_pow shift8_mat k) basis in
      mat_eqb (mat_mul (mat_pow M (Z.to_pos (crc_order - 1))) M) basis
  | _ => false
  end.

(** The four cells in which the two phases of the blinker with centre
    [(cx, cy)] differ, as positions in the buffer of a grid of width [w]. *)
Definition blinker_diff (w cx cy : Z) (z : Z) : bool :=
  (z =? (cy - 1) * w + cx) || (z =? cy * w + cx - 1)
  || (z =? cy * w + cx + 1) || (z =? (cy + 1) * w + cx).

(** * Properties *)

(** ** The panic monad and the counted loops *)

Lemma bind_Ok {A B} (a : A) (f : A → result B) : (Ok a ≫= f) = f a.
Proof. reflexivity. Qed.

Lemma bind_inv {A B} (m : result A) (f : A → result B) (b : B) :
  m ≫= f = Ok b → ∃ a, m = Ok a ∧ f a = Ok b.
Proof. destruct m as [a|]; [eauto | discriminate]. Qed.

(** A loop invariant [P k s]: it holds before iteration [k]. *)
Lemma for_iter_inv {St} (P : Z → St → Prop) (body : Z → St → result St) :
  ∀ (n : nat) (i : Z) (s : St),
    P i s →
    (∀ k s, i ≤ k < i + Z.of_nat n → P k s →
            ∃ s', body k s = Ok s' ∧ P (k + 1) s') →
    ∃ s', for_iter n i body s = Ok s' ∧ P (i + Z.of_nat n) s'.
Proof.
  induction n as [|n IH]; intros i s Hi Hstep.
  - exists s. split; [reflexivity|]. now replace (i + Z.of_nat 0) with i by lia.
  - destruct (Hstep i s) as (s1 & Hb & H1); [lia | assumption |].
    destruct (IH (i + 1) s1 H1) as (s2 & Hr & H2).
    + intros k s0 Hk. apply Hstep. lia.
    + exists s2. split.
      * cbn [for_iter]. rewrite Hb. exact Hr.
      * now replace (i + Z.of_nat (S n)) with (i + 1 + Z.of_nat n) by lia.
Qed.

Lemma for_range_inv {St} (P : Z → St → Prop) (body : Z → St → result St)
      (lo hi : Z) (s : St) :
  lo ≤ hi →
  P lo s →
  (∀ k s, lo ≤ k < hi → P k s → ∃ s', body k s = Ok s' ∧ P (k + 1) s') →
  ∃ s', for_range lo hi body s = Ok s' ∧ P hi s'.
Proof.
  intros Hle H0 Hstep. unfold for_range.
  destruct (for_iter_inv P body (Z.to_nat (hi - lo)) lo s H0) as (s' & Hr & Hp).
  - intros k s0 Hk. apply Hstep. lia.
  - exists s'. split; [exact Hr|].
    now replace hi with (lo + Z.of_nat (Z.to_nat (hi - lo))) at 1 by lia.
Qed.

Lemma for_range_empty {St} (body : Z → St → result St) (lo hi : Z) (s : St) :
  hi ≤ lo → for_range lo hi body s = Ok s.
Proof.
  intros H. unfold for_range. now replace (Z.to_nat (hi - lo)) with O by lia.
Qed.

(** ** Slices of slices of a fixed shape *)

Lemma shape_row {A} (w h : Z) (m : list (list A)) (y : Z) :
  shape w h m → 0 ≤ y < h →
  ∃ row, m !! Z.to_nat y = Some row ∧ length row = Z.to_nat w.
Proof.
  intros [Hlen Hrows] Hy.
  destruct (lookup_lt_is_Some_2 m (Z.to_nat y)) as [row Hrow]; [lia|].
  exists row. split; [assumption|].
  rewrite Forall_forall in Hrows. apply Hrows.
  apply list_elem_of_lookup. eauto.
Qed.

Lemma index_ok {A} (s : list A) (i : Z) (a : A) :
  0 ≤ i → s !! Z.to_nat i = Some a → index s i = Ok a.
Proof.
  intros Hi Hs. unfold index.
  destruct (Z.ltb_spec i 0); [lia|]. now rewrite Hs.
Qed.

Lemma assign_ok {A} (s : list A) (i : Z) (v : A) :
  0 ≤ i < Z.of_nat (length s) → assign s i v = Ok (<[Z.to_nat i := v]> s).
Proof.
  intros Hi. unfold assign.
  destruct (Z.leb_spec 0 i); [|lia]. destruct (Z.ltb_spec i (Z.of_nat (length s))); [|lia].
  reflexivity.
Qed.

Lemma load2_ok (w h : Z) (m : list (list bool)) (x y : Z) :
  shape w h m → 0 ≤ x < w → 0 ≤ y < h → load2 m y x = Ok (cell m x y).
Proof.
  intros Hm Hx Hy.
  destruct (shape_row w h m y Hm Hy) as (row & Hrow & Hlen).
  destruct (lookup_lt_is_Some_2 row (Z.to_nat x)) as [b Hb]; [lia|].
  unfold load2. rewrite (index_ok m y row) by (assumption || lia).
  rewrite bind_Ok. rewrite (index_ok row x b) by (assumption || lia).
  unfold cell. destruct (Z.ltb_spec x 0); [lia|]. destruct (Z.ltb_spec y 0); [lia|].
  cbn [orb]. now rewrite Hrow, Hb.
Qed.

Lemma store2_ok (w h : Z) (m : list (list bool)) (x y : Z) (v : bool) :
  shape w h m → 0 ≤ x < w → 0 ≤ y < h →
  ∃ m', store2 m y x v = Ok m' ∧ shape w h m' ∧
        ∀ x' y', cell m' x' y' =
                 if (x' =? x) && (y' =? y) then v else cell m x' y'.
Proof.
  intros Hm Hx Hy.
  destruct (shape_row w h m y Hm Hy) as (row & Hrow & Hlen).
  exists (<[Z.to_nat y := <[Z.to_nat x := v]> row]> m).
  destruct Hm as [Hh Hrows].
  split; [|split].
  - unfold store2. rewrite (index_ok m y row) by (assumption || lia).
    rewrite bind_Ok, assign_ok by lia. rewrite bind_Ok, assign_ok by lia.
    reflexivity.
  - split.
    + now rewrite length_insert.
    + apply Forall_insert; [assumption|]. now rewrite length_insert.
  - intros x' y'. unfold cell.
    destruct (Z.ltb_spec x' 0) as [Hx'|Hx']; cbn [orb].
    { destruct (Z.eqb_spec x' x); [lia|]. reflexivity. }
    destruct (Z.ltb_spec y' 0) as [Hy'|Hy']; cbn [orb].
    { destruct (Z.eqb_spec y' y); [lia|]. now rewrite andb_false_r. }
    destruct (Z.eqb_spec y' y) as [->|Hne].
    + rewrite list_lookup_insert_eq by lia.
      destruct (Z.eqb_spec x' x) as [->|Hnx]; cbn [andb].
      * now rewrite list_lookup_insert_eq by lia.
      * rewrite list_lookup_insert_ne by lia. now rewrite Hrow.
    + rewrite andb_false_r. rewrite list_lookup_insert_ne by lia. reflexivity.
Qed.

(** Two slices of the same shape with the same cells are equal. *)
Lemma shape_ext (w h : Z) (m1 m2 : list (list bool)) :
  shape w h m1 → shape w h m2 →
  (∀ x y, 0 ≤ x < w → 0 ≤ y < h → cell m1 x y = cell m2 x y) →
  m1 = m2.
Proof.
  intros H1 H2 Hc. apply list_eq. intros i.
  destruct (decide (i < Z.to_nat h)%nat) as [Hi|Hi].
  - destruct (shape_row w h m1 (Z.of_nat i) H1) as (r1 & Hr1 & Hl1); [lia|].
    destruct (shape_row w h m2 (Z.of_nat i) H2) as (r2 & Hr2 & Hl2); [lia|].
    rewrite Nat2Z.id in Hr1, Hr2. rewrite Hr1, Hr2. f_equal.
    apply list_eq. intros j.
    destruct (decide (j < Z.to_nat w)%nat) as [Hj|Hj].
    + destruct (lookup_lt_is_Some_2 r1 j) as [b1 Hb1]; [lia|].
      destruct (lookup_lt_is_Some_2 r2 j) as [b2 Hb2]; [lia|].
      specialize (Hc (Z.of_nat j) (Z.of_nat i)). unfold cell in Hc.
      destruct (Z.ltb_spec (Z.of_nat j) 0); [lia|].
      destruct (Z.ltb_spec (Z.of_nat i) 0); [lia|].
      cbn [orb] in Hc. rewrite !Nat2Z.id, Hr1, Hr2, Hb1, Hb2 in Hc.
      rewrite Hb1, Hb2. f_equal. apply Hc; lia.
    + rewrite !lookup_ge_None_2 by lia. reflexivity.
  - destruct H1 as [H1 _], H2 as [H2 _].
    rewrite !lookup_ge_None_2 by lia. reflexivity.
Qed.

(** ** Grids: bounds, well-formedness, the current generation *)

Lemma in_boundsb_spec g x y : reflect (in_bounds g x y) (in_boundsb g x y).
Proof.
  unfold in_bounds, in_boundsb.
  destruct (Z.leb_spec0 0 x), (Z.ltb_spec0 x (width g)),
    (Z.leb_spec0 0 y), (Z.ltb_spec0 y (height g)); constructor; lia.
Qed.

Lemma At_outside g x y : ¬ in_bounds g x y → At g x y = Ok false.
Proof.
  intros H. unfold At, in_bounds in *.
  destruct (Z.ltb_spec x 0), (Z.geb_spec x (width g)); cbn [orb]; try reflexivity.
  destruct (Z.ltb_spec y 0), (Z.geb_spec y (height g)); cbn [orb]; try reflexivity.
  lia.
Qed.

Lemma At_inside g x y :
  shape (width g) (height g) (data g) → in_bounds g x y →
  At g x y = Ok (cell (data g) x y).
Proof.
  intros Hs [Hx Hy]. unfold At.
  destruct (Z.ltb_spec x 0), (Z.geb_spec x (width g)); try lia.
  destruct (Z.ltb_spec y 0), (Z.geb_spec y (height g)); try lia.
  cbn [orb]. now apply load2_ok with (w := width g) (h := height g).
Qed.

Lemma At_alive g x y :
  shape (width g) (height g) (data g) → At g x y = Ok (alive g x y).
Proof.
  intros Hs. unfold alive. destruct (in_boundsb_spec g x y) as [Hin|Hout].
  - now rewrite At_inside.
  - now rewrite At_outside.
Qed.

Lemma alive_inside g x y : in_bounds g x y → alive g x y = cell (data g) x y.
Proof.
  intros H. unfold alive. now destruct (in_boundsb_spec g x y).
Qed.

(** [At] reads the dimensions and the current buffer only. *)
Lemma alive_ext g1 g2 x y :
  width g1 = width g2 → height g1 = height g2 → data g1 = data g2 →
  alive g1 x y = alive g2 x y.
Proof. intros Hw Hh Hd. unfold alive, in_boundsb. now rewrite Hw, Hh, Hd. Qed.

(** Well-formed grids of the same dimensions with the same cells are the
    same grid. *)
Lemma wf_ext g1 g2 :
  wf g1 → wf g2 → width g1 = width g2 → height g1 = height g2 →
  (∀ x y, in_bounds g1 x y → cell (data g1) x y = cell (data g2) x y) →
  g1 = g2.
Proof.
  intros [[_ _ Hd1 _] Hs1] [[_ _ Hd2 _] Hs2] Hw Hh Hc.
  destruct g1 as [w1 h1 d1 b1], g2 as [w2 h2 d2 b2]; cbn in *. subst.
  assert (d1 = d2) as ->; [|reflexivity].
  apply (shape_ext w2 h2); try assumption.
  intros x y Hx Hy. apply Hc. now split.
Qed.

(** ** Construction *)

Lemma NewGameOfLife_invalid w h :
  w ≤ 0 ∨ h ≤ 0 → NewGameOfLife w h = Ok (None, Some "invalid size"%string).
Proof.
  intros H. unfold NewGameOfLife.
  destruct (Z.leb_spec w 0), (Z.leb_spec h 0); cbn [orb]; try reflexivity. lia.
Qed.

Lemma cell_all_rows (m : list (list bool)) (h : Z) (row : list bool) :
  length m = Z.to_nat h →
  (∀ k, (k < Z.to_nat h)%nat → m !! k = Some row) →
  m = replicate (Z.to_nat h) row.
Proof.
  intros Hlen Hrows. apply list_eq. intros k.
  destruct (decide (k < Z.to_nat h)%nat).
  - rewrite Hrows by assumption. symmetry. now apply lookup_replicate_2.
  - rewrite lookup_ge_None_2 by lia. symmetry. apply lookup_ge_None_2.
    rewrite length_replicate. lia.
Qed.

Lemma NewGameOfLife_valid w h :
  0 < w → 0 < h →
  NewGameOfLife w h =
    Ok (Some (mkGame w h (make (make false w) h) (make (make false w) h)), None).
Proof.
  intros Hw Hh. unfold NewGameOfLife.
  destruct (Z.leb_spec w 0), (Z.leb_spec h 0); try lia. cbn [orb].
  set (row := make false w).
  destruct (for_range_inv
    (λ i (game : GameOfLife),
       width game = w ∧ height game = h ∧
       length (data game) = Z.to_nat h ∧ length (back_buffer game) = Z.to_nat h ∧
       ∀ k, (k < Z.to_nat i)%nat →
            data game !! k = Some row ∧ back_buffer game !! k = Some row)
    (λ i (game : GameOfLife),
       d ← assign (data game) i row;
       b ← assign (back_buffer game) i row;
       Ok (mkGame w h d b))
    0 h (mkGame w h (make [] h) (make [] h))) as (g & Hrun & Hg).
  - lia.
  - cbn. unfold make. rewrite !length_replicate. repeat split; lia.
  - intros k s Hk (Hsw & Hsh & Hld & Hlb & Hrows).
    eexists. split.
    { rewrite !assign_ok by lia. reflexivity. }
    cbn. rewrite !length_insert. repeat split; try assumption.
    + destruct (decide (k0 = Z.to_nat k)) as [->|Hne].
      * apply list_lookup_insert_eq. lia.
      * rewrite list_lookup_insert_ne by lia. apply Hrows. lia.
    + destruct (decide (k0 = Z.to_nat k)) as [->|Hne].
      * apply list_lookup_insert_eq. lia.
      * rewrite list_lookup_insert_ne by lia. apply Hrows. lia.
  - rewrite Hrun, bind_Ok. destruct Hg as (Hgw & Hgh & Hld & Hlb & Hrows).
    destruct g as [gw gh d b]; cbn in *. subst gw gh.
    rewrite (cell_all_rows d h row), (cell_all_rows b h row);
      try assumption; try (intros; now apply Hrows).
    reflexivity.
Qed.

Lemma cell_make w h x y : cell (make (make false w) h) x y = false.
Proof.
  unfold cell, make. destruct ((x <? 0) || (y <? 0)); [reflexivity|].
  destruct (replicate (Z.to_nat h) _ !! Z.to_nat y) as [row|] eqn:Hrow;
    [|reflexivity].
  apply lookup_replicate in Hrow as [-> _].
  destruct (replicate (Z.to_nat w) false !! Z.to_nat x) as [b|] eqn:Hb;
    [|reflexivity].
  now apply lookup_replicate in Hb as [-> _].
Qed.

Lemma shape_make {A} (a : A) w h : shape w h (make (make a w) h).
Proof.
  unfold make. split.
  - apply length_replicate.
  - apply Forall_replicate, length_replicate.
Qed.

Lemma wf_new w h :
  0 < w → 0 < h →
  wf (mkGame w h (make (make false w) h) (make (make false w) h)).
Proof.
  intros Hw Hh. split; [split|]; cbn; try assumption; try apply shape_make.
  reflexivity.
Qed.

(** ** [Set] *)

Lemma Set_outside g x y val :
  ¬ in_bounds g x y → Set_ g x y val = Ok (g, Some "out of bounds"%string).
Proof.
  intros H. unfold Set_, in_bounds in *.
  destruct (Z.ltb_spec x 0), (Z.geb_spec x (width g)); cbn [orb]; try reflexivity.
  destruct (Z.ltb_spec y 0), (Z.geb_spec y (height g)); cbn [orb]; try reflexivity.
  lia.
Qed.

Lemma Set_inside g x y val :
  shaped g → in_bounds g x y →
  ∃ g', Set_ g x y val = Ok (g', None) ∧
        width g' = width g ∧ height g' = height g ∧ shaped g' ∧
        (∀ x' y', cell (data g') x' y' =
                  if (x' =? x) && (y' =? y) then val else cell (data g) x' y') ∧
        (∀ x' y', cell (back_buffer g') x' y' =
                  if (x' =? x) && (y' =? y) then val
                  else cell (back_buffer g) x' y').
Proof.
  intros [Hw Hh Hd Hb] [Hx Hy].
  destruct (store2_ok _ _ _ x y val Hd Hx Hy) as (d' & Hsd & Hd' & Hcd).
  destruct (store2_ok _ _ _ x y val Hb Hx Hy) as (b' & Hsb & Hb' & Hcb).
  exists (mkGame (width g) (height g) d' b'). unfold Set_.
  destruct (Z.ltb_spec x 0), (Z.geb_spec x (width g)); try lia.
  destruct (Z.ltb_spec y 0), (Z.geb_spec y (height g)); try lia.
  cbn [orb]. rewrite Hsd, bind_Ok, Hsb, bind_Ok. cbn.
  split; [reflexivity|]. do 2 (split; [reflexivity|]).
  split; [now split|]. now split.
Qed.

Lemma Set_wf g x y val g' e :
  wf g → Set_ g x y val = Ok (g', e) → wf g'.
Proof.
  intros [Hs Hsync] Hset.
  destruct (in_boundsb_spec g x y) as [Hin|Hout].
  - destruct (Set_inside g x y val Hs Hin)
      as (g1 & Hg1 & Hw1 & Hh1 & Hs1 & Hcd & Hcb).
    rewrite Hg1 in Hset. injection Hset as <- <-.
    split; [assumption|].
    destruct Hs1 as [? ? Hd1 Hb1].
    apply (shape_ext (width g1) (height g1)); try assumption.
    intros x' y' _ _. rewrite Hcd, Hcb, Hsync. reflexivity.
  - rewrite Set_outside in Hset by assumption. injection Hset as <- <-.
    now split.
Qed.

(** ** Neighbour counting *)

Lemma neighbors_ext g1 g2 x y :
  width g1 = width g2 → height g1 = height g2 → data g1 = data g2 →
  neighbors g1 x y = neighbors g2 x y.
Proof.
  intros Hw Hh Hd. unfold neighbors.
  now rewrite !(alive_ext g1 g2) by assumption.
Qed.

Lemma neighbors_range g x y : 0 ≤ neighbors g x y ≤ 8.
Proof. unfold neighbors, b2z. repeat destruct (alive _ _ _); lia. Qed.

Lemma CellValue_ok g x y :
  shape (width g) (height g) (data g) →
  CellValue g x y = Ok (neighbors g x y).
Proof.
  intros Hs. unfold CellValue, for_range.
  change (Z.to_nat (3 - 0)) with 3%nat. cbn [for_iter].
  change (0 + 1) with 1. change (1 + 1) with 2.
  change (0 =? 1) with false. change (1 =? 1) with true.
  change (2 =? 1) with false. cbn [andb].
  rewrite !At_alive by assumption. rewrite !bind_Ok.
  replace (0 + x - 1) with (x - 1) by lia. replace (1 + x - 1) with x by lia.
  replace (2 + x - 1) with (x + 1) by lia.
  replace (0 + y - 1) with (y - 1) by lia. replace (1 + y - 1) with y by lia.
  replace (2 + y - 1) with (y + 1) by lia.
  unfold neighbors, b2z. f_equal.
  repeat destruct (alive _ _ _); reflexivity.
Qed.

(** ** [Flush] and [Update] *)

Lemma visited_row_end i w x y :
  0 ≤ x < w → visited i w x y = visited (i + 1) 0 x y.
Proof. intros Hx. unfold visited. zbool. Qed.

Lemma visited_next i j x y :
  visited i (j + 1) x y = ((x =? j) && (y =? i)) || visited i j x y.
Proof. unfold visited. zbool. Qed.

Lemma visited_none x y : 0 ≤ x → 0 ≤ y → visited 0 0 x y = false.
Proof. intros Hx Hy. unfold visited. zbool. Qed.

Lemma visited_all h x y : y < h → visited h 0 x y = true.
Proof. intros Hy. unfold visited. zbool. Qed.

Lemma Flush_ok g :
  shaped g →
  ∃ g', Flush g = Ok g' ∧ width g' = width g ∧ height g' = height g ∧
        back_buffer g' = back_buffer g ∧ data g' = back_buffer g.
Proof.
  intros [Hw Hh Hd Hb].
  set (Inv := λ (i j : Z) (s : GameOfLife),
    width s = width g ∧ height s = height g ∧
    back_buffer s = back_buffer g ∧
    shape (width g) (height g) (data s) ∧
    ∀ x y, in_bounds g x y →
           cell (data s) x y =
           if visited i j x y then cell (back_buffer g) x y
           else cell (data g) x y).
  unfold Flush.
  match goal with
  | |- context [for_range 0 (height g) ?body g] =>
      destruct (for_range_inv (λ i s, Inv i 0 s) body 0 (height g) g)
        as (g' & Hrun & Hg')
  end.
  - lia.
  - repeat split; try assumption; try apply Hd.
    intros x y [Hx Hy]. now rewrite visited_none by lia.
  - intros i s Hi HI.
    destruct (for_range_inv (λ j s, Inv i j s)
      (λ j (g : GameOfLife),
         v ← load2 (back_buffer g) i j;
         d ← store2 (data g) i j v;
         Ok (with_data g d)) 0 (width g) s) as (s' & Hrow & Hs').
    + lia.
    + exact HI.
    + intros j t Hj (Htw & Hth & Htb & Htd & Htc).
      destruct (store2_ok _ _ (data t) j i (cell (back_buffer g) j i) Htd)
        as (d' & Hst & Hd' & Hcd'); [lia | lia |].
      exists (with_data t d'). split.
      * rewrite Htb, (load2_ok (width g) (height g)) by (assumption || lia).
        rewrite bind_Ok, Hst. reflexivity.
      * repeat split; try assumption; try apply Hd'.
        intros x y Hxy. cbn. rewrite Hcd', visited_next.
        destruct ((x =? j) && (y =? i)) eqn:E; cbn [orb].
        -- apply andb_true_iff in E as [->%Z.eqb_eq ->%Z.eqb_eq]. reflexivity.
        -- now apply Htc.
    + exists s'. destruct HI as (Hsw & _). rewrite Hsw. split; [exact Hrow|].
      destruct Hs' as (Hw' & Hh' & Hb' & Hd' & Hc).
      repeat split; try assumption; try apply Hd'.
      intros x y Hxy.
      rewrite <- (visited_row_end i (width g)) by apply Hxy. now apply Hc.
  - exists g'. split; [exact Hrun|].
    destruct Hg' as (Hgw & Hgh & Hgb & Hgd & Hgc).
    repeat split; try assumption.
    apply (shape_ext (width g) (height g)); try assumption.
    intros x y Hx Hy. rewrite Hgc by (split; assumption).
    now rewrite visited_all by lia.
Qed.

Lemma rule_keep a cnt :
  (if a : bool then (cnt <? 2) || (cnt >? 3) else cnt =? 3) = false →
  rule a cnt = a.
Proof. unfold rule. destruct a; intros ->; reflexivity. Qed.

Lemma rule_flip a cnt :
  (if a : bool then (cnt <? 2) || (cnt >? 3) else cnt =? 3) = true →
  rule a cnt = negb a.
Proof. unfold rule. destruct a; intros ->; reflexivity. Qed.

(** The update pass and the flush, on a well-formed grid: every cell of
    the result is the rule applied to the grid before the call. *)
Lemma Update_ok g :
  wf g →
  ∃ g', Update g = Ok g' ∧ wf g' ∧
        width g' = width g ∧ height g' = height g ∧
        ∀ x y, in_bounds g x y → cell (data g') x y = next_cell g x y.
Proof.
  intros [[Hw Hh Hd Hb] Hsync].
  set (Inv := λ (i j : Z) (s : GameOfLife),
    width s = width g ∧ height s = height g ∧ data s = data g ∧
    shape (width g) (height g) (back_buffer s) ∧
    ∀ x y, in_bounds g x y →
           cell (back_buffer s) x y =
           if visited i j x y then next_cell g x y else cell (data g) x y).
  unfold Update.
  match goal with
  | |- context [for_range 0 (height g) ?body g] =>
      destruct (for_range_inv (λ i s, Inv i 0 s) body 0 (height g) g)
        as (g1 & Hrun & Hg1)
  end.
  - lia.
  - repeat split; try assumption; try apply Hb.
    intros x y [Hx Hy]. rewrite visited_none by lia. now rewrite Hsync.
  - intros i s Hi HI.
    match goal with
    | |- context [for_range 0 (width s) ?body s] =>
        destruct (for_range_inv (λ j s, Inv i j s) body 0 (width g) s)
          as (s' & Hrow & Hs')
    end.
    + lia.
    + exact HI.
    + intros j t Hj (Htw & Hth & Htd & Htb & Htc).
      assert (Hshape : shape (width t) (height t) (data t))
        by now rewrite Htw, Hth, Htd.
      rewrite CellValue_ok, bind_Ok, At_alive, bind_Ok by assumption.
      rewrite (neighbors_ext t g), (alive_ext t g) by assumption.
      assert (Hin : in_bounds g j i) by (split; lia).
      assert (Hcur : cell (back_buffer t) j i = alive g j i).
      { rewrite Htc by assumption. unfold visited.
        rewrite Z.ltb_irrefl, Z.ltb_irrefl, andb_false_r. cbn [orb].
        now rewrite alive_inside. }
      destruct (if alive g j i then (neighbors g j i <? 2) || (neighbors g j i >? 3)
                else neighbors g j i =? 3) eqn:Hchg.
      * (* the cell changes: the staging buffer is written *)
        destruct (store2_ok _ _ (back_buffer t) j i (negb (alive g j i)) Htb)
          as (b' & Hst & Hb' & Hcb'); [lia | lia |].
        exists (with_back_buffer t b'). split.
        { destruct (alive g j i); rewrite Hchg; cbn [negb] in Hst;
            rewrite Hst; reflexivity. }
        repeat split; try assumption; try apply Hb'.
        intros x y Hxy. cbn. rewrite Hcb', visited_next.
        destruct ((x =? j) && (y =? i)) eqn:E; cbn [orb].
        -- apply andb_true_iff in E as [->%Z.eqb_eq ->%Z.eqb_eq].
           unfold next_cell. now rewrite rule_flip.
        -- now apply Htc.
      * (* the cell keeps its value: the staging buffer is left as it is *)
        exists t. split.
        { destruct (alive g j i); rewrite Hchg; reflexivity. }
        repeat split; try assumption; try apply Htb.
        intros x y Hxy. rewrite visited_next.
        destruct ((x =? j) && (y =? i)) eqn:E; cbn [orb].
        -- apply andb_true_iff in E as [->%Z.eqb_eq ->%Z.eqb_eq].
           unfold next_cell. now rewrite rule_keep.
        -- now apply Htc.
    + exists s'. destruct HI as (Hsw & _). rewrite Hsw. split; [exact Hrow|].
      destruct Hs' as (? & ? & ? & Hsb' & Hc). repeat split; try assumption;
        try apply Hsb'.
      intros x y Hxy.
      rewrite <- (visited_row_end i (width g)) by apply Hxy. now apply Hc.
  - rewrite Hrun, bind_Ok.
    destruct Hg1 as (Hgw & Hgh & Hgd & Hgb & Hgc).
    assert (Hs1 : shaped g1).
    { split; rewrite ?Hgw, ?Hgh, ?Hgd; assumption. }
    destruct (Flush_ok g1 Hs1) as (g' & Hfl & Hfw & Hfh & Hfb & Hfd).
    exists g'. split; [exact Hfl|].
    split; [|split; [congruence|split; [congruence|]]].
    + split; [|congruence].
      split; rewrite ?Hfw, ?Hfh, ?Hfd, ?Hfb, ?Hgw, ?Hgh; assumption.
    + intros x y Hxy. rewrite Hfd, Hgc by assumption.
      destruct Hxy as [_ Hy]. now rewrite visited_all by lia.
Qed.

(** ** Rendering *)

Lemma for_range_inv_max {St} (P : Z → St → Prop) (body : Z → St → result St)
      (lo hi : Z) (s : St) :
  P lo s →
  (∀ k s, lo ≤ k < hi → P k s → ∃ s', body k s = Ok s' ∧ P (k + 1) s') →
  ∃ s', for_range lo hi body s = Ok s' ∧ P (Z.max lo hi) s'.
Proof.
  intros H0 Hstep. destruct (Z.le_gt_cases lo hi) as [Hle|Hgt].
  - rewrite Z.max_r by assumption. now apply for_range_inv.
  - rewrite Z.max_l by lia. exists s. split; [|assumption].
    apply for_range_empty. lia.
Qed.

Lemma Bounds_Set p x y c : image.Bounds (image.Set_ p x y c) = image.Bounds p.
Proof. unfold image.Set_. now destruct (image.In x y (image.Bounds p)). Qed.

Lemma ColorIndexAt_Set p x y c X Y :
  image.ColorIndexAt (image.Set_ p x y c) X Y =
  if image.In X Y (image.Bounds p) && ((X =? x) && (Y =? y)) then c
  else image.ColorIndexAt p X Y.
Proof.
  unfold image.ColorIndexAt. rewrite Bounds_Set. unfold image.Set_.
  destruct (image.In X Y (image.Bounds p)) eqn:HXY; cbn [andb].
  - destruct (image.In x y (image.Bounds p)) eqn:Hxy; cbn.
    + reflexivity.
    + destruct (Z.eqb_spec X x) as [->|]; [|reflexivity].
      destruct (Z.eqb_spec Y y) as [->|]; [|reflexivity]. congruence.
  - reflexivity.
Qed.

Lemma DrawRect_ok x0 y0 x1 y1 col img :
  ∃ img', DrawRect x0 y0 x1 y1 col img = Ok img' ∧
          image.Bounds img' = image.Bounds img ∧
          ∀ X Y, image.ColorIndexAt img' X Y =
                 if image.In X Y (image.Bounds img) && in_rect x0 y0 x1 y1 X Y
                 then palette_index col
                 else image.ColorIndexAt img X Y.
Proof.
  set (Inv := λ (i j : Z) (s : image.Paletted),
    image.Bounds s = image.Bounds img ∧
    ∀ X Y, image.ColorIndexAt s X Y =
           if image.In X Y (image.Bounds img) && drawn x0 y0 x1 i j X Y
           then palette_index col
           else image.ColorIndexAt img X Y).
  unfold DrawRect.
  match goal with
  | |- context [for_range y0 (y1 + 1) ?body img] =>
      destruct (for_range_inv_max (λ i s, Inv i x0 s) body y0 (y1 + 1) img)
        as (img' & Hrun & Hb & Hc)
  end.
  - split; [reflexivity|]. intros X Y.
    replace (drawn x0 y0 x1 y0 x0 X Y) with false by (unfold drawn; zbool).
    now rewrite andb_false_r.
  - intros i s Hi HI.
    match goal with
    | |- context [for_range x0 (x1 + 1) ?body s] =>
        destruct (for_range_inv_max (λ j s, Inv i j s) body x0 (x1 + 1) s)
          as (s' & Hrow & Hsb & Hsc)
    end.
    + exact HI.
    + intros j t Hj [Htb Htc]. eexists. split; [reflexivity|]. split.
      * now rewrite Bounds_Set.
      * intros X Y. rewrite ColorIndexAt_Set, Htb, Htc.
        destruct (image.In X Y (image.Bounds img)); cbn [andb]; [|reflexivity].
        replace (drawn x0 y0 x1 i (j + 1) X Y)
          with (((X =? j) && (Y =? i)) || drawn x0 y0 x1 i j X Y)
          by (unfold drawn; zbool).
        now destruct ((X =? j) && (Y =? i)).
    + exists s'. split; [exact Hrow|]. split; [assumption|].
      intros X Y. rewrite Hsc.
      replace (drawn x0 y0 x1 (i + 1) x0 X Y)
        with (drawn x0 y0 x1 i (Z.max x0 (x1 + 1)) X Y)
        by (unfold drawn; zbool).
      reflexivity.
  - exists img'. split; [exact Hrun|]. split; [assumption|].
    intros X Y. rewrite Hc.
    replace (drawn x0 y0 x1 (Z.max y0 (y1 + 1)) x0 X Y)
      with (in_rect x0 y0 x1 y1 X Y) by (unfold drawn, in_rect; zbool).
    reflexivity.
Qed.

(** The two loops of [Image] with an invariant [Q i j] that holds when the
    cell [(j, i)] is about to be drawn. *)
Lemma Image_inv g scale (Q : Z → Z → image.Paletted → Prop) :
  shaped g →
  Q 0 0 (image.NewPaletted (frame_bounds g scale)) →
  (∀ i j img img',
     0 ≤ i < height g → 0 ≤ j < width g →
     image.Bounds img = frame_bounds g scale → Q i j img →
     image.Bounds img' = image.Bounds img →
     (∀ X Y, image.ColorIndexAt img' X Y =
             if image.In X Y (image.Bounds img)
                && in_rect (j * scale) (i * scale)
                           (j * scale + scale) (i * scale + scale) X Y
             then colour g j i
             else image.ColorIndexAt img X Y) →
     Q i (j + 1) img') →
  (∀ i img, 0 ≤ i < height g → Q i (width g) img → Q (i + 1) 0 img) →
  ∃ img, Image g scale = Ok img ∧
         image.Bounds img = frame_bounds g scale ∧ Q (height g) 0 img.
Proof.
  intros [Hw Hh Hd _] H0 Hcell Hrow. unfold Image. fold (frame_bounds g scale).
  match goal with
  | |- context [for_range 0 (height g) ?body ?img0] =>
      destruct (for_range_inv
        (λ i s, image.Bounds s = frame_bounds g scale ∧ Q i 0 s)
        body 0 (height g) img0) as (img & Hrun & Hb & Hq)
  end.
  - lia.
  - split; [reflexivity | exact H0].
  - intros i s Hi [Hsb Hsq].
    match goal with
    | |- context [for_range 0 (width g) ?body s] =>
        destruct (for_range_inv
          (λ j s, image.Bounds s = frame_bounds g scale ∧ Q i j s)
          body 0 (width g) s) as (s' & Hrun & Hb & Hq)
    end.
    + lia.
    + now split.
    + intros j t Hj [Htb Htq]. rewrite At_alive, bind_Ok by assumption.
      destruct (DrawRect_ok (j * scale) (i * scale) (j * scale + scale)
                  (i * scale + scale)
                  (if alive g j i then Black else White) t)
        as (t' & Hdr & Hb' & Hc').
      exists t'. split; [exact Hdr|]. split; [congruence|].
      now apply (Hcell i j t t').
    + exists s'. split; [exact Hrun|]. split; [assumption|]. now apply Hrow.
  - exists img. now split.
Qed.

Lemma frame_bounds_pos g scale :
  0 < width g → 0 < height g → 0 < scale →
  frame_bounds g scale = image.mkRect 0 0 (width g * scale) (height g * scale).
Proof.
  intros Hw Hh Hs. unfold frame_bounds, image.Rect.
  destruct (Z.gtb_spec 0 (width g * scale)); [nia|].
  destruct (Z.gtb_spec 0 (height g * scale)); [nia|]. reflexivity.
Qed.

Lemma div_cell_range s X j : 0 < s → X / s = j → j * s ≤ X < j * s + s.
Proof.
  intros Hs <-. pose proof (Z.div_mod X s ltac:(lia)).
  pose proof (Z.mod_pos_bound X s Hs). nia.
Qed.

Lemma div_cell_lower s X j : 0 < s → j * s ≤ X → j ≤ X / s.
Proof. intros Hs H. apply Z.div_le_lower_bound; lia. Qed.

Lemma div_cell_upper s X w : 0 < s → 0 ≤ X < w * s → 0 ≤ X / s < w.
Proof.
  intros Hs H. split.
  - apply Z.div_pos; lia.
  - apply Z.div_lt_upper_bound; lia.
Qed.

(** For a positive scale every pixel shows the cell it lies in. *)
Lemma Image_pixels g scale :
  shaped g → 0 < scale →
  ∃ img, Image g scale = Ok img ∧
         image.Bounds img =
           image.mkRect 0 0 (width g * scale) (height g * scale) ∧
         ∀ X Y, 0 ≤ X < width g * scale → 0 ≤ Y < height g * scale →
                image.ColorIndexAt img X Y = colour g (X / scale) (Y / scale).
Proof.
  intros Hg Hs. pose proof Hg as [Hw Hh _ _].
  destruct (Image_inv g scale
    (λ i j img, ∀ X Y, 0 ≤ X < width g * scale → 0 ≤ Y < height g * scale →
                       visited i j (X / scale) (Y / scale) = true →
                       image.ColorIndexAt img X Y =
                       colour g (X / scale) (Y / scale)) Hg)
    as (img & Hrun & Hb & Hq).
  - intros X Y HX HY Hv.
    pose proof (div_cell_upper scale X (width g) Hs HX).
    pose proof (div_cell_upper scale Y (height g) Hs HY).
    rewrite visited_none in Hv by lia. discriminate.
  - intros i j img img' Hi Hj Hib Hq Hb' Hc' X Y HX HY Hv.
    rewrite Hc', Hib, frame_bounds_pos by assumption.
    rewrite visited_next in Hv.
    destruct ((X / scale =? j) && (Y / scale =? i)) eqn:E.
    + apply andb_true_iff in E as [EX%Z.eqb_eq EY%Z.eqb_eq].
      pose proof (div_cell_range scale X j Hs EX).
      pose proof (div_cell_range scale Y i Hs EY).
      rewrite EX, EY.
      replace (image.In X Y _) with true by (unfold image.In; cbn; zbool).
      replace (in_rect _ _ _ _ X Y) with true by (unfold in_rect; zbool).
      reflexivity.
    + cbn [orb] in Hv.
      replace (in_rect _ _ _ _ X Y) with false.
      * rewrite andb_false_r. now apply Hq.
      * symmetry. apply not_true_is_false. intros Hr. unfold in_rect in Hr.
        apply andb_true_iff in Hr as [Hr Hr4].
        apply andb_true_iff in Hr as [Hr Hr3].
        apply andb_true_iff in Hr as [Hr1 Hr2].
        apply Z.leb_le in Hr1, Hr3.
        pose proof (div_cell_lower scale X j Hs Hr1).
        pose proof (div_cell_lower scale Y i Hs Hr3).
        unfold visited in Hv. revert Hv. zbool; discriminate.
  - intros i img Hi Hq X Y HX HY Hv. apply Hq; try assumption.
    pose proof (div_cell_upper scale X (width g) Hs HX).
    now rewrite (visited_row_end i (width g)).
  - exists img. split; [exact Hrun|]. split.
    + now rewrite Hb, frame_bounds_pos.
    + intros X Y HX HY. apply Hq; try assumption.
      pose proof (div_cell_upper scale Y (height g) Hs HY).
      apply visited_all. lia.
Qed.

(** [Image] has no failure: for any scale it returns a raster; for a scale
    that is not positive nothing is drawn into it. *)
Lemma Image_blank g scale :
  shaped g → scale ≤ 0 →
  ∃ img, Image g scale = Ok img ∧
         image.Bounds img = frame_bounds g scale ∧
         ∀ X Y, image.ColorIndexAt img X Y = 0.
Proof.
  intros Hg Hs.
  destruct (Image_inv g scale
    (λ _ _ img, ∀ X Y, image.ColorIndexAt img X Y = 0) Hg)
    as (img & Hrun & Hb & Hq).
  - intros X Y. unfold image.ColorIndexAt, image.NewPaletted. cbn.
    now destruct (image.In X Y _).
  - intros i j img img' Hi Hj Hib Hq Hb' Hc' X Y.
    rewrite Hc', Hq, Hib.
    destruct (Z.eq_dec scale 0) as [->|Hne].
    + replace (image.In X Y (frame_bounds g 0)) with false; [reflexivity|].
      unfold frame_bounds, image.Rect, image.In. rewrite !Z.mul_0_r. cbn.
      zbool.
    + replace (in_rect _ _ _ _ X Y) with false by (unfold in_rect; zbool).
      now rewrite andb_false_r.
  - intros i img _ Hq. exact Hq.
  - exists img. now split.
Qed.

Lemma Image_total g scale : shaped g → ∃ img, Image g scale = Ok img.
Proof.
  intros Hg. destruct (Z.lt_ge_cases 0 scale) as [Hs|Hs].
  - destruct (Image_pixels g scale Hg Hs) as (img & H & _). eauto.
  - destruct (Image_blank g scale Hg Hs) as (img & H & _). eauto.
Qed.

(** ** The fingerprint of a generation *)

Lemma bytes_of_lookup g (n : nat) :
  (n < Z.to_nat (width g * height g))%nat →
  bytes_of g !! n = Some (byte_at g (Z.of_nat n)).
Proof.
  intros Hn. unfold bytes_of. rewrite list_lookup_fmap.
  now rewrite lookup_seq_lt.
Qed.

Lemma length_bytes_of g : length (bytes_of g) = Z.to_nat (width g * height g).
Proof. unfold bytes_of. now rewrite length_fmap, length_seq. Qed.

Lemma row_major_index w i j :
  0 ≤ j < w → (i * w + j) mod w = j ∧ (i * w + j) / w = i.
Proof.
  intros Hj. split.
  - symmetry. apply (Z.mod_unique _ _ i); lia.
  - symmetry. apply (Z.div_unique _ _ _ j); lia.
Qed.

Lemma fill_buffer_ok g buf :
  shaped g → length buf = Z.to_nat (width g * height g) →
  fill_buffer g buf = Ok (bytes_of g).
Proof.
  intros [Hw Hh Hd _] Hlen.
  set (Inv := λ (i j : Z) (st : list Z * Z),
    snd st = i * width g + j ∧
    length (fst st) = Z.to_nat (width g * height g) ∧
    ∀ n : nat, Z.of_nat n < snd st → fst st !! n = Some (byte_at g (Z.of_nat n))).
  unfold fill_buffer, GetHeight, GetWidth.
  match goal with
  | |- context [for_range 0 (height g) ?body ?st0] =>
      destruct (for_range_inv (λ i st, Inv i 0 st) body 0 (height g) st0)
        as ([b it] & Hrun & Hit & Hbl & Hbc)
  end.
  - lia.
  - split; [cbn; lia|]. split; [assumption|]. cbn. intros n Hn. lia.
  - intros i st Hi HI.
    match goal with
    | |- context [for_range 0 (width g) ?body st] =>
        destruct (for_range_inv (λ j st, Inv i j st) body 0 (width g) st)
          as (st' & Hrow & Hst')
    end.
    + lia.
    + exact HI.
    + intros j [b it] Hj (Hit & Hbl & Hbc). cbn [fst snd] in *.
      rewrite At_alive, bind_Ok by assumption.
      assert (0 ≤ it < width g * height g) by nia.
      rewrite assign_ok, bind_Ok by lia.
      eexists. split; [reflexivity|]. unfold Inv. cbn [fst snd].
      split; [lia|]. split; [now rewrite length_insert|].
      intros n Hn. destruct (decide (n = Z.to_nat it)) as [->|Hne].
      * rewrite list_lookup_insert_eq by lia. f_equal.
        unfold byte_at. rewrite Z2Nat.id, Hit by lia.
        now destruct (row_major_index (width g) i j Hj) as [-> ->].
      * rewrite list_lookup_insert_ne by lia. apply Hbc. lia.
    + exists st'. split; [exact Hrow|].
      destruct Hst' as (Hit & Hbl & Hbc). split; [lia|]. now split.
  - rewrite Hrun, bind_Ok. cbn [fst snd] in *. f_equal.
    apply list_eq. intros n.
    destruct (decide (n < Z.to_nat (width g * height g))%nat) as [Hn|Hn].
    + rewrite bytes_of_lookup by assumption. apply Hbc. nia.
    + rewrite !lookup_ge_None_2; [reflexivity | |]; rewrite ?length_bytes_of; lia.
Qed.

(** ** Generations *)

Lemma Update_next g : wf g → Update g = Ok (next g).
Proof.
  intros Hg. destruct (Update_ok g Hg) as (g' & Hu & _).
  unfold next. now rewrite Hu.
Qed.

Lemma next_spec g :
  wf g →
  wf (next g) ∧ width (next g) = width g ∧ height (next g) = height g ∧
  ∀ x y, in_bounds g x y → cell (data (next g)) x y = next_cell g x y.
Proof.
  intros Hg. destruct (Update_ok g Hg) as (g' & Hu & H).
  unfold next. now rewrite Hu.
Qed.

Lemma generation_wf g k : wf g → wf (generation k g).
Proof.
  intros Hg. induction k as [|k IH]; [assumption|].
  cbn [generation]. now apply next_spec.
Qed.

Lemma generation_dims g k :
  wf g → width (generation k g) = width g ∧ height (generation k g) = height g.
Proof.
  intros Hg. induction k as [|k [IHw IHh]]; [now split|].
  cbn [generation].
  destruct (next_spec (generation k g) (generation_wf g k Hg)) as (_ & Hw & Hh & _).
  split; congruence.
Qed.

Lemma Image_frame g scale : wf g → Image g scale = Ok (frame scale g).
Proof.
  intros [Hg _]. destruct (Image_total g scale Hg) as (img & Hi).
  unfold frame. now rewrite Hi.
Qed.

(** ** The loop of the animation generator *)

Lemma frames_S scale g k :
  frames scale g (S k) = frames scale g k ++ [frame scale (generation k g)].
Proof. unfold frames. now rewrite seq_S, fmap_app. Qed.

Lemma fingerprints_S g k :
  fingerprints g (S k) =
  fingerprints g k ++ [fingerprint (generation (S k) g)].
Proof. unfold fingerprints. now rewrite seq_S, fmap_app. Qed.

Lemma length_frames scale g k : length (frames scale g k) = k.
Proof. unfold frames. now rewrite length_fmap, length_seq. Qed.

Lemma replicate_snoc {A} (a : A) k : replicate (S k) a = replicate k a ++ [a].
Proof. induction k as [|k IH]; [reflexivity|]. cbn in *. now rewrite <- IH. Qed.

Lemma length_buffer_after g k :
  wf g →
  length (buffer_after g k) =
  Z.to_nat (width (generation k g) * height (generation k g)).
Proof.
  intros Hg. destruct k as [|k].
  - cbn. unfold make, GetWidth, GetHeight. apply length_replicate.
  - cbn [buffer_after]. apply length_bytes_of.
Qed.

Lemma seen_spec l hs : seen l hs = true ↔ hs ∈ l.
Proof.
  unfold seen. rewrite existsb_exists. split.
  - intros (h & Hin & ->%Z.eqb_eq). now apply list_elem_of_In.
  - intros Hin. exists hs. split; [now apply list_elem_of_In | apply Z.eqb_refl].
Qed.

(** One iteration from the state reached after [k] iterations. *)
Lemma loop_body_after scale maxIterations g k :
  wf g →
  loop_body scale maxIterations (state_after scale g k) =
  Ok (if exits maxIterations g k
      then Break (state_exit scale g k) (stable_at g k)
      else Continue (state_after scale g (S k))).
Proof.
  intros Hg. pose proof (generation_wf g k Hg) as Hk.
  pose proof (generation_wf g (S k) Hg) as [HSk _].
  unfold loop_body, state_after, state_exit.
  cbn [game images delays dataBuffer hash_sums].
  rewrite (Image_frame _ _ Hk), bind_Ok, (Update_next _ Hk), bind_Ok.
  change (next (generation k g)) with (generation (S k) g).
  rewrite fill_buffer_ok; [|assumption|].
  2:{ rewrite length_buffer_after by assumption.
      destruct (generation_dims g k Hg) as [-> ->].
      now destruct (generation_dims g (S k) Hg) as [-> ->]. }
  rewrite bind_Ok. fold (fingerprint (generation (S k) g)).
  rewrite frames_S, replicate_snoc, fingerprints_S.
  rewrite length_app, length_frames. cbn [length].
  unfold exits, stable_at. replace (Z.of_nat (k + 1)) with (Z.of_nat (S k)) by lia.
  now destruct (seen _ _ || _).
Qed.

Lemma state_after_0 scale g : state_after scale g 0 = initial_state g.
Proof. reflexivity. Qed.

(** If iteration [m + 1] is the first to leave the loop, the loop ends
    there, with [m + 1] frames. *)
Lemma generate_loop_run scale maxIterations g (m : nat) :
  wf g →
  (∀ i, (i < m)%nat → exits maxIterations g i = false) →
  exits maxIterations g m = true →
  ∀ (d k fuel : nat),
    (k + d = m)%nat → (d < fuel)%nat →
    generate_loop fuel scale maxIterations (state_after scale g k) =
    Some (Ok (state_exit scale g m, stable_at g m)).
Proof.
  intros Hg Hbefore Hm. induction d as [|d IH]; intros k fuel Hk Hfuel.
  - destruct fuel as [|fuel]; [lia|]. cbn [generate_loop].
    rewrite loop_body_after by assumption.
    replace k with m by lia. now rewrite Hm.
  - destruct fuel as [|fuel]; [lia|]. cbn [generate_loop].
    rewrite loop_body_after, Hbefore by (assumption || lia).
    apply IH; lia.
Qed.

Lemma Generate_run scale maxIterations g (m fuel : nat) :
  wf g →
  (∀ i, (i < m)%nat → exits maxIterations g i = false) →
  exits maxIterations g m = true →
  (m < fuel)%nat →
  Generate fuel g scale maxIterations =
  Some (Ok (state_exit scale g m, stable_at g m)).
Proof.
  intros Hg Hbefore Hm Hfuel. unfold Generate. rewrite <- (state_after_0 scale).
  now apply (generate_loop_run scale maxIterations g m Hg Hbefore Hm m 0%nat).
Qed.

(** More fuel does not change a result. *)
Lemma generate_loop_fuel scale maxIterations :
  ∀ fuel fuel' st r,
    generate_loop fuel scale maxIterations st = Some r →
    (fuel ≤ fuel')%nat →
    generate_loop fuel' scale maxIterations st = Some r.
Proof.
  induction fuel as [|fuel IH]; intros fuel' st r Hr Hle; [discriminate|].
  destruct fuel' as [|fuel']; [lia|]. cbn [generate_loop] in *.
  destruct (loop_body scale maxIterations st) as [[st'|st' b]|];
    try assumption.
  apply IH; [assumption | lia].
Qed.

Lemma Generate_deterministic scale maxIterations g fuel fuel' r r' :
  Generate fuel g scale maxIterations = Some r →
  Generate fuel' g scale maxIterations = Some r' →
  r = r'.
Proof.
  unfold Generate. intros H H'.
  destruct (Nat.le_ge_cases fuel fuel') as [Hle|Hle].
  - rewrite (generate_loop_fuel _ _ _ _ _ _ H Hle) in H'. congruence.
  - rewrite (generate_loop_fuel _ _ _ _ _ _ H' Hle) in H. congruence.
Qed.

(** The converse: a run that ends did so at the first iteration that
    leaves the loop. *)
Lemma generate_loop_inv scale maxIterations g :
  wf g →
  ∀ (fuel k : nat) r,
    generate_loop fuel scale maxIterations (state_after scale g k) = Some r →
    (∀ i, (i < k)%nat → exits maxIterations g i = false) →
    ∃ m, (∀ i, (i < m)%nat → exits maxIterations g i = false) ∧
         exits maxIterations g m = true ∧
         r = Ok (state_exit scale g m, stable_at g m).
Proof.
  intros Hg. induction fuel as [|fuel IH]; intros k r Hr Hbefore; [discriminate|].
  cbn [generate_loop] in Hr. rewrite loop_body_after in Hr by assumption.
  destruct (exits maxIterations g k) eqn:Hk.
  - exists k. split; [assumption|]. split; [assumption|]. congruence.
  - apply (IH (S k) r Hr). intros i Hi.
    destruct (decide (i = k)) as [->|]; [assumption|]. apply Hbefore. lia.
Qed.

Lemma Generate_inv scale maxIterations g fuel r :
  wf g →
  Generate fuel g scale maxIterations = Some r →
  ∃ m, (∀ i, (i < m)%nat → exits maxIterations g i = false) ∧
       exits maxIterations g m = true ∧
       r = Ok (state_exit scale g m, stable_at g m).
Proof.
  intros Hg Hr. unfold Generate in Hr. rewrite <- (state_after_0 scale) in Hr.
  apply (generate_loop_inv scale maxIterations g Hg fuel 0%nat r Hr).
  intros i Hi. lia.
Qed.

Lemma fingerprints_elem g k i :
  (1 ≤ i ≤ k)%nat → fingerprint (generation i g) ∈ fingerprints g k.
Proof.
  intros Hi. unfold fingerprints. apply list_elem_of_fmap.
  exists i. split; [reflexivity|]. apply elem_of_seq. lia.
Qed.

Lemma fingerprints_elem_inv g k hs :
  hs ∈ fingerprints g k →
  ∃ i, (1 ≤ i ≤ k)%nat ∧ hs = fingerprint (generation i g).
Proof.
  unfold fingerprints. intros (i & -> & Hi%elem_of_seq)%list_elem_of_fmap.
  exists i. split; [lia | reflexivity].
Qed.

Lemma stable_at_spec g k :
  stable_at g k = true ↔
  ∃ i, (1 ≤ i ≤ k)%nat ∧
       fingerprint (generation i g) = fingerprint (generation (S k) g).
Proof.
  unfold stable_at. rewrite seen_spec. split.
  - intros (i & Hi & Heq)%fingerprints_elem_inv. eauto.
  - intros (i & Hi & <-). now apply fingerprints_elem.
Qed.

Lemma Generate_same_result scale maxIterations g fuel fuel' st st' b b' :
  Generate fuel g scale maxIterations = Some (Ok (st, b)) →
  Generate fuel' g scale maxIterations = Some (Ok (st', b')) →
  st = st' ∧ b = b'.
Proof.
  intros H H'. pose proof (Generate_deterministic _ _ _ _ _ _ _ H H') as Heq.
  injection Heq as -> ->. now split.
Qed.

(** ** Patterns *)

Lemma shows_next g p p' :
  shows g p →
  (∀ x y, life p x y = p' x y) →
  (∀ x y, p' x y = true → in_bounds g x y) →
  shows (next g) p'.
Proof.
  intros [Hg Hp] Hlife Hfit.
  destruct (next_spec g Hg) as (Hn & Hw & Hh & Hc).
  split; [assumption|]. intros x y.
  destruct (in_boundsb_spec g x y) as [Hin|Hout].
  - rewrite alive_inside by (unfold in_bounds; now rewrite Hw, Hh).
    rewrite Hc by assumption. rewrite <- Hlife.
    unfold next_cell, life, neighbors, count. now rewrite !Hp.
  - unfold alive.
    replace (in_boundsb (next g) x y) with false.
    + destruct (p' x y) eqn:E; [|reflexivity]. now apply Hfit in E.
    + symmetry. apply not_true_is_false. intros E.
      destruct (in_boundsb_spec (next g) x y) as [Hin|]; [|discriminate].
      apply Hout. unfold in_bounds in *. now rewrite <- Hw, <- Hh.
Qed.

Lemma shows_unique g1 g2 p :
  shows g1 p → shows g2 p →
  width g1 = width g2 → height g1 = height g2 → g1 = g2.
Proof.
  intros [H1 Hp1] [H2 Hp2] Hw Hh. apply wf_ext; try assumption.
  intros x y Hin. rewrite <- (alive_inside g1), <- (alive_inside g2).
  - now rewrite Hp1, Hp2.
  - unfold in_bounds in *. now rewrite <- Hw, <- Hh.
  - assumption.
Qed.

Lemma life_block bx by_ x y : life (block_at bx by_) x y = block_at bx by_ x y.
Proof.
  unfold life, count, rule, block_at.
  by_position x bx; by_position y by_; zsettle; reflexivity.
Qed.

Lemma life_blinker_h cx cy x y :
  life (blinker_h cx cy) x y = blinker_v cx cy x y.
Proof.
  unfold life, count, rule, blinker_h, blinker_v.
  by_position x cx; by_position y cy; zsettle; reflexivity.
Qed.

Lemma life_blinker_v cx cy x y :
  life (blinker_v cx cy) x y = blinker_h cx cy x y.
Proof.
  unfold life, count, rule, blinker_h, blinker_v.
  by_position x cx; by_position y cy; zsettle; reflexivity.
Qed.

Lemma shows_inside g p x y : shows g p → p x y = true → in_bounds g x y.
Proof.
  intros [_ Hp] E. rewrite <- Hp in E. unfold alive in E.
  apply andb_true_iff in E as [E _].
  now destruct (in_boundsb_spec g x y).
Qed.

(** A block is a still life of [Update]. *)
Lemma block_still g bx by_ : shows g (block_at bx by_) → next g = g.
Proof.
  intros Hg. pose proof Hg as [Hwf _].
  destruct (next_spec g Hwf) as (_ & Hw & Hh & _).
  apply (shows_unique _ _ (block_at bx by_)); try assumption.
  apply (shows_next g (block_at bx by_)); [assumption | apply life_block |].
  intros x y. now apply shows_inside.
Qed.

(** A horizontal blinker with room above and below turns vertical, and
    back. *)
Lemma blinker_turns g cx cy :
  shows g (blinker_h cx cy) → 1 ≤ cy → cy + 1 < height g →
  shows (next g) (blinker_v cx cy) ∧ next (next g) = g.
Proof.
  intros Hg Hlo Hhi. pose proof Hg as [Hwf _].
  destruct (next_spec g Hwf) as (Hwf1 & Hw & Hh & _).
  assert (Hc : in_bounds g cx cy).
  { apply (shows_inside g _ cx cy Hg). unfold blinker_h. zsettle. reflexivity. }
  assert (H1 : shows (next g) (blinker_v cx cy)).
  { apply (shows_next g (blinker_h cx cy)); [assumption | apply life_blinker_h |].
    intros x y E. unfold blinker_v in E.
    apply andb_true_iff in E as [E E3]. apply andb_true_iff in E as [E1 E2].
    apply Z.eqb_eq in E1. apply Z.leb_le in E2, E3.
    destruct Hc. unfold in_bounds. lia. }
  split; [assumption|].
  destruct (next_spec (next g) Hwf1) as (_ & Hw2 & Hh2 & _).
  apply (shows_unique _ _ (blinker_h cx cy)); try assumption; try congruence.
  apply (shows_next (next g) (blinker_v cx cy));
    [assumption | apply life_blinker_v |].
  intros x y E. apply (shows_inside g _ x y Hg) in E.
  unfold in_bounds in *. now rewrite Hw, Hh.
Qed.

(** ** Concrete grids *)

Lemma wfb_wf g : wfb g = true → wf g.
Proof.
  unfold wfb. intros H.
  apply andb_true_iff in H as [H Hs]. apply andb_true_iff in H as [H Hrows].
  apply andb_true_iff in H as [H Hlen]. apply andb_true_iff in H as [Hw Hh].
  apply Z.ltb_lt in Hw, Hh. apply Nat.eqb_eq in Hlen.
  apply bool_decide_eq_true_1 in Hs.
  assert (Hd : shape (width g) (height g) (data g)).
  { split; [assumption|]. apply Forall_forall. intros row Hin.
    rewrite forallb_forall in Hrows. apply Nat.eqb_eq, Hrows.
    now apply list_elem_of_In. }
  split; [|assumption]. split; try assumption. now rewrite Hs.
Qed.

Lemma block4_wf : wf block4.
Proof. apply wfb_wf. reflexivity. Qed.

Lemma blinker3_wf : wf blinker3.
Proof. apply wfb_wf. reflexivity. Qed.

Lemma column70_wf : wf column70.
Proof. apply wfb_wf. vm_compute. reflexivity. Qed.

Lemma block4_shows : shows block4 (block_at 1 1).
Proof.
  split; [exact block4_wf|].
  intros x y. unfold alive, in_boundsb, block_at.
  assert (Hx : x < 0 ∨ x = 0 ∨ x = 1 ∨ x = 2 ∨ x = 3 ∨ 4 ≤ x) by lia.
  assert (Hy : y < 0 ∨ y = 0 ∨ y = 1 ∨ y = 2 ∨ y = 3 ∨ 4 ≤ y) by lia.
  cbn [width height block4 grid_of length hd Z.of_nat Pos.of_succ_nat
       Pos.succ].
  destruct Hx as [Hx|[Hx|[Hx|[Hx|[Hx|Hx]]]]], Hy as [Hy|[Hy|[Hy|[Hy|[Hy|Hy]]]]];
    try subst x; try subst y; zsettle; reflexivity.
Qed.

Lemma blinker3_shows : shows blinker3 (blinker_h 1 1).
Proof.
  split; [exact blinker3_wf|].
  intros x y. unfold alive, in_boundsb, blinker_h.
  assert (Hx : x < 0 ∨ x = 0 ∨ x = 1 ∨ x = 2 ∨ 3 ≤ x) by lia.
  assert (Hy : y < 0 ∨ y = 0 ∨ y = 1 ∨ y = 2 ∨ 3 ≤ y) by lia.
  cbn [width height blinker3 grid_of length hd Z.of_nat Pos.of_succ_nat
       Pos.succ].
  destruct Hx as [Hx|[Hx|[Hx|[Hx|Hx]]]], Hy as [Hy|[Hy|[Hy|[Hy|Hy]]]];
    try subst x; try subst y; zsettle; reflexivity.
Qed.

(** The runs of the generator on these grids. *)
Lemma block4_run :
  Generate 2 block4 4 2 =
  Some (Ok (state_exit 4 block4 1, stable_at block4 1)).
Proof.
  apply Generate_run; [exact block4_wf | | vm_compute; reflexivity | lia].
  intros i Hi. destruct i as [|i]; [vm_compute; reflexivity | lia].
Qed.

Lemma blinker3_run :
  Generate 3 blinker3 4 4 =
  Some (Ok (state_exit 4 blinker3 2, stable_at blinker3 2)).
Proof.
  apply Generate_run; [exact blinker3_wf | | vm_compute; reflexivity | lia].
  intros i Hi.
  destruct i as [|[|i]]; [vm_compute; reflexivity | vm_compute; reflexivity | lia].
Qed.

(** The same grids under [GenerateGIF] itself, with its scale 4 and its
    ceiling of 2048 iterations. *)
Lemma block4_program_run :
  GenerateGIF 2 block4 =
  Some (Ok (state_exit 4 block4 1, stable_at block4 1)).
Proof.
  apply Generate_run; [exact block4_wf | | vm_compute; reflexivity | lia].
  intros i Hi. destruct i as [|i]; [vm_compute; reflexivity | lia].
Qed.

Lemma blinker3_program_run :
  GenerateGIF 3 blinker3 =
  Some (Ok (state_exit 4 blinker3 2, stable_at blinker3 2)).
Proof.
  apply Generate_run; [exact blinker3_wf | | vm_compute; reflexivity | lia].
  intros i Hi.
  destruct i as [|[|i]]; [vm_compute; reflexivity | vm_compute; reflexivity | lia].
Qed.

Lemma column70_program_run :
  GenerateGIF 2 column70 =
  Some (Ok (state_exit 4 column70 1, stable_at column70 1)).
Proof.
  apply Generate_run; [exact column70_wf | | vm_compute; reflexivity | lia].
  intros i Hi. destruct i as [|i]; [vm_compute; reflexivity | lia].
Qed.

Lemma block4_stable : stable_at block4 1 = true.
Proof. vm_compute. reflexivity. Qed.

Lemma blinker3_stable : stable_at blinker3 2 = true.
Proof. vm_compute. reflexivity. Qed.

Lemma column70_stable : stable_at column70 1 = true.
Proof. vm_compute. reflexivity. Qed.

(** The check value of CRC-64/GO-ISO, the checksum of "123456789". *)
Example crc64_check :
  crc64.Checksum [49; 50; 51; 52; 53; 54; 55; 56; 57] crcTable
  = 0xb90956c775a41001.
Proof. vm_compute. reflexivity. Qed.

Lemma column70_run :
  Generate 2 column70 4 3 =
  Some (Ok (state_exit 4 column70 1, stable_at column70 1)).
Proof.
  apply Generate_run; [exact column70_wf | | vm_compute; reflexivity | lia].
  intros i Hi. destruct i as [|i]; [vm_compute; reflexivity | lia].
Qed.

(** ** The checksum is linear

    Bits. *)

Lemma lxor_swap a b c d :
  Z.lxor (Z.lxor a b) (Z.lxor c d) = Z.lxor (Z.lxor a c) (Z.lxor b d).
Proof.
  apply Z.bits_inj'. intros n _. rewrite !Z.lxor_spec.
  now destruct (Z.testbit a n), (Z.testbit b n), (Z.testbit c n),
               (Z.testbit d n).
Qed.

Lemma land_lxor a b m :
  Z.land (Z.lxor a b) m = Z.lxor (Z.land a m) (Z.land b m).
Proof.
  apply Z.bits_inj'. intros n _.
  rewrite !Z.lxor_spec, !Z.land_spec, !Z.lxor_spec.
  now destruct (Z.testbit a n), (Z.testbit b n), (Z.testbit m n).
Qed.

Lemma word_lxor a b : word a → word b → word (Z.lxor a b).
Proof.
  unfold word. intros [Ha Ha'] [Hb Hb'].
  assert (Hnn : 0 ≤ Z.lxor a b) by (apply Z.lxor_nonneg; tauto).
  split; [assumption|].
  destruct (Z.eq_dec (Z.lxor a b) 0) as [->|Hne]; [reflexivity|].
  apply Z.log2_lt_pow2; [lia|].
  pose proof (Z.log2_lxor a b Ha Hb) as Hl.
  assert (Z.log2 a < 64).
  { destruct (Z.eq_dec a 0) as [->|]; [reflexivity|].
    apply Z.log2_lt_pow2; lia. }
  assert (Z.log2 b < 64).
  { destruct (Z.eq_dec b 0) as [->|]; [reflexivity|].
    apply Z.log2_lt_pow2; lia. }
  lia.
Qed.

Lemma land_255 s : Z.land s 255 = s mod 256.
Proof. change 255 with (Z.ones 8). now rewrite Z.land_ones by lia. Qed.

Lemma land_255_range s : 0 ≤ Z.land s 255 < 256.
Proof. rewrite land_255. apply Z.mod_pos_bound. lia. Qed.

(** ** The table *)

Lemma crcTable_linear i j :
  0 ≤ i < 256 → 0 ≤ j < 256 →
  nth (Z.to_nat (Z.lxor i j)) crcTable 0 =
  Z.lxor (nth (Z.to_nat i) crcTable 0) (nth (Z.to_nat j) crcTable 0).
Proof.
  intros Hi Hj.
  assert (Hall : forallb (λ a : nat, forallb (λ b : nat,
            nth (Z.to_nat (Z.lxor (Z.of_nat a) (Z.of_nat b))) crcTable 0 =?
            Z.lxor (nth a crcTable 0) (nth b crcTable 0))
            (seq 0 256)) (seq 0 256) = true) by (vm_compute; reflexivity).
  rewrite forallb_forall in Hall.
  specialize (Hall (Z.to_nat i)). rewrite forallb_forall in Hall.
  specialize (Hall ltac:(apply in_seq; lia) (Z.to_nat j) ltac:(apply in_seq; lia)).
  rewrite !Z2Nat.id in Hall by lia. now apply Z.eqb_eq.
Qed.

Lemma crcTable_word i : 0 ≤ i < 256 → word (nth (Z.to_nat i) crcTable 0).
Proof.
  intros Hi.
  assert (Hall : forallb (λ a : nat,
            (0 <=? nth a crcTable 0) && (nth a crcTable 0 <? 2 ^ 64))
            (seq 0 256) = true) by (vm_compute; reflexivity).
  rewrite forallb_forall in Hall.
  specialize (Hall (Z.to_nat i) ltac:(apply in_seq; lia)).
  apply andb_true_iff in Hall as [H1 H2]. unfold word. lia.
Qed.

(** ** The step *)

Lemma shift8_lxor a b : shift8 (Z.lxor a b) = Z.lxor (shift8 a) (shift8 b).
Proof.
  unfold shift8. rewrite land_lxor, Z.shiftr_lxor.
  rewrite crcTable_linear by apply land_255_range. apply lxor_swap.
Qed.

Lemma shift8_0 : shift8 0 = 0.
Proof. reflexivity. Qed.

Lemma shift8_word v : word v → word (shift8 v).
Proof.
  intros Hv. unfold shift8. apply word_lxor.
  - apply crcTable_word, land_255_range.
  - unfold word in *. rewrite Z.shiftr_div_pow2 by lia.
    change (2 ^ 8) with 256. change (2 ^ 64) with 18446744073709551616 in *.
    split; [apply Z.div_pos; lia|]. apply Z.div_lt_upper_bound; lia.
Qed.

(** The step of [crc64.update] on a byte. *)
Lemma update_step crc v :
  0 ≤ v < 256 →
  Z.lxor (nth (Z.to_nat (Z.lxor (Z.land crc 255) v)) crcTable 0)
         (Z.shiftr crc 8)
  = shift8 (Z.lxor crc v).
Proof.
  intros Hv. unfold shift8. rewrite land_lxor, Z.shiftr_lxor.
  replace (Z.land v 255) with v
    by (rewrite land_255; symmetry; apply Z.mod_small; lia).
  replace (Z.shiftr v 8) with 0.
  - now rewrite Z.lxor_0_r.
  - rewrite Z.shiftr_div_pow2 by lia. symmetry. apply Z.div_small.
    change (2 ^ 8) with 256. lia.
Qed.

(** ** Steps on zero bytes *)

Lemma spin_0 v : spin 0 v = v.
Proof. reflexivity. Qed.

Lemma spin_1 v : spin 1 v = shift8 v.
Proof. reflexivity. Qed.

Lemma spin_add a b v : 0 ≤ a → 0 ≤ b → spin (a + b) v = spin a (spin b v).
Proof.
  intros Ha Hb. unfold spin. rewrite Z2N.inj_add by assumption.
  apply N.iter_add.
Qed.

Lemma spin_succ k v : 0 ≤ k → spin (k + 1) v = spin k (shift8 v).
Proof. intros Hk. now rewrite spin_add by lia. Qed.

Lemma spin_lxor k a b : spin k (Z.lxor a b) = Z.lxor (spin k a) (spin k b).
Proof.
  unfold spin. induction (Z.to_N k) as [|n IH] using N.peano_ind.
  - reflexivity.
  - now rewrite !N.iter_succ, IH, shift8_lxor.
Qed.

Lemma spin_zero k : spin k 0 = 0.
Proof.
  unfold spin. induction (Z.to_N k) as [|n IH] using N.peano_ind.
  - reflexivity.
  - now rewrite N.iter_succ, IH.
Qed.

Lemma spin_word k v : word v → word (spin k v).
Proof. intros Hv. unfold spin. now apply N.iter_invariant; [apply shift8_word|]. Qed.

Lemma spin_mul_fixed a m v :
  0 ≤ a → 0 ≤ m → spin m v = v → spin (a * m) v = v.
Proof.
  intros Ha Hm Hfix. revert a Ha. apply natlike_ind.
  - reflexivity.
  - intros a Ha IH. replace (Z.succ a * m) with (a * m + m) by lia.
    rewrite spin_add by nia. now rewrite Hfix.
Qed.

(** ** Linear maps as lists of columns *)

Lemma mapply_from_zero i M : mapply_from i M 0 = 0.
Proof.
  revert i. induction M as [|col M IH]; intros i; [reflexivity|].
  cbn [mapply_from]. now rewrite Z.testbit_0_l, IH.
Qed.

Lemma mapply_from_lxor i M a b :
  mapply_from i M (Z.lxor a b) =
  Z.lxor (mapply_from i M a) (mapply_from i M b).
Proof.
  revert i. induction M as [|col M IH]; intros i; [reflexivity|].
  cbn [mapply_from]. rewrite IH, Z.lxor_spec, <- lxor_swap. f_equal.
  destruct (Z.testbit a i), (Z.testbit b i); cbn [xorb];
    now rewrite ?Z.lxor_0_r, ?Z.lxor_0_l, ?Z.lxor_nilpotent.
Qed.

Lemma mapply_from_mul i A B v :
  mapply_from i (mat_mul A B) v = mapply A (mapply_from i B v).
Proof.
  revert i. induction B as [|col B IH]; intros i.
  - cbn. symmetry. apply mapply_from_zero.
  - cbn [mat_mul map mapply_from]. fold (mat_mul A B). rewrite IH.
    unfold mapply at 3. rewrite mapply_from_lxor. f_equal.
    destruct (Z.testbit v i); [reflexivity|].
    symmetry. apply mapply_from_zero.
Qed.

Lemma mapply_mul A B v : mapply (mat_mul A B) v = mapply A (mapply B v).
Proof. apply mapply_from_mul. Qed.

Lemma mapply_from_add i A B v :
  length A = length B →
  mapply_from i (mat_add A B) v =
  Z.lxor (mapply_from i A v) (mapply_from i B v).
Proof.
  revert i B. induction A as [|a A IH]; intros i [|b B] Hlen;
    try discriminate; [reflexivity|].
  cbn [mat_add zip_with mapply_from]. fold (mat_add A B).
  rewrite IH by (cbn in Hlen; lia). rewrite <- lxor_swap. f_equal.
  now destruct (Z.testbit v i).
Qed.

Lemma mapply_pow A p v : mapply (mat_pow A p) v = Pos.iter (mapply A) v p.
Proof.
  revert v. induction p as [p IH|p IH|]; intros v; cbn [mat_pow Pos.iter].
  - now rewrite !mapply_mul, !IH.
  - now rewrite mapply_mul, !IH.
  - reflexivity.
Qed.

Lemma length_mat_pow A p : length (mat_pow A p) = length A.
Proof.
  induction p as [p IH|p IH|]; cbn [mat_pow]; unfold mat_mul;
    now rewrite ?length_map.
Qed.

Lemma mat_eqb_eq A B : mat_eqb A B = true → A = B.
Proof.
  unfold mat_eqb. intros [Hlen Hall]%andb_true_iff.
  apply Nat.eqb_eq in Hlen. revert B Hlen Hall.
  induction A as [|a A IH]; intros [|b B] Hlen Hall; try discriminate;
    [reflexivity|].
  cbn in Hall. apply andb_true_iff in Hall as [Hab Hall].
  apply Z.eqb_eq in Hab. f_equal; [assumption|].
  apply IH; [cbn in Hlen; lia | assumption].
Qed.

(** The bits [i .. i + n - 1] of a state. *)
Lemma testbit_chunk v i n m :
  0 ≤ i → 0 ≤ n → 0 ≤ m →
  Z.testbit (Z.shiftl (Z.land (Z.shiftr v i) (Z.ones n)) i) m
  = Z.testbit v m && (i <=? m) && (m <? i + n).
Proof.
  intros Hi Hn Hm. rewrite Z.shiftl_spec by assumption.
  destruct (Z.leb_spec i m) as [Him|Him].
  - rewrite Z.land_spec, Z.shiftr_spec by lia.
    replace (m - i + i) with m by lia.
    rewrite Z.testbit_ones by assumption.
    destruct (Z.testbit v m); cbn [andb]; [|reflexivity].
    destruct (Z.ltb_spec (m - i) n), (Z.ltb_spec m (i + n)),
      (Z.leb_spec 0 (m - i)); cbn [andb]; (reflexivity || lia).
  - rewrite Z.testbit_neg_r by lia. now rewrite andb_false_r.
Qed.

(** A linear map is given by the images of the unit states. *)
Lemma mapply_from_units (f : Z → Z) v (n i : nat) :
  (∀ a b, f (Z.lxor a b) = Z.lxor (f a) (f b)) → f 0 = 0 →
  mapply_from (Z.of_nat i) (map f (map (λ k, 2 ^ Z.of_nat k) (seq i n))) v
  = f (Z.shiftl (Z.land (Z.shiftr v (Z.of_nat i)) (Z.ones (Z.of_nat n)))
                (Z.of_nat i)).
Proof.
  intros Hlin H0. revert i. induction n as [|n IH]; intros i.
  - cbn [seq map mapply_from]. change (Z.ones (Z.of_nat 0)) with 0.
    now rewrite Z.land_0_r, Z.shiftl_0_l, H0.
  - cbn [seq map mapply_from].
    replace (Z.of_nat i + 1) with (Z.of_nat (S i)) by lia.
    rewrite IH.
    replace (if Z.testbit v (Z.of_nat i) then f (2 ^ Z.of_nat i) else 0)
      with (f (if Z.testbit v (Z.of_nat i) then 2 ^ Z.of_nat i else 0))
      by (now destruct (Z.testbit v (Z.of_nat i))).
    rewrite <- Hlin. f_equal.
    apply Z.bits_inj'. intros m Hm.
    rewrite Z.lxor_spec, !testbit_chunk by lia.
    assert (Hbit : Z.testbit (if Z.testbit v (Z.of_nat i)
                              then 2 ^ Z.of_nat i else 0) m
                   = Z.testbit v m && (Z.of_nat i =? m)).
    { destruct (Z.eqb_spec (Z.of_nat i) m) as [<-|Hne].
      - destruct (Z.testbit v (Z.of_nat i)).
        + rewrite Z.pow2_bits_true by lia. reflexivity.
        + now rewrite Z.testbit_0_l.
      - rewrite andb_false_r. destruct (Z.testbit v (Z.of_nat i)).
        + apply Z.pow2_bits_false. lia.
        + apply Z.testbit_0_l. }
    rewrite Hbit. destruct (Z.testbit v m); cbn [andb]; [|reflexivity].
    destruct (Z.eqb_spec (Z.of_nat i) m), (Z.leb_spec (Z.of_nat (S i)) m),
      (Z.leb_spec (Z.of_nat i) m), (Z.ltb_spec m (Z.of_nat (S i) + Z.of_nat n)),
      (Z.ltb_spec m (Z.of_nat i + Z.of_nat (S n)));
      cbn [andb xorb]; (reflexivity || lia).
Qed.

Lemma chunk_word v :
  word v → Z.shiftl (Z.land (Z.shiftr v (Z.of_nat 0)) (Z.ones (Z.of_nat 64)))
                    (Z.of_nat 0) = v.
Proof.
  intros Hv. change (Z.of_nat 0) with 0. change (Z.of_nat 64) with 64.
  rewrite Z.shiftr_0_r, Z.shiftl_0_r, Z.land_ones by lia.
  now apply Z.mod_small.
Qed.

Lemma mapply_basis v : word v → mapply basis v = v.
Proof.
  intros Hv. unfold mapply, basis.
  rewrite <- (map_id (map _ (seq 0 64))).
  change 0 with (Z.of_nat 0) at 1.
  rewrite (mapply_from_units (λ x, x)) by reflexivity.
  now apply chunk_word.
Qed.

Lemma mapply_shift8 v : word v → mapply shift8_mat v = shift8 v.
Proof.
  intros Hv. unfold mapply.
  change shift8_mat with (map shift8 (map (λ k, 2 ^ Z.of_nat k) (seq 0 64))).
  change 0 with (Z.of_nat 0) at 1.
  rewrite (mapply_from_units shift8) by (apply shift8_lxor || apply shift8_0).
  now rewrite chunk_word.
Qed.

Lemma pos_iter_shift8 p v :
  word v →
  Pos.iter (mapply shift8_mat) v p = Pos.iter shift8 v p.
Proof.
  assert (Hw : ∀ q x, word x → word (Pos.iter shift8 x q)).
  { intros q x Hx. apply Pos.iter_invariant; [|assumption].
    intros y Hy. now apply shift8_word. }
  revert v. induction p as [p IH|p IH|]; intros v Hv; cbn [Pos.iter].
  - rewrite (IH v Hv). rewrite IH by now apply Hw.
    apply mapply_shift8. now apply Hw, Hw.
  - rewrite (IH v Hv). apply IH. now apply Hw.
  - now apply mapply_shift8.
Qed.

Lemma mapply_spin (k : positive) v :
  word v → mapply (mat_pow shift8_mat k) v = spin (Z.pos k) v.
Proof. intros Hv. rewrite mapply_pow. now apply pos_iter_shift8. Qed.

(** ** The cycles of the step *)

Lemma spin_order v : word v → spin crc_order v = v.
Proof.
  intros Hv.
  assert (Heq : mat_eqb (mat_pow shift8_mat (Z.to_pos crc_order)) basis = true)
    by (vm_compute; reflexivity).
  apply mat_eqb_eq in Heq.
  rewrite <- (mapply_spin (Z.to_pos crc_order)) by assumption.
  rewrite Heq. now apply mapply_basis.
Qed.

Lemma no_fixed_spec q v :
  no_fixed q = true → word v → spin (crc_order / q) v = v → v = 0.
Proof.
  unfold no_fixed. intros Hq Hv Hfix.
  destruct (crc_order / q) as [|k|k]; try discriminate.
  apply mat_eqb_eq in Hq.
  set (M := mat_add (mat_pow shift8_mat k) basis) in *.
  assert (HM : mapply M v = 0).
  { unfold M, mapply. rewrite mapply_from_add
      by (now rewrite length_mat_pow).
    fold (mapply (mat_pow shift8_mat k) v). fold (mapply basis v).
    rewrite mapply_spin, mapply_basis, Hfix by assumption.
    apply Z.lxor_nilpotent. }
  rewrite <- (mapply_basis v Hv), <- Hq, mapply_mul, HM.
  apply mapply_from_zero.
Qed.

Lemma crc_factors_no_fixed q : q ∈ crc_factors → no_fixed q = true.
Proof.
  assert (Hall : forallb no_fixed crc_factors = true)
    by (vm_compute; reflexivity).
  rewrite forallb_forall in Hall. intros Hq. apply Hall.
  now apply list_elem_of_In.
Qed.

(** ** The length of the cycles *)

Lemma trial_prime_spec p d :
  trial_prime p = true → 0 < d → (d | p) → d = 1 ∨ d = p.
Proof.
  unfold trial_prime. intros [Hp Hall]%andb_true_iff Hd [e He].
  apply Z.ltb_lt in Hp. rewrite forallb_forall in Hall.
  assert (Hsmall : ∀ c, 2 ≤ c ≤ Z.sqrt p → ¬ (c | p)).
  { intros c Hc [c' Hc'].
    specialize (Hall (Z.to_nat c) ltac:(apply in_seq; lia)).
    rewrite Z2Nat.id in Hall by lia.
    apply negb_true_iff, Z.eqb_neq in Hall. apply Hall.
    rewrite Hc'. apply Z.mod_mul. lia. }
  pose proof (Z.sqrt_spec p ltac:(lia)) as [_ Hs].
  assert (He0 : 0 < e) by nia.
  destruct (Z.eq_dec d 1) as [|Hd1]; [now left|].
  destruct (Z.eq_dec e 1) as [->|He1]; [right; lia|].
  exfalso. destruct (Z.le_gt_cases d (Z.sqrt p)) as [Hle|Hgt].
  - apply (Hsmall d); [lia|]. exists e. lia.
  - destruct (Z.le_gt_cases e (Z.sqrt p)) as [Hle'|Hgt'].
    + apply (Hsmall e); [lia|]. exists d. lia.
    + pose proof (Z.sqrt_nonneg p) as Hs0.
      assert ((Z.sqrt p + 1) * (Z.sqrt p + 1) ≤ e * d)
        by (apply Z.mul_le_mono_nonneg; lia).
      unfold Z.succ in Hs. lia.
Qed.

(** A divisor of a product of primes that none of them divides is 1. *)
Lemma prime_factor (fs : list Z) q :
  Forall (λ p, trial_prime p = true) fs →
  0 < q → (q | fold_right Z.mul 1 fs) →
  q = 1 ∨ ∃ p, p ∈ fs ∧ (p | q).
Proof.
  intros Hfs Hq. revert q Hq. induction Hfs as [|p fs Hp _ IH]; intros q Hq Hdiv.
  - cbn in Hdiv. left. apply Z.divide_1_r_nonneg in Hdiv; lia.
  - cbn [fold_right] in Hdiv.
    assert (Hp1 : 1 < p).
    { unfold trial_prime in Hp. apply andb_true_iff in Hp as [Hp _].
      now apply Z.ltb_lt. }
    pose proof (Z.gcd_divide_l q p) as Hgq.
    pose proof (Z.gcd_divide_r q p) as Hgp.
    pose proof (Z.gcd_nonneg q p) as Hg0.
    assert (Hgpos : 0 < Z.gcd q p).
    { destruct (Z.eq_dec (Z.gcd q p) 0) as [H0|]; [|lia].
      apply Z.gcd_eq_0_l in H0. lia. }
    destruct (trial_prime_spec p (Z.gcd q p) Hp Hgpos Hgp) as [H1|Hpp].
    + destruct (IH q Hq) as [->|(p' & Hin & Hd)].
      * now apply (Z.gauss q p).
      * now left.
      * right. exists p'. split; [now right | assumption].
    + right. exists p. split; [now left|]. now rewrite <- Hpp.
Qed.

Lemma crc_factors_prime : Forall (λ p, trial_prime p = true) crc_factors.
Proof. repeat constructor; vm_compute; reflexivity. Qed.

Lemma crc_order_factors : fold_right Z.mul 1 crc_factors = crc_order.
Proof. reflexivity. Qed.

(** A state that comes back after [m] steps comes back after [gcd m
    crc_order] steps. *)
Lemma spin_gcd m v :
  word v → 0 < m → spin m v = v → spin (Z.gcd m crc_order) v = v.
Proof.
  intros Hv Hm Hfix.
  destruct (Z.gcd_bezout m crc_order _ eq_refl) as (a & b & Hab).
  set (g := Z.gcd m crc_order) in *.
  assert (Hg : 0 ≤ g) by apply Z.gcd_nonneg.
  set (t := Z.abs a + Z.abs b).
  assert (HN : 0 < crc_order) by reflexivity.
  assert (HA : 0 ≤ a + t * crc_order) by (unfold t; nia).
  assert (HB : 0 ≤ t * m - b) by (unfold t; nia).
  assert (Heq : (a + t * crc_order) * m = g + (t * m - b) * crc_order) by lia.
  pose proof (spin_mul_fixed (a + t * crc_order) m v HA ltac:(lia) Hfix) as H1.
  rewrite Heq, spin_add in H1 by nia.
  rewrite (spin_mul_fixed (t * m - b) crc_order v) in H1;
    [assumption | assumption | lia | now apply spin_order].
Qed.

(** No state other than 0 comes back in fewer than [crc_order] steps. *)
Lemma no_short_cycle k v :
  word v → v ≠ 0 → 0 < k < crc_order → spin k v ≠ v.
Proof.
  intros Hv Hne Hk Hfix.
  pose proof (spin_gcd k v Hv ltac:(lia) Hfix) as Hg.
  set (g := Z.gcd k crc_order) in *.
  assert (Hgk : (g | k)) by apply Z.gcd_divide_l.
  assert (HgN : (g | crc_order)) by apply Z.gcd_divide_r.
  assert (Hg0 : 0 < g).
  { pose proof (Z.gcd_nonneg k crc_order).
    destruct (Z.eq_dec g 0) as [H0|]; [|lia].
    apply Z.gcd_eq_0_l in H0. lia. }
  assert (Hgle : g ≤ k) by (apply Z.divide_pos_le; [lia | assumption]).
  destruct HgN as [e He].
  assert (He1 : 1 < e) by nia.
  destruct (prime_factor crc_factors e crc_factors_prime ltac:(lia))
    as [H1|(p & Hin & [c Hc])].
  - rewrite crc_order_factors. exists g. lia.
  - lia.
  - assert (Hp : 1 < p).
    { pose proof crc_factors_prime as Hall.
      rewrite Forall_forall in Hall. specialize (Hall p Hin).
      unfold trial_prime in Hall. apply andb_true_iff in Hall as [Hp _].
      now apply Z.ltb_lt. }
    assert (Hc0 : 0 < c) by nia.
    assert (Hdiv : crc_order / p = c * g).
    { rewrite He, Hc. replace (c * p * g) with (c * g * p) by lia.
      apply Z.div_mul. lia. }
    apply Hne, (no_fixed_spec p v); [now apply crc_factors_no_fixed | assumption |].
    rewrite Hdiv. apply spin_mul_fixed; [lia | lia | assumption].
Qed.

(** ** The checksums of two inputs *)

Lemma spin_nonzero k v : word v → v ≠ 0 → spin k v ≠ 0.
Proof.
  intros Hv Hne Hk.
  destruct (Z.le_gt_cases k 0) as [Hle|Hgt].
  - unfold spin in Hk. replace (Z.to_N k) with 0%N in Hk by lia.
    now apply Hne.
  - apply Hne.
    assert (HN : 0 < crc_order) by reflexivity.
    rewrite <- (spin_mul_fixed k crc_order v) by (lia || now apply spin_order).
    replace (k * crc_order) with ((k * crc_order - k) + k) by lia.
    rewrite spin_add by nia. rewrite Hk. apply spin_zero.
Qed.

Lemma runlin_app d l1 l2 : runlin d (l1 ++ l2) = runlin (runlin d l1) l2.
Proof. apply fold_left_app. Qed.

Lemma runlin_zeros (D : nat → Z) s k d :
  (∀ n, (s ≤ n < s + k)%nat → D n = 0) →
  runlin d (D <$> seq s k) = spin (Z.of_nat k) d.
Proof.
  revert s d. induction k as [|k IH]; intros s d HD; [reflexivity|].
  cbn [seq fmap list_fmap runlin fold_left]. fold (runlin (shift8 (Z.lxor d (D s)))
    (D <$> seq (S s) k)).
  rewrite IH by (intros n Hn; apply HD; lia).
  rewrite (HD s) by lia. rewrite Z.lxor_0_r.
  replace (Z.of_nat (S k)) with (Z.of_nat k + 1) by lia.
  now rewrite spin_succ by lia.
Qed.

Lemma runlin_one (D : nat → Z) s d :
  runlin d (D <$> seq s 1) = shift8 (Z.lxor d (D s)).
Proof. reflexivity. Qed.

(** The difference of the final states of [crc64.update] on two inputs of
    the same length. *)
Lemma update_runlin (F G : nat → Z) (l : list nat) s s' :
  (∀ n, 0 ≤ F n < 256) → (∀ n, 0 ≤ G n < 256) →
  Z.lxor
    (fold_left (λ crc v,
       Z.lxor (nth (Z.to_nat (Z.lxor (Z.land crc 255) v)) crcTable 0)
              (Z.shiftr crc 8)) (F <$> l) s)
    (fold_left (λ crc v,
       Z.lxor (nth (Z.to_nat (Z.lxor (Z.land crc 255) v)) crcTable 0)
              (Z.shiftr crc 8)) (G <$> l) s')
  = runlin (Z.lxor s s') ((λ n, Z.lxor (F n) (G n)) <$> l).
Proof.
  intros HF HG. revert s s'. induction l as [|a l IH]; intros s s';
    [reflexivity|].
  cbn [fmap list_fmap fold_left runlin].
  rewrite !update_step by (apply HF || apply HG).
  fold (runlin (shift8 (Z.lxor (Z.lxor s s') (Z.lxor (F a) (G a))))
               ((λ n, Z.lxor (F n) (G n)) <$> l)).
  rewrite IH. f_equal. now rewrite <- shift8_lxor, lxor_swap.
Qed.

Lemma Checksum_differ (F G : nat → Z) (l : list nat) :
  (∀ n, 0 ≤ F n < 256) → (∀ n, 0 ≤ G n < 256) →
  runlin 0 ((λ n, Z.lxor (F n) (G n)) <$> l) ≠ 0 →
  crc64.Checksum (F <$> l) crcTable ≠ crc64.Checksum (G <$> l) crcTable.
Proof.
  intros HF HG Hne Heq. apply Hne.
  unfold crc64.Checksum, crc64.update in Heq. cbv zeta in Heq.
  apply (f_equal (λ z, Z.lxor z crc64.mask64)) in Heq.
  rewrite !Z.lxor_assoc, !Z.lxor_nilpotent, !Z.lxor_0_r in Heq.
  rewrite <- (Z.lxor_nilpotent (Z.lxor 0 crc64.mask64)).
  rewrite <- (update_runlin F G l) by assumption.
  rewrite Heq. apply Z.lxor_nilpotent.
Qed.

(** ** The two phases of a blinker *)

(** The bytes of the two phases differ at the four cells around the
    centre. *)
Lemma blinker_bytes w cx cy z :
  1 ≤ cx → cx + 1 < w → 0 ≤ z →
  Z.lxor (cell_byte (blinker_v cx cy (z mod w) (z / w)))
         (cell_byte (blinker_h cx cy (z mod w) (z / w)))
  = if blinker_diff w cx cy z then 64 else 0.
Proof.
  intros Hcx Hcw Hz.
  assert (Hw : 0 < w) by lia.
  pose proof (Z.div_mod z w ltac:(lia)) as Hzw.
  pose proof (Z.mod_pos_bound z w Hw) as Hx.
  set (x := z mod w) in *. set (y := z / w) in *. clearbody x y.
  unfold blinker_v, blinker_h, blinker_diff, cell_byte.
  assert (Hy : y ≤ cy - 2 ∨ y = cy - 1 ∨ y = cy ∨ y = cy + 1 ∨ cy + 2 ≤ y)
    by lia.
  assert (Hxx : x < cx - 1 ∨ x = cx - 1 ∨ x = cx ∨ x = cx + 1 ∨ cx + 1 < x)
    by lia.
  destruct Hy as [Hy|[Hy|[Hy|[Hy|Hy]]]];
    [assert (w * y ≤ w * cy - 2 * w) by nia | subst y | subst y | subst y
     | assert (w * cy + 2 * w ≤ w * y) by nia];
    (destruct Hxx as [Hxx|[Hxx|[Hxx|[Hxx|Hxx]]]];
     [ | subst x | subst x | subst x | ]; zsettle; reflexivity).
Qed.

Lemma blinker_runlin w h cx cy (D : nat → Z) :
  1 ≤ cx → cx + 1 < w → 1 ≤ cy → cy + 1 < h →
  (∀ n, D n = if blinker_diff w cx cy (Z.of_nat n) then 64 else 0) →
  ∃ r, 0 ≤ r ∧
       runlin 0 (D <$> seq 0 (Z.to_nat (w * h)))
       = spin (r + 1)
           (Z.lxor (spin (w + 1) (Z.lxor (spin (w - 1) 64) 64))
                   (Z.lxor (spin (w - 1) 64) 64)).
Proof.
  intros Hcx Hcw Hcy Hch HD.
  set (a := Z.to_nat ((cy - 1) * w + cx)).
  set (m := Z.to_nat (w - 2)).
  set (r := Z.to_nat (w * h - ((cy + 1) * w + cx + 1))).
  assert (H1 : 0 ≤ (cy - 1) * w) by nia.
  assert (H2 : (cy + 1) * w + cx + 1 ≤ w * h) by nia.
  assert (Hlen : Z.to_nat (w * h)
                 = (a + 1 + m + 1 + 1 + 1 + m + 1 + r)%nat) by lia.
  exists (Z.of_nat r). split; [lia|].
  assert (Hzero : ∀ s k, (∀ n, (s ≤ n < s + k)%nat →
                               blinker_diff w cx cy (Z.of_nat n) = false) →
                         ∀ d, runlin d (D <$> seq s k) = spin (Z.of_nat k) d).
  { intros s k Hs d. apply runlin_zeros. intros n Hn.
    now rewrite HD, (Hs n Hn). }
  assert (Hone : ∀ s, blinker_diff w cx cy (Z.of_nat s) = true →
                      ∀ d, runlin d (D <$> seq s 1) = shift8 (Z.lxor d 64)).
  { intros s Hs d. now rewrite runlin_one, HD, Hs. }
  rewrite Hlen, !seq_app, !fmap_app, !runlin_app, !Nat.add_0_l.
  rewrite (Hzero 0%nat a)
    by (intros n Hn; unfold blinker_diff; zsettle; reflexivity).
  rewrite spin_zero.
  rewrite (Hone a)
    by (unfold blinker_diff; zsettle; reflexivity).
  rewrite (Hzero (a + 1)%nat m)
    by (intros n Hn; unfold blinker_diff; zsettle; reflexivity).
  rewrite (Hone (a + 1 + m)%nat)
    by (unfold blinker_diff; zsettle; reflexivity).
  rewrite (Hzero (a + 1 + m + 1)%nat 1%nat)
    by (intros n Hn; unfold blinker_diff; zsettle; reflexivity).
  rewrite (Hone (a + 1 + m + 1 + 1)%nat)
    by (unfold blinker_diff; zsettle; reflexivity).
  rewrite (Hzero (a + 1 + m + 1 + 1 + 1)%nat m)
    by (intros n Hn; unfold blinker_diff; zsettle; reflexivity).
  rewrite (Hone (a + 1 + m + 1 + 1 + 1 + m)%nat)
    by (unfold blinker_diff; zsettle; reflexivity).
  rewrite (Hzero (a + 1 + m + 1 + 1 + 1 + m + 1)%nat r)
    by (intros n Hn; unfold blinker_diff; zsettle; reflexivity).
  rewrite Z.lxor_0_l.
  set (u := Z.lxor (spin (w - 1) 64) 64).
  assert (Hu : Z.lxor (spin (Z.of_nat m) (shift8 64)) 64 = u).
  { unfold u. rewrite <- spin_succ by lia. do 2 f_equal. lia. }
  rewrite Hu.
  assert (Hz : Z.lxor (spin (Z.of_nat m)
                 (shift8 (Z.lxor (spin (Z.of_nat 1) (shift8 u)) 64))) 64
               = Z.lxor (spin (w + 1) u) u).
  { rewrite <- spin_succ by lia.
    rewrite spin_lxor, Z.lxor_assoc. fold u.
    replace (spin (Z.of_nat m + 1) 64) with (spin (w - 1) 64)
      by (f_equal; lia).
    fold u. f_equal.
    change (Z.of_nat 1) with 1. rewrite <- (spin_1 u), <- !spin_add by lia.
    f_equal. lia. }
  rewrite Hz. now rewrite <- spin_succ by lia.
Qed.

(** The two phases of a blinker never have the same fingerprint on a grid
    whose width is an [int]. *)
Lemma blinker_fingerprints_differ g cx cy :
  shows g (blinker_h cx cy) → 1 ≤ cy → cy + 1 < height g →
  width g ≤ MaxInt →
  fingerprint (next g) ≠ fingerprint g.
Proof.
  intros Hg Hlo Hhi Hint.
  destruct (blinker_turns g cx cy Hg Hlo Hhi) as [Hv _].
  pose proof Hg as [Hwf Hh].
  destruct (next_spec g Hwf) as (_ & Hw' & Hh' & _).
  destruct Hv as [_ Hv].
  assert (Hl : in_bounds g (cx - 1) cy)
    by (apply (shows_inside g _ _ _ Hg); unfold blinker_h; zsettle; reflexivity).
  assert (Hr : in_bounds g (cx + 1) cy)
    by (apply (shows_inside g _ _ _ Hg); unfold blinker_h; zsettle; reflexivity).
  destruct Hl as [Hl _], Hr as [Hr _].
  unfold fingerprint, bytes_of. rewrite Hw', Hh'.
  apply Checksum_differ.
  - intros n. unfold byte_at, cell_byte.
    destruct (alive _ _ _); lia.
  - intros n. unfold byte_at, cell_byte.
    destruct (alive _ _ _); lia.
  - destruct (blinker_runlin (width g) (height g) cx cy
      (λ n, Z.lxor (byte_at (next g) (Z.of_nat n)) (byte_at g (Z.of_nat n))))
      as (r & Hr0 & ->); try lia.
    { intros n. unfold byte_at. rewrite Hw', Hv, Hh.
      apply blinker_bytes; lia. }
    assert (H64 : word 64) by (unfold word; lia).
    assert (HN : crc_order = 18446744073709551615) by reflexivity.
    unfold MaxInt in Hint.
    set (u := Z.lxor (spin (width g - 1) 64) 64).
    assert (Hu : word u) by (apply word_lxor; [now apply spin_word | assumption]).
    assert (Hu0 : u ≠ 0).
    { intros H0. apply Z.lxor_eq in H0.
      apply (no_short_cycle (width g - 1) 64); (assumption || lia). }
    apply spin_nonzero.
    + apply word_lxor; [now apply spin_word | assumption].
    + intros H0. apply Z.lxor_eq in H0.
      apply (no_short_cycle (width g + 1) u); (assumption || lia).
Qed.

(** * The claims *)

(** ** C1: the transition rule *)

Lemma neighbors_moore_count g x y : neighbors g x y = moore_count g x y.
Proof.
  unfold neighbors, moore_count, moore_offsets. cbn [List.filter fst snd].
  rewrite !Z.add_0_r.
  change (x + -1) with (x - 1). change (y + -1) with (y - 1).
  unfold b2z. repeat destruct (alive g _ _); reflexivity.
Qed.

Lemma rule_spec a n :
  rule a n = true ↔ (a = true ∧ (n = 2 ∨ n = 3)) ∨ (a = false ∧ n = 3).
Proof.
  unfold rule. destruct a.
  - rewrite negb_true_iff, orb_false_iff, Z.ltb_ge, Z.gtb_ltb, Z.ltb_ge.
    split; [intros [? ?]; left; split; [reflexivity | lia]
           | intros [[_ ?]|[? _]]; [lia | discriminate]].
  - rewrite Z.eqb_eq.
    split; [intros ?; right; now split | intros [[? _]|[_ ?]]; [discriminate | assumption]].
Qed.

(** C1.  For every well-formed grid, [Update] returns a grid (it does not
    panic), and for every in-bounds [(x, y)] the cell of the result is alive
    exactly when the cell was alive before the call with 2 or 3 alive Moore
    neighbours, or dead with exactly 3; the count is [CellValue] on the grid
    before the call, which is the number of alive Moore neighbours with
    off-grid neighbours dead. *)
Theorem Update_applies_rule (g : GameOfLife) :
  wf g →
  ∃ g', Update g = Ok g' ∧
        ∀ x y, in_bounds g x y →
               ∃ (a a' : bool) (n : Z),
                 At g x y = Ok a ∧ CellValue g x y = Ok n ∧
                 n = moore_count g x y ∧
                 At g' x y = Ok a' ∧
                 (a' = true ↔
                  (a = true ∧ (n = 2 ∨ n = 3)) ∨ (a = false ∧ n = 3)).
Proof.
  intros Hg. destruct (Update_ok g Hg) as (g' & Hu & Hg' & Hw & Hh & Hc).
  exists g'. split; [assumption|]. intros x y Hin.
  destruct Hg as [[_ _ Hd _] _]. destruct Hg' as [[_ _ Hd' _] _].
  exists (alive g x y), (cell (data g') x y), (neighbors g x y).
  split; [now apply At_alive|]. split; [now apply CellValue_ok|].
  split; [apply neighbors_moore_count|]. split.
  - apply At_inside; [assumption|]. unfold in_bounds in *. now rewrite Hw, Hh.
  - rewrite Hc by assumption. apply rule_spec.
Qed.

Lemma Update_applies_rule_witness :
  wf blinker3 ∧
  ∃ g', Update blinker3 = Ok g' ∧
        ∀ x y, in_bounds blinker3 x y →
               ∃ (a a' : bool) (n : Z),
                 At blinker3 x y = Ok a ∧ CellValue blinker3 x y = Ok n ∧
                 n = moore_count blinker3 x y ∧
                 At g' x y = Ok a' ∧
                 (a' = true ↔
                  (a = true ∧ (n = 2 ∨ n = 3)) ∨ (a = false ∧ n = 3)).
Proof.
  split.
  - exact blinker3_wf.
  - apply (Update_applies_rule blinker3). exact blinker3_wf.
Defined.

(** ** C6: [Set] *)

(** C6.  Outside the grid [Set] returns the error "out of bounds" and the
    grid it was given, both buffers untouched; inside a well-formed grid it
    returns no error and a grid of the same dimensions in which the cell
    [(x, y)] of both buffers holds the value and every other cell of both
    buffers is as before. *)
Theorem Set_bounds_checked :
  (∀ g x y val, ¬ in_bounds g x y →
                Set_ g x y val = Ok (g, Some "out of bounds"%string)) ∧
  (∀ g x y val, wf g → in_bounds g x y →
     ∃ g', Set_ g x y val = Ok (g', None) ∧
           width g' = width g ∧ height g' = height g ∧
           cell (data g') x y = val ∧ cell (back_buffer g') x y = val ∧
           ∀ x' y', (x', y') ≠ (x, y) →
                    cell (data g') x' y' = cell (data g) x' y' ∧
                    cell (back_buffer g') x' y' = cell (back_buffer g) x' y').
Proof.
  split.
  - intros g x y val Hout. now apply Set_outside.
  - intros g x y val [Hg _] Hin.
    destruct (Set_inside g x y val Hg Hin)
      as (g' & Hs & Hw & Hh & _ & Hcd & Hcb).
    exists g'. split; [assumption|]. do 2 (split; [assumption|]).
    rewrite Hcd, Hcb, !Z.eqb_refl. cbn [andb]. do 2 (split; [reflexivity|]).
    intros x' y' Hne. rewrite Hcd, Hcb.
    destruct (Z.eqb_spec x' x) as [->|]; [|now split].
    destruct (Z.eqb_spec y' y) as [->|]; [congruence | now split].
Qed.

Lemma Set_bounds_checked_witness :
  (¬ in_bounds blinker3 3 0 ∧
   Set_ blinker3 3 0 true = Ok (blinker3, Some "out of bounds"%string)) ∧
  (wf blinker3 ∧ in_bounds blinker3 0 0 ∧
   ∃ g', Set_ blinker3 0 0 true = Ok (g', None) ∧
         width g' = width blinker3 ∧ height g' = height blinker3 ∧
         cell (data g') 0 0 = true ∧ cell (back_buffer g') 0 0 = true ∧
         ∀ x' y', (x', y') ≠ (0, 0) →
                  cell (data g') x' y' = cell (data blinker3) x' y' ∧
                  cell (back_buffer g') x' y' =
                  cell (back_buffer blinker3) x' y').
Proof.
  assert (Hout : ¬ in_bounds blinker3 3 0) by (unfold in_bounds; cbn; lia).
  assert (Hin : in_bounds blinker3 0 0) by (unfold in_bounds; cbn; lia).
  pose proof blinker3_wf as Hwf.
  split.
  - split; [exact Hout|]. exact (proj1 Set_bounds_checked blinker3 3 0 true Hout).
  - split; [exact Hwf|]. split; [exact Hin|].
    exact (proj2 Set_bounds_checked blinker3 0 0 true Hwf Hin).
Defined.

(** ** C7: [At] *)

(** C7.  [At] never panics.  Outside [[0,width) × [0,height)] it returns
    [false] whatever the buffers hold, so the slice is not indexed there;
    inside a well-formed grid it returns the value stored in row [y],
    column [x] of the current buffer. *)
Theorem At_total :
  (∀ g x y, ¬ in_bounds g x y → At g x y = Ok false) ∧
  (∀ g x y, wf g → in_bounds g x y →
     ∃ row b, data g !! Z.to_nat y = Some row ∧ row !! Z.to_nat x = Some b ∧
              At g x y = Ok b).
Proof.
  split.
  - intros g x y Hout. now apply At_outside.
  - intros g x y [[_ _ Hd _] _] [Hx Hy].
    destruct (shape_row _ _ _ y Hd Hy) as (row & Hrow & Hlen).
    destruct (lookup_lt_is_Some_2 row (Z.to_nat x)) as [b Hb]; [lia|].
    exists row, b. do 2 (split; [assumption|]).
    rewrite At_inside by (assumption || now split).
    unfold cell. destruct (Z.ltb_spec x 0); [lia|].
    destruct (Z.ltb_spec y 0); [lia|]. cbn [orb]. now rewrite Hrow, Hb.
Qed.

Lemma At_total_witness :
  (¬ in_bounds blinker3 (-1) 1 ∧ At blinker3 (-1) 1 = Ok false) ∧
  (¬ in_bounds (mkGame 2 2 [] []) 5 0 ∧ At (mkGame 2 2 [] []) 5 0 = Ok false) ∧
  (wf blinker3 ∧ in_bounds blinker3 1 1 ∧
   ∃ row b, data blinker3 !! Z.to_nat 1 = Some row ∧
            row !! Z.to_nat 1 = Some b ∧ At blinker3 1 1 = Ok b).
Proof.
  assert (Hout : ¬ in_bounds blinker3 (-1) 1) by (unfold in_bounds; cbn; lia).
  assert (Hout' : ¬ in_bounds (mkGame 2 2 [] []) 5 0)
    by (unfold in_bounds; cbn; lia).
  assert (Hin : in_bounds blinker3 1 1) by (unfold in_bounds; cbn; lia).
  pose proof blinker3_wf as Hwf.
  split; [|split].
  - split; [exact Hout|]. exact (proj1 At_total blinker3 (-1) 1 Hout).
  - split; [exact Hout'|]. exact (proj1 At_total _ 5 0 Hout').
  - split; [exact Hwf|]. split; [exact Hin|].
    exact (proj2 At_total blinker3 1 1 Hwf Hin).
Defined.

(** ** C9: the two buffers stay synchronized *)

(** C9.  The current buffer and the staging buffer hold the same
    [width × height] contents ([wf]) after construction, after every [Set]
    (which, on a well-formed grid, does not panic) and after every
    [Update]. *)
Theorem buffers_synchronized :
  (∀ w h, 0 < w → 0 < h →
     ∃ g, NewGameOfLife w h = Ok (Some g, None) ∧
          width g = w ∧ height g = h ∧ wf g) ∧
  (∀ g x y val, wf g → ∃ g' e, Set_ g x y val = Ok (g', e) ∧ wf g') ∧
  (∀ g, wf g → ∃ g', Update g = Ok g' ∧ wf g').
Proof.
  split; [|split].
  - intros w h Hw Hh. eexists. split; [now apply NewGameOfLife_valid|].
    cbn. do 2 (split; [reflexivity|]). now apply wf_new.
  - intros g x y val Hg.
    destruct (in_boundsb_spec g x y) as [Hin|Hout].
    + destruct (Set_inside g x y val (wf_shaped g Hg) Hin) as (g' & Hs & _).
      exists g', None. split; [assumption|]. now apply (Set_wf g x y val g' None).
    + exists g, (Some "out of bounds"%string). split; [|assumption].
      now apply Set_outside.
  - intros g Hg. destruct (Update_ok g Hg) as (g' & Hu & Hwf & _). eauto.
Qed.

Lemma buffers_synchronized_witness :
  (0 < 3 ∧ 0 < 2 ∧
   ∃ g, NewGameOfLife 3 2 = Ok (Some g, None) ∧
        width g = 3 ∧ height g = 2 ∧ wf g) ∧
  (wf blinker3 ∧
   ∃ g' e, Set_ blinker3 0 0 true = Ok (g', e) ∧ wf g') ∧
  (wf blinker3 ∧ ∃ g', Update blinker3 = Ok g' ∧ wf g').
Proof.
  pose proof blinker3_wf as Hwf.
  split; [|split].
  - split; [lia|]. split; [lia|].
    apply (proj1 buffers_synchronized 3 2); lia.
  - split; [exact Hwf|].
    exact (proj1 (proj2 buffers_synchronized) blinker3 0 0 true Hwf).
  - split; [exact Hwf|].
    exact (proj2 (proj2 buffers_synchronized) blinker3 Hwf).
Defined.

(** [Update] needs the invariant: on buffers that differ, a dead cell with
    no neighbour comes out alive, because the pass leaves the staging cell
    as it was and [Flush] copies it. *)
Example Update_unsynced :
  shaped unsynced1 ∧ At unsynced1 0 0 = Ok false ∧
  CellValue unsynced1 0 0 = Ok 0 ∧
  ∃ g', Update unsynced1 = Ok g' ∧ At g' 0 0 = Ok true.
Proof.
  split; [|split; [reflexivity|split; [reflexivity|]]].
  - split; cbn; try lia; (split; [reflexivity | repeat constructor]).
  - eexists. split; reflexivity.
Qed.

(** ** C8 and C4: rendering *)

(** C8.  For a well-formed grid and a positive scale whose raster is
    within the [int]s, [Image] returns a raster with bounds
    [(0,0)-(width·scale, height·scale)], so of [width·scale] by
    [height·scale] pixels, in which the pixel [(X, Y)] has the index 1 and
    the colour black, [RGBA{0,0,0,255}], when the cell
    [(X div scale, Y div scale)] is alive, and the index 0 and the colour
    white, [RGBA{255,255,255,255}], when it is dead. *)
Theorem Image_scales_cells (g : GameOfLife) (scale : Z) :
  wf g → 0 < scale → raster_fits g scale →
  ∃ img, Image g scale = Ok img ∧
         image.Bounds img =
           image.mkRect 0 0 (width g * scale) (height g * scale) ∧
         image.Dx (image.Bounds img) = width g * scale ∧
         image.Dy (image.Bounds img) = height g * scale ∧
         ∀ X Y, 0 ≤ X < width g * scale → 0 ≤ Y < height g * scale →
                image.ColorIndexAt img X Y =
                  (if alive g (X / scale) (Y / scale) then 1 else 0) ∧
                Paletted_At img X Y =
                  Ok (if alive g (X / scale) (Y / scale)
                      then mkRGBA 0 0 0 255 else mkRGBA 255 255 255 255).
Proof.
  intros [Hg _] Hs _.
  destruct (Image_pixels g scale Hg Hs) as (img & Hi & Hb & Hc).
  exists img. split; [assumption|]. split; [assumption|].
  rewrite Hb. unfold image.Dx, image.Dy. cbn.
  split; [lia|]. split; [lia|]. intros X Y HX HY.
  unfold Paletted_At. rewrite (Hc X Y HX HY). unfold colour.
  now destruct (alive g (X / scale) (Y / scale)).
Qed.

Lemma Image_scales_cells_witness :
  wf blinker3 ∧ 0 < 2 ∧ raster_fits blinker3 2 ∧
  ∃ img, Image blinker3 2 = Ok img ∧
         image.Bounds img =
           image.mkRect 0 0 (width blinker3 * 2) (height blinker3 * 2) ∧
         image.Dx (image.Bounds img) = width blinker3 * 2 ∧
         image.Dy (image.Bounds img) = height blinker3 * 2 ∧
         ∀ X Y, 0 ≤ X < width blinker3 * 2 → 0 ≤ Y < height blinker3 * 2 →
                image.ColorIndexAt img X Y =
                  (if alive blinker3 (X / 2) (Y / 2) then 1 else 0) ∧
                Paletted_At img X Y =
                  Ok (if alive blinker3 (X / 2) (Y / 2)
                      then mkRGBA 0 0 0 255 else mkRGBA 255 255 255 255).
Proof.
  pose proof blinker3_wf as Hwf.
  assert (Hs : 0 < 2) by lia.
  assert (Hfit : raster_fits blinker3 2)
    by (unfold raster_fits, is_int, MinInt, MaxInt; cbn; lia).
  split; [exact Hwf|]. split; [exact Hs|]. split; [exact Hfit|].
  exact (Image_scales_cells blinker3 2 Hwf Hs Hfit).
Defined.

(** C4, against the claim.  With scale 0 and with scale -1 [Image] returns
    a raster: there is no error, and a frame is produced. *)
Lemma Image_nonpositive_scale_returns :
  (∃ img, Image dot1 0 = Ok img ∧
          image.Bounds img = image.mkRect 0 0 0 0) ∧
  (∃ img, Image dot1 (-1) = Ok img ∧
          image.Bounds img = image.mkRect (-1) (-1) 0 0 ∧
          image.ColorIndexAt img (-1) (-1) = 0).
Proof. split; eexists; repeat split; reflexivity. Qed.

(** C4, amended.  [Image] checks nothing about the scale and has no error
    result: for every scale, positive or not, whose raster is within the
    [int]s it returns a raster with the canonical bounds of
    [(0,0)-(width·scale, height·scale)]; for a scale that is not positive
    no pixel of the raster is set, and every point reads the index 0 and
    the colour white. *)
Theorem Image_never_fails (g : GameOfLife) (scale : Z) :
  wf g → raster_fits g scale →
  ∃ img, Image g scale = Ok img ∧
         image.Bounds img =
           image.Rect 0 0 (width g * scale) (height g * scale) ∧
         (scale ≤ 0 →
          ∀ X Y, image.ColorIndexAt img X Y = 0 ∧
                 Paletted_At img X Y = Ok (mkRGBA 255 255 255 255)).
Proof.
  intros [Hg _] _. destruct (Z.lt_ge_cases 0 scale) as [Hs|Hs].
  - destruct (Image_pixels g scale Hg Hs) as (img & Hi & Hb & _).
    exists img. split; [assumption|]. split; [|lia].
    rewrite Hb. symmetry. destruct Hg. now apply frame_bounds_pos.
  - destruct (Image_blank g scale Hg Hs) as (img & Hi & Hb & Hc).
    exists img. split; [assumption|]. split; [assumption|]. intros _ X Y.
    unfold Paletted_At. now rewrite Hc.
Qed.

Lemma Image_never_fails_witness :
  wf blinker3 ∧ raster_fits blinker3 (-2) ∧
  ∃ img, Image blinker3 (-2) = Ok img ∧
         image.Bounds img =
           image.Rect 0 0 (width blinker3 * -2) (height blinker3 * -2) ∧
         (-2 ≤ 0 →
          ∀ X Y, image.ColorIndexAt img X Y = 0 ∧
                 Paletted_At img X Y = Ok (mkRGBA 255 255 255 255)).
Proof.
  pose proof blinker3_wf as Hwf.
  assert (Hfit : raster_fits blinker3 (-2))
    by (unfold raster_fits, is_int, MinInt, MaxInt; cbn; lia).
  split; [exact Hwf|]. split; [exact Hfit|].
  exact (Image_never_fails blinker3 (-2) Hwf Hfit).
Defined.

(** ** C10: the fingerprints the loop has recorded *)

Lemma iterations_continue scale maxIterations g :
  wf g →
  ∀ k st,
    iterations k scale maxIterations (initial_state g) = Ok (Continue st) →
    st = state_after scale g k ∧
    ∀ i, (i < k)%nat → exits maxIterations g i = false.
Proof.
  intros Hg. induction k as [|k IH]; intros st Hst.
  - cbn in Hst. injection Hst as <-. split; [reflexivity|]. intros i Hi. lia.
  - cbn [iterations] in Hst. apply bind_inv in Hst as (c & Hc & Hst).
    destruct c as [st'|st' b]; [|discriminate].
    destruct (IH st' Hc) as [-> Hbefore].
    rewrite loop_body_after in Hst by assumption.
    destruct (exits maxIterations g k) eqn:Hk; [discriminate|].
    injection Hst as <-. split; [reflexivity|]. intros i Hi.
    destruct (decide (i = k)) as [->|]; [assumption|]. apply Hbefore. lia.
Qed.

Lemma iterations_after scale maxIterations g k :
  wf g →
  (∀ i, (i < k)%nat → exits maxIterations g i = false) →
  iterations k scale maxIterations (initial_state g) =
  Ok (Continue (state_after scale g k)).
Proof.
  intros Hg. induction k as [|k IH]; intros Hbefore; [reflexivity|].
  cbn [iterations]. rewrite IH by (intros i Hi; apply Hbefore; lia).
  rewrite bind_Ok, loop_body_after, Hbefore by (assumption || lia).
  reflexivity.
Qed.

(** C10.  If [k] iterations of the loop of [GenerateGIF] have run without
    leaving it, the grid holds generation [k] and [hash_sums] holds the
    fingerprints of generations 1 to [k], in this order, the fingerprint of
    generation 0 not among the recorded ones; the next iteration does not
    panic, and it sets [stable] exactly when the fingerprint of generation
    [k + 1] is that of a generation [i] with [1 ≤ i ≤ k]. *)
Theorem hash_sums_invariant (g : GameOfLife) (scale maxIterations : Z)
        (k : nat) (st : gen_state) :
  wf g →
  iterations k scale maxIterations (initial_state g) = Ok (Continue st) →
  game st = generation k g ∧
  hash_sums st = (λ i, fingerprint (generation i g)) <$> seq 1 k ∧
  ∃ c, loop_body scale maxIterations st = Ok c ∧
       ((∃ st', c = Break st' true) ↔
        ∃ i, (1 ≤ i ≤ k)%nat ∧
             fingerprint (generation i g) = fingerprint (generation (S k) g)).
Proof.
  intros Hg Hst.
  destruct (iterations_continue scale maxIterations g Hg k st Hst) as [-> _].
  split; [reflexivity|]. split; [reflexivity|].
  eexists. split; [now apply loop_body_after|].
  rewrite <- stable_at_spec. unfold exits.
  destruct (stable_at g k); cbn [orb].
  - split; [reflexivity | eauto].
  - split; [|discriminate]. intros [st' H].
    destruct (Z.of_nat (S k) =? maxIterations); congruence.
Qed.

Lemma hash_sums_invariant_witness :
  wf blinker3 ∧
  iterations 2 4 4 (initial_state blinker3) =
    Ok (Continue (state_after 4 blinker3 2)) ∧
  game (state_after 4 blinker3 2) = generation 2 blinker3 ∧
  hash_sums (state_after 4 blinker3 2) =
    (λ i, fingerprint (generation i blinker3)) <$> seq 1 2 ∧
  ∃ c, loop_body 4 4 (state_after 4 blinker3 2) = Ok c ∧
       ((∃ st', c = Break st' true) ↔
        ∃ i, (1 ≤ i ≤ 2)%nat ∧
             fingerprint (generation i blinker3) =
             fingerprint (generation 3 blinker3)).
Proof.
  pose proof blinker3_wf as Hwf.
  assert (Hit : iterations 2 4 4 (initial_state blinker3) =
                Ok (Continue (state_after 4 blinker3 2))).
  { apply iterations_after; [exact Hwf|]. intros i Hi.
    destruct i as [|[|i]]; [vm_compute; reflexivity | vm_compute; reflexivity | lia]. }
  split; [exact Hwf|]. split; [exact Hit|].
  exact (hash_sums_invariant blinker3 4 4 2 _ Hwf Hit).
Defined.

(** ** C2: the block *)

Lemma generation_fixed g k : next g = g → generation k g = g.
Proof.
  intros Hfix. induction k as [|k IH]; [reflexivity|].
  cbn [generation]. now rewrite IH.
Qed.

Lemma Generate_exit_frames scale maxIterations g fuel st stable :
  wf g →
  Generate fuel g scale maxIterations = Some (Ok (st, stable)) →
  ∃ m, (∀ i, (i < m)%nat → exits maxIterations g i = false) ∧
       exits maxIterations g m = true ∧ stable = stable_at g m ∧
       images st = frames scale g (S m).
Proof.
  intros Hg Hr.
  destruct (Generate_inv scale maxIterations g fuel _ Hg Hr)
    as (m & Hbefore & Hm & Heq).
  exists m. injection Heq as -> ->. now repeat split.
Qed.

(** C2, against the claim.  On a 4×4 grid holding a block, with scale 4 and
    2 iterations at most, every run that ends has put 2 frames in the
    output, those of generations 0 and 1, which are the same generation;
    a run with 2 units of fuel ends, with [stable] set.  [GenerateGIF]
    itself, with its ceiling of 2048, also ends with 2 frames. *)
Lemma block4_frames :
  wf block4 ∧
  (∀ x y, alive block4 x y = block_at 1 1 x y) ∧
  generation 1 block4 = generation 0 block4 ∧
  (∃ st, Generate 2 block4 4 2 = Some (Ok (st, true))) ∧
  (∀ fuel st stable,
     Generate fuel block4 4 2 = Some (Ok (st, stable)) →
     length (images st) = 2%nat ∧
     images st = [frame 4 (generation 0 block4); frame 4 (generation 1 block4)]) ∧
  (∃ st, GenerateGIF 2 block4 = Some (Ok (st, true)) ∧
         length (images st) = 2%nat).
Proof.
  pose proof block4_wf as Hwf.
  pose proof block4_run as Hrun.
  split; [exact Hwf|]. split; [|split; [|split; [|split]]].
  - apply block4_shows.
  - vm_compute. reflexivity.
  - exists (state_exit 4 block4 1). now rewrite Hrun, block4_stable.
  - intros fuel st stable Hr.
    destruct (Generate_same_result _ _ _ _ _ _ _ _ _ Hr Hrun) as [-> _].
    cbn [state_exit images]. split.
    + apply length_frames.
    + unfold frames. cbn [seq fmap list_fmap]. reflexivity.
  - exists (state_exit 4 block4 1).
    rewrite block4_program_run, block4_stable. split; [reflexivity|].
    cbn [state_exit images]. apply length_frames.
Qed.

(** C2, amended.  On a grid that shows a block, for every positive scale
    and every ceiling of at least 2, every run with more than one unit of
    fuel ends with [stable] set and exactly 2 frames, those of generation 0
    and of generation 1, which is generation 0 again: the fingerprint of
    generation 0 is not recorded, so its repetition is found one generation
    late.  In general the frames of a run that ends are those of
    generations [0 .. m] for some [m], and no two generations [i < j] with
    [1 ≤ i] among them are equal. *)
Theorem block_two_frames :
  (∀ g bx by_ scale maxIterations fuel,
     shows g (block_at bx by_) → 0 < scale → 2 ≤ maxIterations →
     (1 < fuel)%nat →
     ∃ st stable,
       Generate fuel g scale maxIterations = Some (Ok (st, stable)) ∧
       reason_of stable = StableCycleDetected ∧
       images st = [frame scale g; frame scale g] ∧
       generation 1 g = g) ∧
  (∀ g scale maxIterations fuel st stable,
     wf g →
     Generate fuel g scale maxIterations = Some (Ok (st, stable)) →
     ∃ m, images st = (λ i, frame scale (generation i g)) <$> seq 0 (S m) ∧
          ∀ i j, (1 ≤ i < j)%nat → (j ≤ m)%nat → generation i g ≠ generation j g).
Proof.
  split.
  - intros g bx by_ scale maxIterations fuel Hg Hs HN Hfuel.
    pose proof (block_still g bx by_ Hg) as Hfix. destruct Hg as [Hwf _].
    assert (Hstable : stable_at g 1 = true).
    { apply stable_at_spec. exists 1%nat. split; [lia|].
      now rewrite !generation_fixed. }
    exists (state_exit scale g 1), (stable_at g 1). split.
    + apply Generate_run; try assumption.
      * intros i Hi. replace i with 0%nat by lia. unfold exits.
        replace (Z.of_nat 1 =? maxIterations) with false
          by (symmetry; apply Z.eqb_neq; lia).
        reflexivity.
      * unfold exits. now rewrite Hstable.
    + rewrite Hstable. split; [reflexivity|]. split.
      * cbn [state_exit images]. unfold frames. cbn [seq fmap list_fmap].
        now rewrite (generation_fixed g 1 Hfix).
      * now apply generation_fixed.
  - intros g scale maxIterations fuel st stable Hwf Hr.
    destruct (Generate_exit_frames _ _ _ _ _ _ Hwf Hr)
      as (m & Hbefore & _ & _ & Himg).
    exists m. split; [exact Himg|]. intros i j Hij Hjm Heq.
    assert (Hj : exits maxIterations g (j - 1) = false) by (apply Hbefore; lia).
    unfold exits in Hj. apply orb_false_iff in Hj as [Hj _].
    assert (Hst : stable_at g (j - 1) = true); [|congruence].
    apply stable_at_spec. exists i. split; [lia|].
    replace (S (j - 1)) with j by lia. now rewrite Heq.
Qed.

Lemma block_two_frames_witness :
  (shows block4 (block_at 1 1) ∧ 0 < 4 ∧ 2 ≤ 2 ∧ (1 < 2)%nat ∧
   ∃ st stable,
     Generate 2 block4 4 2 = Some (Ok (st, stable)) ∧
     reason_of stable = StableCycleDetected ∧
     images st = [frame 4 block4; frame 4 block4] ∧
     generation 1 block4 = block4) ∧
  (wf blinker3 ∧
   Generate 3 blinker3 4 4 =
     Some (Ok (state_exit 4 blinker3 2, stable_at blinker3 2)) ∧
   ∃ m, images (state_exit 4 blinker3 2) =
          (λ i, frame 4 (generation i blinker3)) <$> seq 0 (S m) ∧
        ∀ i j, (1 ≤ i < j)%nat → (j ≤ m)%nat →
               generation i blinker3 ≠ generation j blinker3).
Proof.
  pose proof block4_shows as Hb.
  pose proof blinker3_wf as Hwf.
  pose proof blinker3_run as Hrun.
  split.
  - split; [exact Hb|]. split; [lia|]. split; [lia|]. split; [lia|].
    apply (proj1 block_two_frames block4 1 1 4 2 2%nat Hb); lia.
  - split; [exact Hwf|]. split; [exact Hrun|].
    exact (proj2 block_two_frames blinker3 4 4 3%nat _ _ Hwf Hrun).
Defined.

(** ** C3: the blinker *)

(** C3, against the claim.  On a 3×3 grid holding a horizontal blinker,
    with scale 4 and 4 iterations at most, a run with 3 units of fuel ends
    with [stable] set, and every run that ends has put 3 frames in the
    output: the horizontal phase, the vertical phase and the horizontal
    phase again.  [GenerateGIF] itself also ends with 3 frames. *)
Lemma blinker3_frames :
  wf blinker3 ∧
  (∀ x y, alive blinker3 x y = blinker_h 1 1 x y) ∧
  generation 2 blinker3 = generation 0 blinker3 ∧
  (∃ st, Generate 3 blinker3 4 4 = Some (Ok (st, true))) ∧
  (∀ fuel st stable,
     Generate fuel blinker3 4 4 = Some (Ok (st, stable)) →
     length (images st) = 3%nat ∧
     images st = [frame 4 (generation 0 blinker3);
                  frame 4 (generation 1 blinker3);
                  frame 4 (generation 2 blinker3)]) ∧
  (∃ st, GenerateGIF 3 blinker3 = Some (Ok (st, true)) ∧
         length (images st) = 3%nat).
Proof.
  pose proof blinker3_wf as Hwf.
  pose proof blinker3_run as Hrun.
  split; [exact Hwf|]. split; [|split; [|split; [|split]]].
  - apply blinker3_shows.
  - vm_compute. reflexivity.
  - exists (state_exit 4 blinker3 2). now rewrite Hrun, blinker3_stable.
  - intros fuel st stable Hr.
    destruct (Generate_same_result _ _ _ _ _ _ _ _ _ Hr Hrun) as [-> _].
    cbn [state_exit images]. split.
    + apply length_frames.
    + unfold frames. cbn [seq fmap list_fmap]. reflexivity.
  - exists (state_exit 4 blinker3 2).
    rewrite blinker3_program_run, blinker3_stable. split; [reflexivity|].
    cbn [state_exit images]. apply length_frames.
Qed.

(** C3, amended.  On a grid whose width is an [int] and that shows a
    horizontal blinker with a row of the grid above and below it, for
    every positive scale and every ceiling of at least 4, every run with
    more than 2 units of fuel ends with [stable] set and exactly 3 frames:
    the horizontal phase, the vertical phase, and the horizontal phase
    again, whose fingerprint had not been recorded when it was generation
    0.  The two phases are told apart: their fingerprints differ. *)
Theorem blinker_three_frames (g : GameOfLife) (cx cy scale maxIterations : Z)
        (fuel : nat) :
  shows g (blinker_h cx cy) → 1 ≤ cy → cy + 1 < height g →
  is_int (width g) →
  0 < scale → 4 ≤ maxIterations → (2 < fuel)%nat →
  ∃ st stable,
    Generate fuel g scale maxIterations = Some (Ok (st, stable)) ∧
    reason_of stable = StableCycleDetected ∧
    images st = [frame scale g; frame scale (next g); frame scale g] ∧
    shows (next g) (blinker_v cx cy) ∧ generation 2 g = g ∧
    fingerprint (next g) ≠ fingerprint g.
Proof.
  intros Hg Hlo Hhi [_ Hint] Hs HN Hfuel.
  pose proof (blinker_fingerprints_differ g cx cy Hg Hlo Hhi Hint) as Hfp.
  destruct (blinker_turns g cx cy Hg Hlo Hhi) as [Hv Hback].
  destruct Hg as [Hwf _].
  assert (Hstable : stable_at g 2 = true).
  { apply stable_at_spec. exists 1%nat. split; [lia|].
    cbn [generation]. now rewrite Hback. }
  exists (state_exit scale g 2), (stable_at g 2). split.
  - apply Generate_run; try assumption.
    + intros i Hi. unfold exits.
      replace (Z.of_nat (S i) =? maxIterations) with false
        by (symmetry; apply Z.eqb_neq; lia).
      rewrite orb_false_r. apply not_true_is_false.
      intros (k & Hk & Heq)%stable_at_spec.
      destruct i as [|[|i]]; [lia | | lia].
      replace k with 1%nat in Heq by lia. cbn [generation] in Heq.
      rewrite Hback in Heq. contradiction.
    + unfold exits. now rewrite Hstable.
  - rewrite Hstable. split; [reflexivity|].
    split; [|split; [exact Hv | split; [exact Hback | exact Hfp]]].
    cbn [state_exit images]. unfold frames. cbn [seq fmap list_fmap generation].
    now rewrite Hback.
Qed.

Lemma blinker_three_frames_witness :
  shows blinker3 (blinker_h 1 1) ∧ 1 ≤ 1 ∧ 1 + 1 < height blinker3 ∧
  is_int (width blinker3) ∧
  0 < 4 ∧ 4 ≤ 4 ∧ (2 < 3)%nat ∧
  ∃ st stable,
    Generate 3 blinker3 4 4 = Some (Ok (st, stable)) ∧
    reason_of stable = StableCycleDetected ∧
    images st = [frame 4 blinker3; frame 4 (next blinker3); frame 4 blinker3] ∧
    shows (next blinker3) (blinker_v 1 1) ∧ generation 2 blinker3 = blinker3 ∧
    fingerprint (next blinker3) ≠ fingerprint blinker3.
Proof.
  pose proof blinker3_shows as Hb.
  assert (Hh : 1 + 1 < height blinker3) by (cbn; lia).
  assert (Hw : is_int (width blinker3))
    by (unfold is_int, MinInt, MaxInt; cbn; lia).
  split; [exact Hb|]. split; [lia|]. split; [exact Hh|]. split; [exact Hw|].
  split; [lia|]. split; [lia|]. split; [lia|].
  apply (blinker_three_frames blinker3 1 1 4 4 3 Hb); (assumption || lia).
Defined.

(** ** C5: the iteration ceiling *)

(** C5, against the claim.  The column of 70 cells has four different
    generations 0, 1, 2 and 3, so no state repeats within the first 3
    generations, or the first 4; but generations 1 and 2 have the same
    CRC-64 fingerprint, and with 3 iterations at most every run that ends
    has [stable] set and 2 frames, not 3.  [GenerateGIF] itself ends
    there too, on a grid that has not entered a cycle. *)
Lemma column70_collision :
  wf column70 ∧
  (∀ i j, (i < j)%nat → (j ≤ 3)%nat →
          generation i column70 ≠ generation j column70) ∧
  fingerprint (generation 1 column70) = fingerprint (generation 2 column70) ∧
  (∃ st, Generate 2 column70 4 3 = Some (Ok (st, true))) ∧
  (∀ fuel st stable,
     Generate fuel column70 4 3 = Some (Ok (st, stable)) →
     stable = true ∧ reason_of stable = StableCycleDetected ∧
     length (images st) = 2%nat) ∧
  (∃ st, GenerateGIF 2 column70 = Some (Ok (st, true)) ∧
         length (images st) = 2%nat).
Proof.
  pose proof column70_wf as Hwf.
  pose proof column70_stable as Hst.
  pose proof column70_run as Hrun.
  split; [exact Hwf|]. split; [|split; [|split; [|split]]].
  - intros i j Hij Hj Heq. apply (f_equal data) in Heq.
    destruct j as [|[|[|[|j]]]]; [lia | | | | lia];
      destruct i as [|[|[|i]]]; try lia;
      vm_compute in Heq; discriminate Heq.
  - vm_compute. reflexivity.
  - exists (state_exit 4 column70 1). now rewrite Hrun, Hst.
  - intros fuel st stable Hr.
    destruct (Generate_same_result _ _ _ _ _ _ _ _ _ Hr Hrun) as [-> ->].
    rewrite Hst. split; [reflexivity|]. split; [reflexivity|].
    cbn [state_exit images]. apply length_frames.
  - exists (state_exit 4 column70 1).
    rewrite column70_program_run, Hst. split; [reflexivity|].
    cbn [state_exit images]. apply length_frames.
Qed.

(** C5, amended.  For every [N ≥ 1] and every well-formed grid in which
    the generations 1 to [N] have fingerprints different from one another
    (generation 0 is not fingerprinted), every run with ceiling [N] and at
    least [N] units of fuel ends with [stable] unset, so for the reason
    [IterationLimitReached], and with exactly [N] frames, those of
    generations 0 to [N - 1]. *)
Theorem limit_reached (g : GameOfLife) (scale : Z) (N fuel : nat) :
  wf g → (1 ≤ N)%nat →
  (∀ i j, (1 ≤ i < j)%nat → (j ≤ N)%nat →
          fingerprint (generation i g) ≠ fingerprint (generation j g)) →
  (N ≤ fuel)%nat →
  ∃ st stable,
    Generate fuel g scale (Z.of_nat N) = Some (Ok (st, stable)) ∧
    reason_of stable = IterationLimitReached ∧
    images st = (λ i, frame scale (generation i g)) <$> seq 0 N ∧
    length (images st) = N.
Proof.
  intros Hwf HN Hfp Hfuel.
  assert (Hnot : ∀ i, (i < N)%nat → stable_at g i = false).
  { intros i Hi. apply not_true_is_false.
    intros (k & Hk & Heq)%stable_at_spec. apply (Hfp k (S i)); (lia || assumption). }
  destruct N as [|m]; [lia|].
  exists (state_exit scale g m), (stable_at g m). split.
  - apply Generate_run; try assumption; try lia.
    + intros i Hi. unfold exits. rewrite Hnot by lia.
      cbn [orb]. apply Z.eqb_neq. lia.
    + unfold exits. rewrite Z.eqb_refl. apply orb_true_r.
  - rewrite Hnot by lia. split; [reflexivity|]. cbn [state_exit images].
    split; [reflexivity | apply length_frames].
Qed.

Lemma limit_reached_witness :
  wf blinker3 ∧ (1 ≤ 2)%nat ∧
  (∀ i j, (1 ≤ i < j)%nat → (j ≤ 2)%nat →
          fingerprint (generation i blinker3) ≠
          fingerprint (generation j blinker3)) ∧
  (2 ≤ 2)%nat ∧
  ∃ st stable,
    Generate 2 blinker3 4 (Z.of_nat 2) = Some (Ok (st, stable)) ∧
    reason_of stable = IterationLimitReached ∧
    images st = (λ i, frame 4 (generation i blinker3)) <$> seq 0 2 ∧
    length (images st) = 2%nat.
Proof.
  pose proof blinker3_wf as Hwf.
  assert (Hfp : ∀ i j, (1 ≤ i < j)%nat → (j ≤ 2)%nat →
                       fingerprint (generation i blinker3) ≠
                       fingerprint (generation j blinker3)).
  { intros i j Hij Hj.
    assert (i = 1%nat) as -> by lia. assert (j = 2%nat) as -> by lia.
    vm_compute. discriminate. }
  split; [exact Hwf|]. split; [lia|]. split; [exact Hfp|]. split; [lia|].
  apply (limit_reached blinker3 4 2 2 Hwf); (assumption || lia).
Defined.

(** * Further properties of the code *)

(** ** The grid engine *)

Lemma Set_alive g x y v g' e :
  wf g → Set_ g x y v = Ok (g', e) →
  wf g' ∧ width g' = width g ∧ height g' = height g ∧
  ∀ x' y', alive g' x' y' =
           if in_boundsb g x y && ((x' =? x) && (y' =? y)) then v
           else alive g x' y'.
Proof.
  intros Hg Hset. pose proof (Set_wf g x y v g' e Hg Hset) as Hg'.
  split; [assumption|].
  destruct (in_boundsb_spec g x y) as [Hin|Hout].
  - destruct (Set_inside g x y v (wf_shaped g Hg) Hin)
      as (g1 & Hg1 & Hw & Hh & _ & Hcd & _).
    assert (g1 = g') as -> by congruence.
    do 2 (split; [assumption|]). intros x' y'. cbn [andb].
    unfold alive, in_boundsb. rewrite Hw, Hh, Hcd.
    destruct ((x' =? x) && (y' =? y)) eqn:E; [|reflexivity].
    apply andb_true_iff in E as [->%Z.eqb_eq ->%Z.eqb_eq].
    fold (in_boundsb g x y). now destruct (in_boundsb_spec g x y).
  - rewrite Set_outside in Hset by assumption.
    assert (g' = g) as -> by congruence. now repeat split.
Qed.

Lemma wf_alive_ext g1 g2 :
  wf g1 → wf g2 → width g1 = width g2 → height g1 = height g2 →
  (∀ x y, alive g1 x y = alive g2 x y) → g1 = g2.
Proof.
  intros H1 H2 Hw Hh Ha. apply wf_ext; try assumption.
  intros x y Hin. rewrite <- (alive_inside g1), <- (alive_inside g2).
  - apply Ha.
  - unfold in_bounds in *. now rewrite <- Hw, <- Hh.
  - assumption.
Qed.

(** X1.  [NewGameOfLife] returns the error "invalid size" and no grid when
    a dimension is not positive; otherwise it returns a grid of the given
    dimensions in which [At] is false at every coordinate, on the grid or
    off it. *)
Theorem NewGameOfLife_all_dead (w h : Z) :
  (w ≤ 0 ∨ h ≤ 0 →
   NewGameOfLife w h = Ok (None, Some "invalid size"%string)) ∧
  (0 < w → 0 < h →
   ∃ g, NewGameOfLife w h = Ok (Some g, None) ∧
        GetWidth g = w ∧ GetHeight g = h ∧ wf g ∧
        ∀ x y, At g x y = Ok false).
Proof.
  split.
  - apply NewGameOfLife_invalid.
  - intros Hw Hh. eexists. split; [now apply NewGameOfLife_valid|].
    do 2 (split; [reflexivity|]). pose proof (wf_new w h Hw Hh) as Hwf.
    split; [assumption|]. intros x y.
    rewrite At_alive by apply Hwf. unfold alive. cbn [data].
    now rewrite cell_make, andb_false_r.
Qed.

Lemma NewGameOfLife_all_dead_witness :
  (0 ≤ 0 ∨ 5 ≤ 0) ∧
  NewGameOfLife 0 5 = Ok (None, Some "invalid size"%string) ∧
  0 < 3 ∧ 0 < 2 ∧
  ∃ g, NewGameOfLife 3 2 = Ok (Some g, None) ∧
       GetWidth g = 3 ∧ GetHeight g = 2 ∧ wf g ∧
       ∀ x y, At g x y = Ok false.
Proof.
  assert (H0 : 0 ≤ 0 ∨ 5 ≤ 0) by lia.
  split; [exact H0|].
  split; [exact (proj1 (NewGameOfLife_all_dead 0 5) H0)|].
  split; [lia|]. split; [lia|].
  apply (proj2 (NewGameOfLife_all_dead 3 2)); lia.
Defined.

(** X2.  On a well-formed grid, [At] after a [Set] inside the grid reads
    the value written at that coordinate and what it read before at every
    other coordinate. *)
Theorem Set_then_At (g : GameOfLife) (x y : Z) (val : bool) :
  wf g → in_bounds g x y →
  ∃ g', Set_ g x y val = Ok (g', None) ∧
        At g' x y = Ok val ∧
        ∀ x' y', (x', y') ≠ (x, y) → At g' x' y' = At g x' y'.
Proof.
  intros Hg Hin.
  destruct (Set_inside g x y val (wf_shaped g Hg) Hin) as (g' & Hs & _).
  destruct (Set_alive g x y val g' None Hg Hs) as (Hg' & _ & _ & Ha).
  exists g'. split; [assumption|].
  rewrite !At_alive by (apply Hg' || apply Hg). split.
  - rewrite Ha, !Z.eqb_refl. now destruct (in_boundsb_spec g x y).
  - intros x' y' Hne. rewrite At_alive by apply Hg'. rewrite At_alive by apply Hg.
    rewrite Ha.
    destruct (Z.eqb_spec x' x) as [->|]; [|now rewrite andb_false_r].
    destruct (Z.eqb_spec y' y) as [->|]; [congruence | now rewrite andb_false_r].
Qed.

Lemma Set_then_At_witness :
  wf blinker3 ∧ in_bounds blinker3 0 0 ∧
  ∃ g', Set_ blinker3 0 0 true = Ok (g', None) ∧
        At g' 0 0 = Ok true ∧
        ∀ x' y', (x', y') ≠ (0, 0) → At g' x' y' = At blinker3 x' y'.
Proof.
  assert (Hin : in_bounds blinker3 0 0) by (unfold in_bounds; cbn; lia).
  split; [exact blinker3_wf|]. split; [exact Hin|].
  exact (Set_then_At blinker3 0 0 true blinker3_wf Hin).
Defined.

(** X3.  On a well-formed grid two [Set]s at different coordinates, inside
    the grid or not, give the same grid and the same errors in either
    order. *)
Theorem Set_commutes (g : GameOfLife) (x1 y1 x2 y2 : Z) (v1 v2 : bool) :
  wf g → (x1, y1) ≠ (x2, y2) →
  ∃ ga gb g' e1 e2,
    Set_ g x1 y1 v1 = Ok (ga, e1) ∧ Set_ ga x2 y2 v2 = Ok (g', e2) ∧
    Set_ g x2 y2 v2 = Ok (gb, e2) ∧ Set_ gb x1 y1 v1 = Ok (g', e1).
Proof.
  intros Hg Hne.
  assert (Hex : ∀ g x y v, wf g →
            ∃ g' e, Set_ g x y v = Ok (g', e) ∧
                    e = if in_boundsb g x y then None
                        else Some "out of bounds"%string).
  { intros g0 x y v Hg0. destruct (in_boundsb_spec g0 x y) as [Hin|Hout].
    - destruct (Set_inside g0 x y v (wf_shaped g0 Hg0) Hin) as (g' & Hs & _).
      eauto.
    - exists g0, (Some "out of bounds"%string). split; [|reflexivity].
      now apply Set_outside. }
  destruct (Hex g x1 y1 v1 Hg) as (ga & e1 & Ha & He1).
  destruct (Set_alive g x1 y1 v1 ga e1 Hg Ha) as (Hga & Hwa & Hha & Hca).
  destruct (Hex ga x2 y2 v2 Hga) as (g' & e2 & Hab & He2).
  destruct (Set_alive ga x2 y2 v2 g' e2 Hga Hab) as (Hg' & Hw' & Hh' & Hc').
  destruct (Hex g x2 y2 v2 Hg) as (gb & e2' & Hb & He2').
  destruct (Set_alive g x2 y2 v2 gb e2' Hg Hb) as (Hgb & Hwb & Hhb & Hcb).
  destruct (Hex gb x1 y1 v1 Hgb) as (g'' & e1' & Hba & He1').
  destruct (Set_alive gb x1 y1 v1 g'' e1' Hgb Hba) as (Hg'' & Hw'' & Hh'' & Hc'').
  assert (Hbnd : ∀ x y, in_boundsb ga x y = in_boundsb g x y ∧
                        in_boundsb gb x y = in_boundsb g x y).
  { intros x y. unfold in_boundsb. now rewrite Hwa, Hha, Hwb, Hhb. }
  assert (e2' = e2) as -> by (rewrite He2, He2'; now rewrite (proj1 (Hbnd x2 y2))).
  assert (e1' = e1) as -> by (rewrite He1, He1'; now rewrite (proj2 (Hbnd x1 y1))).
  assert (g'' = g') as ->.
  { apply wf_alive_ext; try assumption; try congruence.
    intros x y. rewrite Hc'', Hcb, Hc', Hca.
    rewrite (proj1 (Hbnd x2 y2)), (proj2 (Hbnd x1 y1)).
    destruct (Z.eqb_spec x x1), (Z.eqb_spec y y1),
      (Z.eqb_spec x x2), (Z.eqb_spec y y2);
      rewrite ?andb_false_r, ?andb_true_r; cbn [andb]; try reflexivity.
    exfalso. apply Hne. congruence. }
  exists ga, gb, g', e1, e2. now repeat split.
Qed.

Lemma Set_commutes_witness :
  wf blinker3 ∧ (0, 0) ≠ (5, 1) ∧
  ∃ ga gb g' e1 e2,
    Set_ blinker3 0 0 true = Ok (ga, e1) ∧ Set_ ga 5 1 false = Ok (g', e2) ∧
    Set_ blinker3 5 1 false = Ok (gb, e2) ∧ Set_ gb 0 0 true = Ok (g', e1).
Proof.
  assert (Hne : (0, 0) ≠ (5, 1)) by congruence.
  split; [exact blinker3_wf|]. split; [exact Hne|].
  exact (Set_commutes blinker3 0 0 5 1 true false blinker3_wf Hne).
Defined.

(** X4.  On a grid whose buffers have its dimensions, [Flush] does not
    panic; it makes the current buffer equal to the staging buffer, leaves
    the staging buffer and the dimensions as they were, and a second
    [Flush] changes nothing. *)
Theorem Flush_copies_back_buffer (g : GameOfLife) :
  shaped g →
  ∃ g', Flush g = Ok g' ∧ data g' = back_buffer g ∧
        back_buffer g' = back_buffer g ∧
        width g' = width g ∧ height g' = height g ∧ Flush g' = Ok g'.
Proof.
  intros Hg. destruct (Flush_ok g Hg) as (g' & Hf & Hw & Hh & Hb & Hd).
  exists g'. do 5 (split; [assumption|]).
  assert (Hg' : shaped g').
  { destruct Hg as [? ? ? Hbs]. split; rewrite ?Hw, ?Hh, ?Hd, ?Hb; assumption. }
  destruct (Flush_ok g' Hg') as (g'' & Hf' & Hw' & Hh' & Hb' & Hd').
  rewrite Hf'. f_equal.
  destruct g' as [w' h' d' b'], g'' as [w'' h'' d'' b'']; cbn in *. congruence.
Qed.

Lemma Flush_copies_back_buffer_witness :
  shaped unsynced1 ∧
  ∃ g', Flush unsynced1 = Ok g' ∧ data g' = back_buffer unsynced1 ∧
        back_buffer g' = back_buffer unsynced1 ∧
        width g' = width unsynced1 ∧ height g' = height unsynced1 ∧
        Flush g' = Ok g'.
Proof.
  assert (Hs : shaped unsynced1).
  { split; cbn; try lia; (split; [reflexivity | repeat constructor]). }
  split; [exact Hs|]. exact (Flush_copies_back_buffer unsynced1 Hs).
Defined.

(** X5.  [CellValue] does not panic at any coordinate, on the grid or off
    it; its result is between 0 and 8, and it does not depend on the cell
    at the coordinate itself: after a [Set] there it is the same. *)
Theorem CellValue_excludes_centre (g : GameOfLife) (x y : Z) (val : bool) :
  wf g →
  ∃ n g' e, CellValue g x y = Ok n ∧ 0 ≤ n ≤ 8 ∧
            Set_ g x y val = Ok (g', e) ∧ CellValue g' x y = Ok n.
Proof.
  intros Hg.
  assert (Hex : ∃ g' e, Set_ g x y val = Ok (g', e)).
  { destruct (in_boundsb_spec g x y) as [Hin|Hout].
    - destruct (Set_inside g x y val (wf_shaped g Hg) Hin) as (g' & Hs & _).
      eauto.
    - rewrite Set_outside by assumption. eauto. }
  destruct Hex as (g' & e & Hs).
  destruct (Set_alive g x y val g' e Hg Hs) as (Hg' & _ & _ & Ha).
  exists (neighbors g x y), g', e.
  split; [apply CellValue_ok, Hg|]. split; [apply neighbors_range|].
  split; [assumption|]. rewrite CellValue_ok by apply Hg'. f_equal.
  unfold neighbors. rewrite !Ha.
  repeat match goal with
    | |- context [?a =? ?b] =>
        first [ replace (a =? b) with false by (symmetry; apply Z.eqb_neq; lia)
              | replace (a =? b) with true by (symmetry; apply Z.eqb_eq; lia) ]
    end.
  now rewrite ?andb_false_r, ?andb_false_l.
Qed.

Lemma CellValue_excludes_centre_witness :
  wf blinker3 ∧
  ∃ n g' e, CellValue blinker3 1 1 = Ok n ∧ 0 ≤ n ≤ 8 ∧
            Set_ blinker3 1 1 false = Ok (g', e) ∧ CellValue g' 1 1 = Ok n.
Proof.
  split; [exact blinker3_wf|].
  exact (CellValue_excludes_centre blinker3 1 1 false blinker3_wf).
Defined.

Lemma life_single cx cy x y : life (single_at cx cy) x y = nothing x y.
Proof.
  unfold life, count, rule, single_at, nothing.
  by_position x cx; by_position y cy; zsettle; reflexivity.
Qed.

Lemma life_nothing x y : life nothing x y = nothing x y.
Proof. reflexivity. Qed.

(** X6.  A grid whose only alive cell is [(cx, cy)] is all dead after one
    [Update], and a grid that is all dead is left as it is by [Update]. *)
Theorem lone_cell_dies :
  (∀ g cx cy, shows g (single_at cx cy) →
     ∃ g', Update g = Ok g' ∧ (∀ x y, At g' x y = Ok false) ∧
           Update g' = Ok g') ∧
  (∀ g, wf g → (∀ x y, At g x y = Ok false) → Update g = Ok g).
Proof.
  assert (Hdead : ∀ g, shows g nothing → next g = g).
  { intros g Hg. pose proof Hg as [Hwf _].
    destruct (next_spec g Hwf) as (_ & Hw & Hh & _).
    apply (shows_unique _ _ nothing); try assumption.
    apply (shows_next g nothing); [assumption | apply life_nothing |].
    intros x y E. discriminate. }
  split.
  - intros g cx cy Hg. pose proof Hg as [Hwf _].
    assert (Hn : shows (next g) nothing).
    { apply (shows_next g (single_at cx cy)); [assumption | apply life_single |].
      intros x y E. discriminate. }
    exists (next g). split; [now apply Update_next|]. split.
    + intros x y. destruct Hn as [Hwn Hnn].
      rewrite At_alive by apply Hwn. now rewrite Hnn.
    + rewrite Update_next by apply Hn. f_equal. now apply Hdead.
  - intros g Hwf Hat. rewrite Update_next by assumption. f_equal.
    apply Hdead. split; [assumption|]. intros x y.
    specialize (Hat x y). rewrite At_alive in Hat by apply Hwf.
    injection Hat as ->. reflexivity.
Qed.

Lemma lone_cell_dies_witness :
  (shows dot1 (single_at 0 0) ∧
   ∃ g', Update dot1 = Ok g' ∧ (∀ x y, At g' x y = Ok false) ∧
         Update g' = Ok g') ∧
  (wf (grid_of [[false; false]]) ∧
   (∀ x y, At (grid_of [[false; false]]) x y = Ok false) ∧
   Update (grid_of [[false; false]]) = Ok (grid_of [[false; false]])).
Proof.
  assert (Hd : shows dot1 (single_at 0 0)).
  { split; [apply wfb_wf; reflexivity|]. intros x y.
    unfold alive, in_boundsb, single_at. cbn [width height dot1 grid_of length hd Z.of_nat Pos.of_succ_nat].
    assert (Hx : x < 0 ∨ x = 0 ∨ 1 ≤ x) by lia.
    assert (Hy : y < 0 ∨ y = 0 ∨ 1 ≤ y) by lia.
    destruct Hx as [Hx|[Hx|Hx]], Hy as [Hy|[Hy|Hy]];
      try subst x; try subst y; zsettle; reflexivity. }
  assert (Hw : wf (grid_of [[false; false]])) by (apply wfb_wf; reflexivity).
  assert (Ha : ∀ x y, At (grid_of [[false; false]]) x y = Ok false).
  { intros x y. rewrite At_alive by apply Hw. unfold alive, in_boundsb.
    cbn [width height grid_of length hd Z.of_nat Pos.of_succ_nat Pos.succ].
    assert (Hx : x < 0 ∨ x = 0 ∨ x = 1 ∨ 2 ≤ x) by lia.
    assert (Hy : y < 0 ∨ y = 0 ∨ 1 ≤ y) by lia.
    destruct Hx as [Hx|[Hx|[Hx|Hx]]], Hy as [Hy|[Hy|Hy]];
      try subst x; try subst y; zsettle; reflexivity. }
  split.
  - split; [exact Hd|]. exact (proj1 lone_cell_dies dot1 0 0 Hd).
  - split; [exact Hw|]. split; [exact Ha|].
    exact (proj2 lone_cell_dies _ Hw Ha).
Defined.

(** X7.  With corners that are [int]s and [x1], [y1] less than [MaxInt],
    [DrawRect] returns; it sets to the colour the points of the closed
    rectangle from [(x0, y0)] to [(x1, y1)] that lie in the raster and no
    other; it sets nothing when [x1 < x0] or [y1 < y0], and keeps the
    bounds. *)
Theorem DrawRect_paints_closed_rectangle
        (x0 y0 x1 y1 : Z) (col : Color) (img : image.Paletted) :
  is_int x0 → is_int y0 → is_int x1 → is_int y1 →
  x1 < MaxInt → y1 < MaxInt →
  ∃ img', DrawRect x0 y0 x1 y1 col img = Ok img' ∧
          image.Bounds img' = image.Bounds img ∧
          (∀ X Y, image.ColorIndexAt img' X Y =
                  if image.In X Y (image.Bounds img)
                     && ((x0 <=? X) && (X <=? x1) && (y0 <=? Y) && (Y <=? y1))
                  then palette_index col
                  else image.ColorIndexAt img X Y) ∧
          (x1 < x0 ∨ y1 < y0 →
           ∀ X Y, image.ColorIndexAt img' X Y = image.ColorIndexAt img X Y).
Proof.
  intros _ _ _ _ _ _.
  destruct (DrawRect_ok x0 y0 x1 y1 col img) as (img' & Hd & Hb & Hc).
  exists img'. do 2 (split; [assumption|]). split; [exact Hc|].
  intros Hempty X Y. rewrite Hc.
  replace (in_rect x0 y0 x1 y1 X Y) with false by (unfold in_rect; zbool).
  now rewrite andb_false_r.
Qed.

Lemma DrawRect_paints_closed_rectangle_witness :
  is_int 1 ∧ is_int 0 ∧ is_int 2 ∧ is_int 1 ∧ 2 < MaxInt ∧ 1 < MaxInt ∧
  ∃ img', DrawRect 1 0 2 1 Black (image.NewPaletted (image.mkRect 0 0 4 4))
          = Ok img' ∧
          image.Bounds img' = image.mkRect 0 0 4 4 ∧
          (∀ X Y, image.ColorIndexAt img' X Y =
                  if image.In X Y (image.mkRect 0 0 4 4)
                     && ((1 <=? X) && (X <=? 2) && (0 <=? Y) && (Y <=? 1))
                  then palette_index Black
                  else image.ColorIndexAt
                         (image.NewPaletted (image.mkRect 0 0 4 4)) X Y) ∧
          (2 < 1 ∨ 1 < 0 →
           ∀ X Y, image.ColorIndexAt img' X Y =
                  image.ColorIndexAt
                    (image.NewPaletted (image.mkRect 0 0 4 4)) X Y).
Proof.
  assert (H0 : is_int 0) by (unfold is_int, MinInt, MaxInt; lia).
  assert (H1 : is_int 1) by (unfold is_int, MinInt, MaxInt; lia).
  assert (H2 : is_int 2) by (unfold is_int, MinInt, MaxInt; lia).
  assert (Hx : 2 < MaxInt) by (unfold MaxInt; lia).
  assert (Hy : 1 < MaxInt) by (unfold MaxInt; lia).
  do 6 (split; [assumption|]).
  exact (DrawRect_paints_closed_rectangle 1 0 2 1 Black
           (image.NewPaletted (image.mkRect 0 0 4 4)) H1 H0 H2 H1 Hx Hy).
Defined.

(** ** The text rendering and the terminal loop *)

Lemma seq_to_nat_succ j :
  0 ≤ j → seq 0 (Z.to_nat (j + 1)) = seq 0 (Z.to_nat j) ++ [Z.to_nat j].
Proof.
  intros Hj. replace (Z.to_nat (j + 1)) with (S (Z.to_nat j)) by lia.
  now rewrite seq_S.
Qed.

Lemma Text_ok g : shaped g → Text g = Ok (text_of g).
Proof.
  intros [Hw Hh Hd _]. unfold Text.
  set (rows := λ i : Z, concat ((λ i, row_text g (Z.of_nat i) ++ [newline])
                                  <$> seq 0 (Z.to_nat i))).
  match goal with
  | |- context [for_range 0 (height g) ?body ?b0] =>
      destruct (for_range_inv (λ i buf, buf = rows i) body 0 (height g) b0)
        as (t & Hrun & Ht)
  end.
  - lia.
  - reflexivity.
  - intros i buf Hi ->.
    match goal with
    | |- context [for_range 0 (width g) ?body ?b0] =>
        destruct (for_range_inv
          (λ j buf, buf = rows i ++
                      ((λ j, cell_char (alive g (Z.of_nat j) i))
                         <$> seq 0 (Z.to_nat j)))
          body 0 (width g) b0) as (b & Hrow & Hb)
    end.
    + lia.
    + cbn. now rewrite app_nil_r.
    + intros j buf Hj ->. rewrite At_alive, bind_Ok by assumption.
      exists (rows i ++ ((λ j, cell_char (alive g (Z.of_nat j) i))
                           <$> seq 0 (Z.to_nat (j + 1)))).
      split; [|reflexivity].
      rewrite seq_to_nat_succ, fmap_app, app_assoc by lia. cbn [fmap list_fmap].
      rewrite Z2Nat.id by lia. now destruct (alive g j i).
    + rewrite Hrow, bind_Ok. eexists. split; [reflexivity|].
      subst b. unfold rows. rewrite (seq_to_nat_succ i), fmap_app, concat_app by lia.
      cbn [fmap list_fmap concat]. rewrite app_nil_r, Z2Nat.id by lia.
      unfold row_text. now rewrite app_assoc.
  - rewrite Hrun. now subst t.
Qed.

Lemma Split_line (r rest : list ascii) (sep : ascii) :
  sep ∉ r → Split (r ++ sep :: rest) sep = r :: Split rest sep.
Proof.
  induction r as [|c r IH]; intros Hr; cbn [app Split].
  - now rewrite Ascii.eqb_refl.
  - destruct (Ascii.eqb_spec c sep) as [->|Hne].
    + exfalso. apply Hr. left.
    + rewrite IH; [reflexivity|]. intros Hin. apply Hr. now right.
Qed.

Lemma Split_lines (rows : list (list ascii)) (sep : ascii) :
  Forall (λ r, sep ∉ r) rows →
  Split (concat ((λ r, r ++ [sep]) <$> rows)) sep = rows ++ [[]].
Proof.
  induction 1 as [|r rows Hr _ IH]; [reflexivity|].
  cbn [fmap list_fmap concat app]. rewrite <- app_assoc. cbn [app].
  now rewrite Split_line, IH.
Qed.

Lemma Split_nonempty s sep : Split s sep ≠ [].
Proof.
  induction s as [|c s IH]; cbn [Split]; [discriminate|].
  destruct (Ascii.eqb c sep); [discriminate|].
  destruct (Split s sep); [contradiction | discriminate].
Qed.

Lemma row_text_chars g i c :
  c ∈ row_text g i → c = "o"%char ∨ c = " "%char.
Proof.
  unfold row_text. intros (j & -> & _)%list_elem_of_fmap.
  destruct (alive g _ i); [now left | now right].
Qed.

Lemma row_text_no_newline g i : newline ∉ row_text g i.
Proof. intros [H|H]%row_text_chars; discriminate. Qed.

Lemma length_row_text g i : length (row_text g i) = Z.to_nat (width g).
Proof. unfold row_text. now rewrite length_fmap, length_seq. Qed.

(** The lines of the text of a grid: its rows, and an empty line after the
    last line feed. *)
Lemma Split_text_of g :
  Split (text_of g) newline =
  ((λ i, row_text g (Z.of_nat i)) <$> seq 0 (Z.to_nat (height g))) ++ [[]].
Proof.
  unfold text_of.
  rewrite <- (Split_lines ((λ i, row_text g (Z.of_nat i))
                             <$> seq 0 (Z.to_nat (height g))) newline).
  - f_equal. f_equal. rewrite <- list_fmap_compose. reflexivity.
  - apply Forall_fmap, Forall_forall. intros i _. apply row_text_no_newline.
Qed.

Lemma length_text_of g :
  0 ≤ width g → len (text_of g) = height g * (width g + 1) ∨ height g < 0.
Proof.
  intros Hw. destruct (Z.lt_ge_cases (height g) 0) as [Hh|Hh]; [now right|].
  left. unfold text_of, len.
  assert (H : ∀ n, length (concat ((λ i, row_text g (Z.of_nat i) ++ [newline])
                                     <$> seq 0 n))
                   = (n * (Z.to_nat (width g) + 1))%nat).
  { induction n as [|n IH]; [reflexivity|].
    rewrite seq_S, fmap_app, concat_app, length_app, IH.
    cbn [fmap list_fmap concat]. rewrite app_nil_r, length_app, length_row_text.
    cbn [length]. lia. }
  rewrite H. nia.
Qed.

(** X8.  On a well-formed grid [Text] does not panic and returns
    [height · (width + 1)] bytes: for each row, top to bottom, one byte for
    each cell, left to right, ["o"] for an alive cell and a space for a
    dead one, and then a line feed.  Split at the line feeds it is the rows
    of the grid followed by one empty line. *)
Theorem Text_renders_rows (g : GameOfLife) :
  wf g →
  ∃ t, Text g = Ok t ∧
       t = concat ((λ i : nat,
                      ((λ j : nat,
                          if alive g (Z.of_nat j) (Z.of_nat i)
                          then "o"%char else " "%char)
                         <$> seq 0 (Z.to_nat (width g))) ++ [newline])
                     <$> seq 0 (Z.to_nat (height g))) ∧
       len t = height g * (width g + 1) ∧
       len (Split t newline) = height g + 1.
Proof.
  intros [Hg _]. exists (text_of g). split; [now apply Text_ok|].
  split; [reflexivity|]. destruct Hg as [Hw Hh _ _]. split.
  - destruct (length_text_of g) as [H|H]; [lia | assumption | lia].
  - rewrite Split_text_of. unfold len.
    rewrite length_app, length_fmap, length_seq. cbn [length]. lia.
Qed.

Lemma Text_renders_rows_witness :
  wf blinker3 ∧
  ∃ t, Text blinker3 = Ok t ∧
       t = concat ((λ i : nat,
                      ((λ j : nat,
                          if alive blinker3 (Z.of_nat j) (Z.of_nat i)
                          then "o"%char else " "%char)
                         <$> seq 0 (Z.to_nat (width blinker3))) ++ [newline])
                     <$> seq 0 (Z.to_nat (height blinker3))) ∧
       len t = height blinker3 * (width blinker3 + 1) ∧
       len (Split t newline) = height blinker3 + 1.
Proof.
  split; [exact blinker3_wf|]. exact (Text_renders_rows blinker3 blinker3_wf).
Defined.

Lemma TerminalUpdate_acc g :
  wf g →
  ∀ (n : nat) (k : nat) (out : list (list ascii)),
    TerminalUpdate n (generation k g) out =
    Ok (out ++ ((λ i, text_of (generation i g)) <$> seq k n),
        generation (k + n) g).
Proof.
  intros Hg. induction n as [|n IH]; intros k out.
  - cbn. rewrite app_nil_r. now replace (k + 0)%nat with k by lia.
  - cbn [TerminalUpdate].
    pose proof (generation_wf g k Hg) as Hk.
    rewrite Text_ok, bind_Ok by apply Hk.
    rewrite (Update_next _ Hk), bind_Ok.
    change (next (generation k g)) with (generation (S k) g).
    rewrite IH. cbn [seq fmap list_fmap]. rewrite <- app_assoc. cbn [app].
    now replace (S k + n)%nat with (k + S n)%nat by lia.
Qed.

(** X9.  Started on a well-formed grid, the loop of [TerminalUpdate] does
    not panic, and after [n] iterations it has printed the texts of
    generations 0 to [n - 1], in this order, and holds generation [n]. *)
Theorem TerminalUpdate_prints_generations (g : GameOfLife) (n : nat) :
  wf g →
  ∃ out g', TerminalUpdate n g [] = Ok (out, g') ∧
            length out = n ∧
            (∀ k, (k < n)%nat → Text (generation k g) = Ok (out !!! k)) ∧
            g' = generation n g.
Proof.
  intros Hg.
  exists ((λ i, text_of (generation i g)) <$> seq 0 n), (generation n g).
  split; [apply (TerminalUpdate_acc g Hg n 0%nat [])|].
  split; [now rewrite length_fmap, length_seq|]. split; [|reflexivity].
  intros k Hk. rewrite Text_ok by apply (generation_wf g k Hg). f_equal.
  symmetry. apply list_lookup_total_correct.
  rewrite list_lookup_fmap, lookup_seq_lt by assumption. reflexivity.
Qed.

Lemma TerminalUpdate_prints_generations_witness :
  wf blinker3 ∧
  ∃ out g', TerminalUpdate 2 blinker3 [] = Ok (out, g') ∧
            length out = 2%nat ∧
            (∀ k, (k < 2)%nat → Text (generation k blinker3) = Ok (out !!! k)) ∧
            g' = generation 2 blinker3.
Proof.
  split; [exact blinker3_wf|].
  exact (TerminalUpdate_prints_generations blinker3 2 blinker3_wf).
Defined.

(** ** The loaders *)

Lemma for_iter_ext {St} (f f' : Z → St → result St) :
  ∀ (n : nat) (i : Z) (s : St),
    (∀ k s, i ≤ k < i + Z.of_nat n → f k s = f' k s) →
    for_iter n i f s = for_iter n i f' s.
Proof.
  induction n as [|n IH]; intros i s Hf; [reflexivity|].
  cbn [for_iter]. rewrite Hf by lia. destruct (f' i s) as [s'|]; [|reflexivity].
  cbn. apply IH. intros k s0 Hk. apply Hf. lia.
Qed.

Lemma for_range_ext {St} (f f' : Z → St → result St) (lo hi : Z) (s : St) :
  (∀ k s, lo ≤ k < hi → f k s = f' k s) →
  for_range lo hi f s = for_range lo hi f' s.
Proof.
  intros Hf. unfold for_range. apply for_iter_ext. intros k s0 Hk. apply Hf. lia.
Qed.

Lemma index_lookup {A} (s : list A) (i : Z) :
  0 ≤ i < len s → ∃ a, s !! Z.to_nat i = Some a ∧ index s i = Ok a.
Proof.
  unfold len. intros Hi.
  destruct (lookup_lt_is_Some_2 s (Z.to_nat i)) as [a Ha]; [lia|].
  exists a. split; [assumption|]. apply index_ok; [lia | assumption].
Qed.

Lemma Set_ignored_ok g x y v :
  wf g →
  ∃ g', Set_ignored (Some g) x y v = Ok (Some g') ∧
        wf g' ∧ width g' = width g ∧ height g' = height g ∧
        ∀ x' y', alive g' x' y' =
                 if in_boundsb g x y && ((x' =? x) && (y' =? y)) then v
                 else alive g x' y'.
Proof.
  intros Hg.
  assert (Hex : ∃ g' e, Set_ g x y v = Ok (g', e)).
  { destruct (in_boundsb_spec g x y) as [Hin|Hout].
    - destruct (Set_inside g x y v (wf_shaped g Hg) Hin) as (g' & Hs & _).
      eauto.
    - rewrite Set_outside by assumption. eauto. }
  destruct Hex as (g' & e & Hs). exists g'. split.
  - cbn [Set_ignored]. now rewrite Hs.
  - now apply (Set_alive g x y v g' e).
Qed.

Lemma char_at_lookup lines line c x y :
  0 ≤ x → 0 ≤ y →
  lines !! Z.to_nat y = Some line → line !! Z.to_nat x = Some c →
  char_at lines x y = Some c.
Proof.
  intros Hx Hy Hl Hc. unfold char_at.
  destruct (Z.ltb_spec x 0); [lia|]. destruct (Z.ltb_spec y 0); [lia|].
  cbn [orb]. rewrite Hl. exact Hc.
Qed.

Lemma char_at_beyond lines line x y :
  lines !! Z.to_nat y = Some line → len line ≤ x → char_at lines x y = None.
Proof.
  unfold len. intros Hl Hx. unfold char_at.
  destruct ((x <? 0) || (y <? 0)); [reflexivity|]. rewrite Hl. cbn.
  apply lookup_ge_None_2. lia.
Qed.

Lemma char_at_below lines x y : len lines ≤ y → char_at lines x y = None.
Proof.
  unfold len. intros Hy. unfold char_at.
  destruct ((x <? 0) || (y <? 0)); [reflexivity|].
  rewrite lookup_ge_None_2 by lia. reflexivity.
Qed.

(** The two loops of a loader over the bytes of its lines: every byte
    inside the grid sets its cell, every other byte is dropped. *)
Lemma set_lines_ok val lines g :
  wf g →
  ∃ g', set_lines val lines (Some g) = Ok (Some g') ∧
        wf g' ∧ width g' = width g ∧ height g' = height g ∧
        ∀ x y, alive g' x y =
               match (if in_boundsb g x y then char_at lines x y else None) with
               | Some c => val c
               | None => alive g x y
               end.
Proof.
  intros Hg.
  set (Inv := λ (i j : Z) (s : option GameOfLife),
    ∃ g', s = Some g' ∧ wf g' ∧ width g' = width g ∧ height g' = height g ∧
          ∀ x y, alive g' x y =
                 match (if in_boundsb g x y && visited i j x y
                        then char_at lines x y else None) with
                 | Some c => val c
                 | None => alive g x y
                 end).
  unfold set_lines.
  match goal with
  | |- context [for_range 0 (len lines) ?body ?s0] =>
      destruct (for_range_inv (λ i s, Inv i 0 s) body 0 (len lines) s0)
        as (s & Hrun & g' & -> & Hg' & Hw & Hh & Hc)
  end.
  - unfold len. lia.
  - exists g. split; [reflexivity|]. split; [assumption|].
    do 2 (split; [reflexivity|]). intros x y.
    destruct (in_boundsb_spec g x y) as [[Hx Hy]|]; [|reflexivity].
    now rewrite visited_none by lia.
  - intros i s Hi (g1 & -> & Hg1 & Hw1 & Hh1 & Hc1).
    destruct (index_lookup lines i Hi) as (line & Hline & Hidx).
    rewrite Hidx, bind_Ok.
    match goal with
    | |- context [for_range 0 (len line) ?body ?s0] =>
        destruct (for_range_inv (λ j s, Inv i j s) body 0 (len line) s0)
          as (s & Hrow & g2 & -> & Hg2 & Hw2 & Hh2 & Hc2)
    end.
    + unfold len. lia.
    + exists g1. split; [reflexivity|]. now do 3 (split; [assumption|]).
    + intros j s Hj (g2 & -> & Hg2 & Hw2 & Hh2 & Hc2).
      destruct (index_lookup line j Hj) as (c & Hc & Hcidx).
      rewrite Hcidx, bind_Ok.
      destruct (Set_ignored_ok g2 j i (val c) Hg2)
        as (g3 & Hset & Hg3 & Hw3 & Hh3 & Hc3).
      exists (Some g3). split; [assumption|]. exists g3.
      split; [reflexivity|]. split; [assumption|].
      split; [congruence|]. split; [congruence|].
      intros x y. rewrite Hc3, Hc2, visited_next.
      replace (in_boundsb g2 j i) with (in_boundsb g j i)
        by (unfold in_boundsb; now rewrite Hw2, Hh2).
      destruct ((x =? j) && (y =? i)) eqn:E.
      * apply andb_true_iff in E as [->%Z.eqb_eq ->%Z.eqb_eq].
        rewrite andb_true_r. cbn [orb]. rewrite andb_true_r.
        rewrite (char_at_lookup lines line c j i) by (assumption || lia).
        unfold visited. rewrite !Z.ltb_irrefl, andb_false_r. cbn [orb].
        rewrite andb_false_r. now destruct (in_boundsb g j i).
      * rewrite andb_false_r. reflexivity.
    + exists (Some g2). split; [exact Hrow|]. exists g2.
      split; [reflexivity|]. do 3 (split; [assumption|]).
      intros x y. rewrite Hc2.
      destruct (in_boundsb_spec g x y) as [[Hx Hy]|]; [|reflexivity].
      cbn [andb]. unfold visited.
      destruct (Z.ltb_spec y i), (Z.eqb_spec y i), (Z.ltb_spec y (i + 1)),
        (Z.eqb_spec y (i + 1)), (Z.ltb_spec x (len line)), (Z.ltb_spec x 0);
        cbn [orb andb]; try reflexivity; try lia.
      subst y. now rewrite (char_at_beyond lines line x i) by assumption.
  - exists g'. do 4 (split; [assumption|]). intros x y. rewrite Hc.
    destruct (in_boundsb_spec g x y) as [[Hx Hy]|]; [|reflexivity].
    cbn [andb]. unfold visited.
    destruct (Z.ltb_spec y (len lines)); cbn [orb]; [reflexivity|].
    rewrite char_at_below by lia. now destruct (_ && _).
Qed.

Lemma loaded_alive val lines g g' :
  (∀ x y, At g x y = Ok false) → wf g →
  (∀ x y, alive g' x y =
          match (if in_boundsb g x y then char_at lines x y else None) with
          | Some c => val c
          | None => alive g x y
          end) →
  ∀ x y, alive g' x y = loaded val lines (width g) (height g) x y.
Proof.
  intros Hdead Hg Ha x y. rewrite Ha. unfold loaded.
  fold (in_boundsb g x y).
  assert (alive g x y = false) as ->.
  { specialize (Hdead x y). rewrite At_alive in Hdead by apply Hg. congruence. }
  destruct (in_boundsb g x y); cbn [andb]; [|reflexivity].
  now destruct (char_at lines x y).
Qed.

(** A new grid filled from lines. *)
Lemma new_set_lines val lines w h :
  0 < w → 0 < h →
  ∃ g0 g, NewGameOfLife w h = Ok (Some g0, None) ∧
          set_lines val lines (Some g0) = Ok (Some g) ∧
          wf g ∧ width g = w ∧ height g = h ∧
          ∀ x y, alive g x y = loaded val lines w h x y.
Proof.
  intros Hw Hh.
  destruct (proj2 (NewGameOfLife_all_dead w h) Hw Hh)
    as (g0 & Hnew & Hgw & Hgh & Hg0 & Hdead).
  unfold GetWidth, GetHeight in *.
  destruct (set_lines_ok val lines g0 Hg0) as (g & Hset & Hg & Hw' & Hh' & Ha).
  exists g0, g. do 3 (split; [assumption|]). split; [congruence|].
  split; [congruence|]. rewrite <- Hgw, <- Hgh.
  now apply loaded_alive.
Qed.

(** X10.  [LoadFromJSON] returns the error of the file reader or of the
    decoder when either fails, and "invalid size" when a decoded dimension
    is not positive.  Otherwise it does not panic and returns a
    well-formed grid of the decoded dimensions in which a cell is alive
    exactly when its row of [Cells] has at its column a byte that is not a
    space: rows and bytes beyond the dimensions are dropped, and cells
    without a byte are dead. *)
Theorem LoadFromJSON_cells
    (ReadFile : list ascii → list ascii * error)
    (Unmarshal : list ascii → GameOfLifeSave * error)
    (file : list ascii) :
  (∀ d e, ReadFile file = (d, Some e) →
          LoadFromJSON ReadFile Unmarshal file = Ok (None, Some e)) ∧
  (∀ d sav e, ReadFile file = (d, None) → Unmarshal d = (sav, Some e) →
              LoadFromJSON ReadFile Unmarshal file = Ok (None, Some e)) ∧
  (∀ d sav, ReadFile file = (d, None) → Unmarshal d = (sav, None) →
     (Width sav ≤ 0 ∨ Height sav ≤ 0 →
      LoadFromJSON ReadFile Unmarshal file
      = Ok (None, Some "invalid size"%string)) ∧
     (0 < Width sav → 0 < Height sav →
      ∃ g, LoadFromJSON ReadFile Unmarshal file = Ok (Some g, None) ∧
           wf g ∧ width g = Width sav ∧ height g = Height sav ∧
           ∀ x y, alive g x y =
                  (0 <=? x) && (x <? Width sav) && (0 <=? y) && (y <? Height sav)
                  && match char_at (Cells sav) x y with
                     | Some c => negb (Ascii.eqb c " ")
                     | None => false
                     end)).
Proof.
  split; [|split].
  - intros d e Hr. unfold LoadFromJSON. now rewrite Hr.
  - intros d sav e Hr Hu. unfold LoadFromJSON. now rewrite Hr, Hu.
  - intros d sav Hr Hu. unfold LoadFromJSON. rewrite Hr, Hu. split.
    + intros Hbad. now rewrite NewGameOfLife_invalid.
    + intros Hw Hh.
      destruct (new_set_lines (λ c, negb (Ascii.eqb c " ")) (Cells sav)
                  (Width sav) (Height sav) Hw Hh)
        as (g0 & g & Hnew & Hset & Hg & Hgw & Hgh & Ha).
      exists g. rewrite Hnew, bind_Ok.
      match goal with
      | |- context [for_range 0 (len (Cells sav)) ?body (Some g0)] =>
          replace (for_range 0 (len (Cells sav)) body (Some g0))
            with (set_lines (λ c, negb (Ascii.eqb c " ")) (Cells sav) (Some g0))
      end.
      * rewrite Hset. split; [reflexivity|]. do 3 (split; [assumption|]).
        exact Ha.
      * unfold set_lines. apply for_range_ext. intros i s _.
        destruct (index (Cells sav) i) as [line|]; [|reflexivity].
        rewrite !bind_Ok. apply for_range_ext. intros j s' _.
        destruct (index line j) as [c|]; [|reflexivity].
        rewrite !bind_Ok. now destruct (Ascii.eqb c " ").
Qed.

Lemma LoadFromJSON_cells_witness :
  ∃ g, LoadFromJSON (λ f, (f, None))
         (λ _, (mkSave 2 2 [["o"; " "]; [" "; "x"; "o"]; ["o"]]%char, None)) []
       = Ok (Some g, None) ∧
       wf g ∧ width g = 2 ∧ height g = 2 ∧
       ∀ x y, alive g x y =
              (0 <=? x) && (x <? 2) && (0 <=? y) && (y <? 2)
              && match char_at [["o"; " "]; [" "; "x"; "o"]; ["o"]]%char x y with
                 | Some c => negb (Ascii.eqb c " ")
                 | None => false
                 end.
Proof.
  apply (proj2 (proj2 (proj2 (LoadFromJSON_cells (λ f, (f, None))
            (λ _, (mkSave 2 2 [["o"; " "]; [" "; "x"; "o"]; ["o"]]%char, None))
            [])) [] _ eq_refl eq_refl)); cbn; lia.
Defined.

Lemma max_len_nonneg lines : 0 ≤ max_len lines.
Proof.
  induction lines as [|l ls IH]; [reflexivity|].
  cbn [max_len foldr]. fold (max_len ls). lia.
Qed.

Lemma max_len_app xs ys : max_len (xs ++ ys) = Z.max (max_len xs) (max_len ys).
Proof.
  induction xs as [|l xs IH]; cbn [app max_len foldr].
  - pose proof (max_len_nonneg ys). unfold max_len in *. lia.
  - fold (max_len (xs ++ ys)). fold (max_len xs). lia.
Qed.

(** The first loop of [LoadFromText]: the length of the longest line. *)
Lemma widest_line (lines : list (list ascii)) :
  for_range 0 (len lines) (λ i (width : Z),
    l ← index lines i;
    let lineWidth := len l in
    Ok (if lineWidth >? width then lineWidth else width)) 0
  = Ok (max_len lines).
Proof.
  match goal with
  | |- for_range 0 _ ?body 0 = _ =>
      destruct (for_range_inv
        (λ i w, w = max_len (take (Z.to_nat i) lines)) body 0 (len lines) 0)
        as (w & Hrun & Hw)
  end.
  - unfold len. lia.
  - reflexivity.
  - intros i w Hi ->. destruct (index_lookup lines i Hi) as (l & Hl & Hidx).
    rewrite Hidx, bind_Ok. eexists. split; [reflexivity|].
    replace (Z.to_nat (i + 1)) with (S (Z.to_nat i)) by lia.
    rewrite (take_S_r _ _ _ Hl), max_len_app. cbn [max_len foldr].
    pose proof (max_len_nonneg (take (Z.to_nat i) lines)).
    destruct (Z.gtb_spec (len l) (max_len (take (Z.to_nat i) lines)));
      unfold len in *; lia.
  - rewrite Hrun, Hw. unfold len. rewrite Nat2Z.id, firstn_all. reflexivity.
Qed.

Lemma max_len_Split_zero data :
  max_len (Split data newline) = 0 ↔ ∀ c, c ∈ data → c = newline.
Proof.
  induction data as [|c s IH]; cbn [Split].
  - split; [intros _ c Hc; inversion Hc | reflexivity].
  - destruct (Ascii.eqb_spec c newline) as [->|Hne].
    + cbn [max_len foldr]. fold (max_len (Split s newline)).
      pose proof (max_len_nonneg (Split s newline)) as Hnn.
      replace (Z.max (len []) (max_len (Split s newline)))
        with (max_len (Split s newline)) by (unfold len; cbn; lia).
      rewrite IH. split.
      * intros Hs c [->|Hc]%elem_of_cons; [reflexivity | now apply Hs].
      * intros Hs c Hc. apply Hs. now right.
    + split.
      * intros H. exfalso.
        destruct (Split s newline) as [|l ls] eqn:E; cbn [max_len foldr] in H.
        -- unfold len in H. cbn in H. lia.
        -- fold (max_len ls) in H. pose proof (max_len_nonneg ls).
           unfold len in H. cbn [length] in H. lia.
      * intros H. exfalso. apply Hne, H. left.
Qed.

Lemma index_fmap {A B} (f : A → B) (s : list A) (i : Z) :
  index (f <$> s) i = (a ← index s i; Ok (f a)).
Proof.
  unfold index. destruct (i <? 0); [reflexivity|].
  rewrite list_lookup_fmap. now destruct (s !! Z.to_nat i).
Qed.

(** The second loop of [LoadFromText] is [set_lines] on the lowered
    lines. *)
Lemma LoadFromText_loop ToLower (lines : list (list ascii)) key game :
  for_range 0 (len lines) (λ i (game : option GameOfLife),
    l ← index lines i;
    let line := ToLower l in
    for_range 0 (len line) (λ j (game : option GameOfLife),
      c ← index line j;
      if Ascii.eqb c key then Set_ignored game j i true
      else Set_ignored game j i false) game) game
  = set_lines (λ c, Ascii.eqb c key) (ToLower <$> lines) game.
Proof.
  unfold set_lines. replace (len (ToLower <$> lines)) with (len lines)
    by (unfold len; now rewrite length_fmap).
  apply for_range_ext. intros i s _. rewrite index_fmap.
  destruct (index lines i) as [l|]; [|reflexivity]. rewrite !bind_Ok.
  apply for_range_ext. intros j s' _.
  destruct (index (ToLower l) j) as [c|]; [|reflexivity].
  rewrite !bind_Ok. now destruct (Ascii.eqb c key).
Qed.

Lemma len_Split_pos data : 0 < len (Split data newline).
Proof.
  pose proof (Split_nonempty data newline).
  unfold len. destruct (Split data newline); [contradiction | cbn; lia].
Qed.

Lemma LoadFromText_ok ToLower data key :
  0 < max_len (Split data newline) →
  ∃ g, LoadFromText ToLower data key = Ok (Some g, None) ∧
       wf g ∧ width g = max_len (Split data newline) ∧
       height g = len (Split data newline) ∧
       ∀ x y, alive g x y =
              loaded (λ c, Ascii.eqb c key) (ToLower <$> Split data newline)
                     (max_len (Split data newline))
                     (len (Split data newline)) x y.
Proof.
  intros Hw. pose proof (len_Split_pos data) as Hh.
  destruct (new_set_lines (λ c, Ascii.eqb c key)
              (ToLower <$> Split data newline) _ _ Hw Hh)
    as (g0 & g & Hnew & Hset & Hg & Hgw & Hgh & Ha).
  exists g. unfold LoadFromText.
  rewrite widest_line, bind_Ok, Hnew, bind_Ok, LoadFromText_loop, Hset.
  split; [reflexivity|]. do 3 (split; [assumption|]). exact Ha.
Qed.

(** X11.  [LoadFromText] returns "invalid size" exactly when the text has
    no byte other than line feeds, the empty text included.  Otherwise it
    does not panic and returns a well-formed grid with one row for each
    line (one more than the number of line feeds) and as many columns as
    the longest line has bytes, in which a cell is alive exactly when the
    lowered line of its row has the key at its column. *)
Theorem LoadFromText_cells (ToLower : list ascii → list ascii)
        (data : list ascii) (key : ascii) :
  ((∀ c, c ∈ data → c = newline) →
   LoadFromText ToLower data key = Ok (None, Some "invalid size"%string)) ∧
  ((∃ c, c ∈ data ∧ c ≠ newline) →
   ∃ g, LoadFromText ToLower data key = Ok (Some g, None) ∧ wf g ∧
        height g = len (Split data newline) ∧
        height g = 1 + len (List.filter (λ c, Ascii.eqb c newline) data) ∧
        width g = max_len (Split data newline) ∧
        ∀ x y, alive g x y =
               (0 <=? x) && (x <? width g) && (0 <=? y) && (y <? height g)
               && match char_at (ToLower <$> Split data newline) x y with
                  | Some c => Ascii.eqb c key
                  | None => false
                  end).
Proof.
  split.
  - intros Hnl. apply max_len_Split_zero in Hnl. unfold LoadFromText.
    rewrite widest_line, bind_Ok, Hnl, NewGameOfLife_invalid by lia.
    reflexivity.
  - intros (c & Hc & Hne).
    assert (Hw : 0 < max_len (Split data newline)).
    { pose proof (max_len_nonneg (Split data newline)).
      destruct (Z.eq_dec (max_len (Split data newline)) 0) as [E|]; [|lia].
      exfalso. apply Hne. now apply (proj1 (max_len_Split_zero data)). }
    destruct (LoadFromText_ok ToLower data key Hw)
      as (g & Hl & Hg & Hgw & Hgh & Ha).
    exists g. do 3 (split; [assumption|]). split; [|split; [assumption|]].
    + rewrite Hgh. clear. unfold len.
      induction data as [|c s IH]; [reflexivity|]. cbn [Split List.filter].
      destruct (Ascii.eqb c newline); cbn [length].
      * lia.
      * destruct (Split s newline) as [|l ls] eqn:E; cbn [length] in *; [|lia].
        exfalso. now apply (Split_nonempty s newline).
    + intros x y. rewrite Ha, Hgw, Hgh. reflexivity.
Qed.

Lemma LoadFromText_cells_witness :
  (∀ c, c ∈ [newline; newline] → c = newline) ∧
  LoadFromText (map lower_ascii) [newline; newline] "o"
  = Ok (None, Some "invalid size"%string) ∧
  (∃ c, c ∈ ["O"; newline; "x"; "o"]%char ∧ c ≠ newline) ∧
  ∃ g, LoadFromText (map lower_ascii) ["O"; newline; "x"; "o"]%char "o"
       = Ok (Some g, None) ∧ wf g ∧
       height g = len (Split ["O"; newline; "x"; "o"]%char newline) ∧
       height g = 1 + len (List.filter (λ c, Ascii.eqb c newline)
                                       ["O"; newline; "x"; "o"]%char) ∧
       width g = max_len (Split ["O"; newline; "x"; "o"]%char newline) ∧
       ∀ x y, alive g x y =
              (0 <=? x) && (x <? width g) && (0 <=? y) && (y <? height g)
              && match char_at (map lower_ascii
                                  <$> Split ["O"; newline; "x"; "o"]%char newline)
                               x y with
                 | Some c => Ascii.eqb c "o"
                 | None => false
                 end.
Proof.
  assert (H1 : ∀ c, c ∈ [newline; newline] → c = newline).
  { intros c Hc. apply list_elem_of_In in Hc. cbn in Hc. intuition. }
  assert (H2 : ∃ c, c ∈ ["O"; newline; "x"; "o"]%char ∧ c ≠ newline).
  { exists "O"%char. split; [left | discriminate]. }
  split; [exact H1|].
  split; [exact (proj1 (LoadFromText_cells (map lower_ascii) _ "o") H1)|].
  split; [exact H2|].
  exact (proj2 (LoadFromText_cells (map lower_ascii) _ "o") H2).
Defined.

(** X12.  With a key that is an ASCII capital letter, and a [ToLower] whose
    result has no ASCII capital letter, no cell of a grid that
    [LoadFromText] returns is alive: the key has to be lowercase. *)
Theorem LoadFromText_capital_key (ToLower : list ascii → list ascii)
        (data : list ascii) (key : ascii) (g : GameOfLife) (e : error) :
  (∀ l c, c ∈ ToLower l → is_upper c = false) →
  is_upper key = true →
  LoadFromText ToLower data key = Ok (Some g, e) →
  ∀ x y, At g x y = Ok false.
Proof.
  intros Hlow Hkey Hload x y.
  pose proof (max_len_nonneg (Split data newline)).
  destruct (Z.eq_dec (max_len (Split data newline)) 0) as [E|Hne].
  { unfold LoadFromText in Hload.
    rewrite widest_line, bind_Ok, E, NewGameOfLife_invalid in Hload by lia.
    discriminate. }
  destruct (LoadFromText_ok ToLower data key ltac:(lia))
    as (g' & Hl & Hg & _ & _ & Ha).
  assert (g' = g) as -> by congruence.
  rewrite At_alive by apply Hg. rewrite Ha. unfold loaded. f_equal.
  destruct (char_at _ x y) as [c|] eqn:Hc; [|now rewrite andb_false_r].
  replace (Ascii.eqb c key) with false; [now rewrite andb_false_r|].
  symmetry. apply not_true_is_false. intros ->%Ascii.eqb_eq.
  unfold char_at in Hc. destruct ((x <? 0) || (y <? 0)); [discriminate|].
  destruct ((ToLower <$> Split data newline) !! Z.to_nat y) as [l|] eqn:El;
    [|discriminate].
  cbn in Hc. apply list_lookup_fmap_Some in El as (l0 & -> & _).
  assert (Hin : key ∈ ToLower l0) by (apply list_elem_of_lookup; eauto).
  apply Hlow in Hin. congruence.
Qed.

Lemma lower_ascii_not_upper c : is_upper (lower_ascii c) = false.
Proof.
  destruct c as [[] [] [] [] [] [] [] []]; vm_compute; reflexivity.
Qed.

Lemma LoadFromText_capital_key_witness :
  (∀ l c, c ∈ map lower_ascii l → is_upper c = false) ∧
  is_upper "O" = true ∧
  LoadFromText (map lower_ascii) ["O"; "o"]%char "O"
  = Ok (Some (grid_of [[false; false]]), None) ∧
  ∀ x y, At (grid_of [[false; false]]) x y = Ok false.
Proof.
  assert (Hlow : ∀ l c, c ∈ map lower_ascii l → is_upper c = false).
  { intros l c (c0 & -> & _)%list_elem_of_fmap. apply lower_ascii_not_upper. }
  assert (Hkey : is_upper "O" = true) by reflexivity.
  assert (Hload : LoadFromText (map lower_ascii) ["O"; "o"]%char "O"
                  = Ok (Some (grid_of [[false; false]]), None))
    by reflexivity.
  split; [exact Hlow|]. split; [exact Hkey|]. split; [exact Hload|].
  exact (LoadFromText_capital_key (map lower_ascii) _ "O" _ None
           Hlow Hkey Hload).
Defined.

Lemma max_len_rows (rows : list (list ascii)) (w : Z) :
  0 ≤ w → rows ≠ [] → Forall (λ r, len r = w) rows →
  max_len (rows ++ [[]]) = w.
Proof.
  intros Hw Hne Hrows. rewrite max_len_app.
  replace (max_len [[]]) with 0 by reflexivity.
  induction Hrows as [|r rows Hr Hrows IH]; [contradiction|].
  cbn [max_len foldr]. fold (max_len rows).
  destruct rows as [|r' rows'].
  - cbn. lia.
  - pose proof (max_len_nonneg (r' :: rows')). specialize (IH ltac:(discriminate)).
    lia.
Qed.

Lemma char_at_text g x y :
  0 ≤ x < width g → 0 ≤ y < height g →
  char_at (((λ i, row_text g (Z.of_nat i)) <$> seq 0 (Z.to_nat (height g)))
             ++ [[]]) x y
  = Some (cell_char (alive g x y)).
Proof.
  intros Hx Hy.
  apply (char_at_lookup _ (row_text g y)); try lia.
  - rewrite lookup_app_l by (rewrite length_fmap, length_seq; lia).
    rewrite list_lookup_fmap, lookup_seq_lt by lia. cbn.
    now rewrite Z2Nat.id by lia.
  - unfold row_text. rewrite list_lookup_fmap, lookup_seq_lt by lia. cbn.
    now rewrite Z2Nat.id by lia.
Qed.

(** X13.  The text [Text] returns for a well-formed grid, given back to
    [LoadFromText] with the key ["o"], gives a grid with the same cells and
    one more row: the empty line after the last line feed is a row of
    dead cells.  [ToLower] is taken to leave a text of ["o"] and spaces as
    it is. *)
Theorem Text_then_LoadFromText (ToLower : list ascii → list ascii)
        (g : GameOfLife) :
  (∀ l, (∀ c, c ∈ l → c = "o"%char ∨ c = " "%char) → ToLower l = l) →
  wf g →
  ∃ t g', Text g = Ok t ∧
          LoadFromText ToLower t "o" = Ok (Some g', None) ∧
          width g' = width g ∧ height g' = height g + 1 ∧
          ∀ x y, At g' x y = At g x y.
Proof.
  intros Hlow Hg. pose proof Hg as [[Hw Hh Hd _] _].
  exists (text_of g).
  set (rows := (λ i, row_text g (Z.of_nat i)) <$> seq 0 (Z.to_nat (height g))).
  assert (Hsplit : Split (text_of g) newline = rows ++ [[]])
    by apply Split_text_of.
  assert (Hmax : max_len (rows ++ [[]]) = width g).
  { apply max_len_rows; [lia | |].
    - unfold rows. destruct (Z.to_nat (height g)) eqn:E; [lia | discriminate].
    - apply Forall_fmap, Forall_forall. intros i _. cbn. unfold len.
      rewrite length_row_text. lia. }
  assert (Hlen : len (rows ++ [[]]) = height g + 1).
  { unfold len, rows. rewrite length_app, length_fmap, length_seq. cbn. lia. }
  assert (Hsame : ToLower <$> (rows ++ [[]]) = rows ++ [[]]).
  { rewrite <- (list_fmap_id (rows ++ [[]])) at 2.
    apply list_fmap_ext. intros k l Hl. cbn. apply Hlow. intros c Hc.
    apply lookup_app_Some in Hl as [Hl|[_ Hl]].
    - unfold rows in Hl. apply list_lookup_fmap_Some in Hl as (i & -> & _).
      now apply (row_text_chars g (Z.of_nat i)).
    - destruct (k - length rows)%nat; cbn in Hl; [|discriminate].
      injection Hl as <-. inversion Hc. }
  destruct (LoadFromText_ok ToLower (text_of g) "o")
    as (g' & Hl & Hg' & Hgw & Hgh & Ha).
  { rewrite Hsplit, Hmax. lia. }
  rewrite Hsplit, Hmax in Hgw. rewrite Hsplit, Hlen in Hgh.
  rewrite Hsplit, Hsame, Hmax, Hlen in Ha.
  exists g'. split; [apply Text_ok, Hg|]. do 3 (split; [assumption|]).
  intros x y. rewrite (At_alive g') by apply Hg'.
  rewrite (At_alive g) by apply Hg. f_equal.
  rewrite Ha. unfold loaded.
  destruct (in_boundsb_spec g x y) as [[Hx Hy]|Hout].
  - unfold rows. rewrite (char_at_text g x y) by lia.
    rewrite (proj2 (Z.leb_le 0 x)), (proj2 (Z.ltb_lt x (width g))),
      (proj2 (Z.leb_le 0 y)), (proj2 (Z.ltb_lt y (height g + 1))) by lia.
    unfold alive. destruct (in_boundsb_spec g x y) as [_|Hout];
      [|exfalso; apply Hout; now split].
    cbn [andb]. now destruct (cell (data g) x y).
  - replace (alive g x y) with false
      by (unfold alive; now destruct (in_boundsb_spec g x y)).
    destruct (Z.eq_dec y (height g)) as [->|Hy].
    + replace (char_at (rows ++ [[]]) x (height g)) with (@None ascii);
        [now rewrite andb_false_r|].
      unfold char_at. destruct ((x <? 0) || (height g <? 0)); [reflexivity|].
      rewrite lookup_app_r
        by (unfold rows; rewrite length_fmap, length_seq; lia).
      unfold rows. rewrite length_fmap, length_seq.
      replace (Z.to_nat (height g) - Z.to_nat (height g))%nat with 0%nat by lia.
      reflexivity.
    + unfold in_bounds in Hout.
      replace ((0 <=? x) && (x <? width g) && (0 <=? y) && (y <? height g + 1))
        with false by zbool.
      reflexivity.
Qed.

Lemma lower_ascii_fixes_text l :
  (∀ c, c ∈ l → c = "o"%char ∨ c = " "%char) → map lower_ascii l = l.
Proof.
  intros Hl. rewrite <- (list_fmap_id l) at 2. apply list_fmap_ext.
  intros k c Hc. destruct (Hl c) as [->| ->]; [|reflexivity..].
  apply list_elem_of_lookup. eauto.
Qed.

Lemma Text_then_LoadFromText_witness :
  (∀ l, (∀ c, c ∈ l → c = "o"%char ∨ c = " "%char) → map lower_ascii l = l) ∧
  wf blinker3 ∧
  ∃ t g', Text blinker3 = Ok t ∧
          LoadFromText (map lower_ascii) t "o" = Ok (Some g', None) ∧
          width g' = width blinker3 ∧ height g' = height blinker3 + 1 ∧
          ∀ x y, At g' x y = At blinker3 x y.
Proof.
  split; [exact lower_ascii_fixes_text|]. split; [exact blinker3_wf|].
  exact (Text_then_LoadFromText (map lower_ascii) blinker3
           lower_ascii_fixes_text blinker3_wf).
Defined.




(** ** The animation generator *)

Lemma first_exit_below maxIterations g (k : nat) :
  (∀ i, (i < k)%nat → exits maxIterations g i = false) ∨
  ∃ m, (m < k)%nat ∧ exits maxIterations g m = true ∧
       ∀ i, (i < m)%nat → exits maxIterations g i = false.
Proof.
  induction k as [|k [IH|(m & Hm & He & Hb)]].
  - left. intros i Hi. lia.
  - destruct (exits maxIterations g k) eqn:He.
    + right. exists k. split; [lia|]. now split.
    + left. intros i Hi. destruct (decide (i = k)) as [->|]; [assumption|].
      apply IH. lia.
  - right. exists m. split; [lia|]. now split.
Qed.

Lemma first_exit maxIterations g (k : nat) :
  exits maxIterations g k = true →
  ∃ m, (m ≤ k)%nat ∧ exits maxIterations g m = true ∧
       ∀ i, (i < m)%nat → exits maxIterations g i = false.
Proof.
  intros Hk. destruct (first_exit_below maxIterations g k)
    as [Hnone|(m & Hm & He & Hb)].
  - exists k. split; [lia|]. now split.
  - exists m. split; [lia|]. now split.
Qed.

Lemma Generate_ends scale maxIterations g (k fuel : nat) :
  wf g → exits maxIterations g k = true → (k < fuel)%nat →
  ∃ m, (m ≤ k)%nat ∧
       Generate fuel g scale maxIterations =
       Some (Ok (state_exit scale g m, stable_at g m)).
Proof.
  intros Hg Hk Hfuel.
  destruct (first_exit maxIterations g k Hk) as (m & Hm & Hem & Hbefore).
  exists m. split; [assumption|]. apply Generate_run; try assumption. lia.
Qed.

Lemma replicate_all {A} (a : A) n d : d ∈ replicate n a → d = a.
Proof. now intros [-> _]%elem_of_replicate. Qed.

(** X15.  On a well-formed grid and with a ceiling [N ≥ 1], a run with at
    least [N] units of fuel ends without a panic; its output has at least
    1 and at most [N] frames and as many delays, each of them 1.  For
    [GenerateGIF] the ceiling is 2048. *)
Theorem Generate_terminates (g : GameOfLife) (scale : Z) (N fuel : nat) :
  wf g → (1 ≤ N)%nat → (N ≤ fuel)%nat →
  (∃ st stable,
     Generate fuel g scale (Z.of_nat N) = Some (Ok (st, stable)) ∧
     (1 ≤ length (images st) ≤ N)%nat ∧
     length (delays st) = length (images st) ∧
     ∀ d, d ∈ delays st → d = 1) ∧
  ((2048 ≤ fuel)%nat →
   ∃ st stable,
     GenerateGIF fuel g = Some (Ok (st, stable)) ∧
     (1 ≤ length (images st) ≤ 2048)%nat ∧
     length (delays st) = length (images st) ∧
     ∀ d, d ∈ delays st → d = 1).
Proof.
  intros Hg HN Hfuel.
  assert (Hgen : ∀ (n : nat) (s : Z), (1 ≤ n)%nat → (n ≤ fuel)%nat →
            ∃ st stable,
              Generate fuel g s (Z.of_nat n) = Some (Ok (st, stable)) ∧
              (1 ≤ length (images st) ≤ n)%nat ∧
              length (delays st) = length (images st) ∧
              ∀ d, d ∈ delays st → d = 1).
  { intros n s Hn Hnf.
    assert (Hlast : exits (Z.of_nat n) g (n - 1) = true).
    { unfold exits. replace (S (n - 1)) with n by lia.
      rewrite Z.eqb_refl. apply orb_true_r. }
    destruct (Generate_ends s (Z.of_nat n) g (n - 1) fuel Hg Hlast)
      as (m & Hm & Hrun); [lia|].
    exists (state_exit s g m), (stable_at g m). split; [exact Hrun|].
    cbn [state_exit images delays].
    rewrite length_frames, length_replicate.
    split; [lia|]. split; [reflexivity|]. apply replicate_all. }
  split; [now apply Hgen|]. intros H2048.
  unfold GenerateGIF. change MaxIterations with (Z.of_nat 2048).
  apply Hgen; lia.
Qed.

Lemma Generate_terminates_witness :
  wf blinker3 ∧ (1 ≤ 2)%nat ∧ (2 ≤ 2)%nat ∧
  ∃ st stable,
    Generate 2 blinker3 4 (Z.of_nat 2) = Some (Ok (st, stable)) ∧
    (1 ≤ length (images st) ≤ 2)%nat ∧
    length (delays st) = length (images st) ∧
    ∀ d, d ∈ delays st → d = 1.
Proof.
  split; [exact blinker3_wf|]. split; [lia|]. split; [lia|].
  apply (proj1 (Generate_terminates blinker3 4 2 2 blinker3_wf
                  ltac:(lia) ltac:(lia))).
Defined.

(** X16.  A cycle that does not go through generation 0 is found: if
    generation [j] of a well-formed grid is generation [i] again, with
    [1 ≤ i < j], then whatever the ceiling a run with at least [j] units
    of fuel ends, and no run that ends has more than [j] frames. *)
Theorem cycle_is_detected (g : GameOfLife) (scale maxIterations : Z)
        (i j : nat) :
  wf g → (1 ≤ i < j)%nat → generation i g = generation j g →
  (∀ fuel, (j ≤ fuel)%nat →
     ∃ st stable,
       Generate fuel g scale maxIterations = Some (Ok (st, stable))) ∧
  (∀ fuel st stable,
     Generate fuel g scale maxIterations = Some (Ok (st, stable)) →
     (length (images st) ≤ j)%nat).
Proof.
  intros Hg Hij Heq.
  assert (Hst : stable_at g (j - 1) = true).
  { apply stable_at_spec. exists i. split; [lia|].
    replace (S (j - 1)) with j by lia. now rewrite Heq. }
  assert (Hex : exits maxIterations g (j - 1) = true)
    by (unfold exits; now rewrite Hst).
  split.
  - intros fuel Hfuel.
    destruct (Generate_ends scale maxIterations g (j - 1) fuel Hg Hex)
      as (m & _ & Hrun); [lia|]. eauto.
  - intros fuel st stable Hr.
    destruct (Generate_exit_frames _ _ _ _ _ _ Hg Hr)
      as (m & Hbefore & _ & _ & Himg).
    rewrite Himg, length_frames.
    destruct (decide (m < j)%nat) as [Hm|Hm]; [lia|].
    rewrite Hbefore in Hex by lia. discriminate.
Qed.

Lemma cycle_is_detected_witness :
  wf blinker3 ∧ (1 ≤ 1 < 3)%nat ∧
  generation 1 blinker3 = generation 3 blinker3 ∧
  (∀ fuel, (3 ≤ fuel)%nat →
     ∃ st stable, Generate fuel blinker3 4 0 = Some (Ok (st, stable))) ∧
  (∀ fuel st stable,
     Generate fuel blinker3 4 0 = Some (Ok (st, stable)) →
     (length (images st) ≤ 3)%nat).
Proof.
  assert (Hij : (1 ≤ 1 < 3)%nat) by lia.
  assert (Heq : generation 1 blinker3 = generation 3 blinker3)
    by (vm_compute; reflexivity).
  split; [exact blinker3_wf|]. split; [exact Hij|]. split; [exact Heq|].
  exact (cycle_is_detected blinker3 4 0 1 3 blinker3_wf Hij Heq).
Defined.

(** X17.  In the output of a run that ends, on a well-formed grid and with
    a positive scale whose raster is within the [int]s, the frame of index
    [k] is the picture of generation [k]: all frames have the bounds
    [(0,0)-(width·scale, height·scale)], and the pixel [(X, Y)] of frame
    [k] has the index 1 and the colour black, [RGBA{0,0,0,255}], when the
    cell [(X div scale, Y div scale)] of generation [k] is alive, and the
    index 0 and the colour white, [RGBA{255,255,255,255}], when it is
    dead. *)
Theorem frames_show_generations (g : GameOfLife) (scale maxIterations : Z)
        (fuel : nat) (st : gen_state) (stable : bool)
        (k : nat) (img : image.Paletted) :
  wf g → 0 < scale → raster_fits g scale →
  Generate fuel g scale maxIterations = Some (Ok (st, stable)) →
  images st !! k = Some img →
  image.Bounds img = image.mkRect 0 0 (width g * scale) (height g * scale) ∧
  ∀ X Y, 0 ≤ X < width g * scale → 0 ≤ Y < height g * scale →
         image.ColorIndexAt img X Y =
           (if alive (generation k g) (X / scale) (Y / scale)
            then 1 else 0) ∧
         Paletted_At img X Y =
           Ok (if alive (generation k g) (X / scale) (Y / scale)
               then mkRGBA 0 0 0 255 else mkRGBA 255 255 255 255).
Proof.
  intros Hg Hs _ Hr Hk.
  destruct (Generate_exit_frames _ _ _ _ _ _ Hg Hr) as (m & _ & _ & _ & Himg).
  rewrite Himg in Hk. unfold frames in Hk.
  apply list_lookup_fmap_Some in Hk as (k' & -> & Hk').
  apply lookup_seq in Hk' as [-> _]. cbn [Nat.add].
  pose proof (generation_wf g k Hg) as Hgk.
  destruct (generation_dims g k Hg) as [Hw Hh].
  destruct (Image_pixels (generation k g) scale (wf_shaped _ Hgk) Hs)
    as (img & Hi & Hb & Hc).
  unfold frame. rewrite Hi. rewrite Hw, Hh in Hb, Hc.
  split; [assumption|]. intros X Y HX HY.
  unfold Paletted_At. rewrite (Hc X Y HX HY). unfold colour.
  now destruct (alive (generation k g) (X / scale) (Y / scale)).
Qed.

Lemma frames_show_generations_witness :
  wf blinker3 ∧ 0 < 4 ∧ raster_fits blinker3 4 ∧
  Generate 3 blinker3 4 4 =
    Some (Ok (state_exit 4 blinker3 2, stable_at blinker3 2)) ∧
  images (state_exit 4 blinker3 2) !! 1%nat
    = Some (frame 4 (generation 1 blinker3)) ∧
  image.Bounds (frame 4 (generation 1 blinker3))
    = image.mkRect 0 0 (width blinker3 * 4) (height blinker3 * 4) ∧
  ∀ X Y, 0 ≤ X < width blinker3 * 4 → 0 ≤ Y < height blinker3 * 4 →
         image.ColorIndexAt (frame 4 (generation 1 blinker3)) X Y =
           (if alive (generation 1 blinker3) (X / 4) (Y / 4)
            then 1 else 0) ∧
         Paletted_At (frame 4 (generation 1 blinker3)) X Y =
           Ok (if alive (generation 1 blinker3) (X / 4) (Y / 4)
               then mkRGBA 0 0 0 255 else mkRGBA 255 255 255 255).
Proof.
  assert (Hs : 0 < 4) by lia.
  assert (Hfit : raster_fits blinker3 4)
    by (unfold raster_fits, is_int, MinInt, MaxInt; cbn; lia).
  assert (Hk : images (state_exit 4 blinker3 2) !! 1%nat
               = Some (frame 4 (generation 1 blinker3))) by reflexivity.
  split; [exact blinker3_wf|]. split; [exact Hs|]. split; [exact Hfit|].
  split; [exact blinker3_run|]. split; [exact Hk|].
  exact (frames_show_generations blinker3 4 4 3 _ _ 1 _
           blinker3_wf Hs Hfit blinker3_run Hk).
Defined.

(** X18.  The loop that fills [dataBuffer] does not panic when the buffer
    has [width · height] bytes, and overwrites all of them: whatever the
    buffer held, the byte at position [y · width + x] is 64 when the cell
    [(x, y)] is alive and 0 when it is dead.  The fingerprint is therefore
    a function of the cells of the generation alone. *)
Theorem fill_buffer_overwrites (g : GameOfLife) (buf : list Z) :
  wf g → len buf = width g * height g →
  ∃ out, fill_buffer g buf = Ok out ∧
         len out = width g * height g ∧
         (∀ x y, in_bounds g x y →
                 out !! Z.to_nat (y * width g + x)
                 = Some (if alive g x y then 64 else 0)) ∧
         ∀ buf', len buf' = width g * height g →
                 fill_buffer g buf' = Ok out.
Proof.
  intros [Hg _] Hlen. pose proof Hg as [Hw Hh _ _].
  assert (Hfill : ∀ b, len b = width g * height g →
                       fill_buffer g b = Ok (bytes_of g)).
  { intros b Hb. apply fill_buffer_ok; [assumption|]. unfold len in Hb. lia. }
  exists (bytes_of g). split; [now apply Hfill|]. split.
  - unfold len. rewrite length_bytes_of. nia.
  - split; [|exact Hfill]. intros x y [Hx Hy].
    rewrite bytes_of_lookup by nia. f_equal. unfold byte_at, cell_byte.
    rewrite Z2Nat.id by nia.
    now destruct (row_major_index (width g) y x Hx) as [-> ->].
Qed.

Lemma fill_buffer_overwrites_witness :
  wf blinker3 ∧ len [7; 7; 7; 7; 7; 7; 7; 7; 7] = width blinker3 * height blinker3 ∧
  ∃ out, fill_buffer blinker3 [7; 7; 7; 7; 7; 7; 7; 7; 7] = Ok out ∧
         len out = width blinker3 * height blinker3 ∧
         (∀ x y, in_bounds blinker3 x y →
                 out !! Z.to_nat (y * width blinker3 + x)
                 = Some (if alive blinker3 x y then 64 else 0)) ∧
         ∀ buf', len buf' = width blinker3 * height blinker3 →
                 fill_buffer blinker3 buf' = Ok out.
Proof.
  assert (Hlen : len [7; 7; 7; 7; 7; 7; 7; 7; 7]
                 = width blinker3 * height blinker3) by reflexivity.
  split; [exact blinker3_wf|]. split; [exact Hlen|].
  exact (fill_buffer_overwrites blinker3 _ blinker3_wf Hlen).
Defined.

(** X19.  A well-formed grid that [Update] leaves as it is (a still life,
    the all-dead grid included) gives an animation of exactly two frames,
    both of the initial state, with [stable] set, for every ceiling other
    than 1: nothing is recorded before the first comparison, so the
    repetition is found in the second iteration. *)
Theorem still_life_two_frames (g : GameOfLife) (scale maxIterations : Z)
        (fuel : nat) :
  wf g → Update g = Ok g → maxIterations ≠ 1 → (2 ≤ fuel)%nat →
  ∃ st, Generate fuel g scale maxIterations = Some (Ok (st, true)) ∧
        images st = [frame scale g; frame scale g] ∧
        delays st = [1; 1].
Proof.
  intros Hg Hu Hmax Hfuel.
  assert (Hfix : next g = g) by (unfold next; now rewrite Hu).
  assert (Hgen : ∀ k, generation k g = g)
    by (intros k; now apply generation_fixed).
  assert (H1 : stable_at g 1 = true).
  { apply stable_at_spec. exists 1%nat. split; [lia|]. now rewrite !Hgen. }
  assert (H0 : exits maxIterations g 0 = false).
  { unfold exits, stable_at. cbn [fingerprints seq fmap list_fmap seen].
    apply orb_false_iff. split; [reflexivity|]. apply Z.eqb_neq. lia. }
  exists (state_exit scale g 1). split.
  - rewrite <- H1. apply Generate_run; try assumption.
    + intros i Hi. replace i with 0%nat by lia. exact H0.
    + unfold exits. now rewrite H1.
  - cbn [state_exit images delays]. split; [|reflexivity].
    unfold frames. cbn [seq fmap list_fmap]. now rewrite !Hgen.
Qed.

Lemma still_life_two_frames_witness :
  wf block4 ∧ Update block4 = Ok block4 ∧ 2048 ≠ 1 ∧ (2 ≤ 2)%nat ∧
  ∃ st, Generate 2 block4 4 2048 = Some (Ok (st, true)) ∧
        images st = [frame 4 block4; frame 4 block4] ∧
        delays st = [1; 1].
Proof.
  assert (Hu : Update block4 = Ok block4) by (vm_compute; reflexivity).
  assert (Hmax : 2048 ≠ 1) by lia.
  split; [exact block4_wf|]. split; [exact Hu|]. split; [exact Hmax|].
  split; [lia|].
  exact (still_life_two_frames block4 4 2048 2 block4_wf Hu Hmax ltac:(lia)).
Defined.
